(** * createAliasMap: the alias registry, its mutation protocol and its
      persistence codec

    A shallow embedding of [createAliasMap.ts] (the version with per-key
    candidate lists and the duplicates report) and the properties of the
    registry that the specification states about it.

    Conventions of the embedding.
    - A JavaScript string is the list of its UTF-16 code units.
    - An ordinary JavaScript object used as a map ([FileMapType]) is the list
      of its own properties in creation order; property reads go through
      [Object.prototype], enumeration follows the own-property-key order of
      the language.
    - A function that can throw returns a [Completion].
    - The [path] module is the POSIX one; the text handed to [writeFile] is
      the text [readFile] gives back. *)

From Stdlib Require Import String Ascii.
From Stdlib Require Import List NArith ZArith Bool Arith Lia.
From Stdlib Require Import Permutation Sorted.
Import ListNotations.

Set Warnings "-register-all".

(* ================================================================== *)
(** ** Strings *)

Definition jsstring := list N.

(** A string literal of the source. *)
Definition js (s : string) : jsstring :=
  map N_of_ascii (list_ascii_of_string s).

Fixpoint str_eqb (a b : jsstring) : bool :=
  match a, b with
  | [], [] => true
  | x :: a', y :: b' => (x =? y)%N && str_eqb a' b'
  | _, _ => false
  end.

(** [a < b] on strings: lexicographic on code units. *)
Fixpoint str_ltb (a b : jsstring) : bool :=
  match a, b with
  | _, [] => false
  | [], _ :: _ => true
  | x :: a', y :: b' =>
      if (x <? y)%N then true
      else if (x =? y)%N then str_ltb a' b' else false
  end.

(** [s.startsWith(p)] *)
Fixpoint startsWith (s p : jsstring) : bool :=
  match p, s with
  | [], _ => true
  | y :: p', x :: s' => (x =? y)%N && startsWith s' p'
  | _ :: _, [] => false
  end.

(** [String.prototype.toLowerCase] on the letters A-Z; the case mappings of
    the other code units are left out of the model. *)
Definition lower_unit (c : N) : N :=
  if ((65 <=? c) && (c <=? 90))%N then (c + 32)%N else c.

Definition toLowerCase (s : jsstring) : jsstring := map lower_unit s.

(** [toLocaleLowerCase()] in a host locale without special casing rules. *)
Definition toLocaleLowerCase (s : jsstring) : jsstring := toLowerCase s.

(** [arr.join(sep)] *)
Fixpoint join (sep : jsstring) (l : list jsstring) : jsstring :=
  match l with
  | [] => []
  | [x] => x
  | x :: rest => x ++ sep ++ join sep rest
  end.

(** [String(n)] for a non-negative integer. *)
Fixpoint digits_fuel (fuel : nat) (n : N) (acc : jsstring) : jsstring :=
  match fuel with
  | O => acc
  | S f =>
      let acc' := (48 + n mod 10)%N :: acc in
      if (n <? 10)%N then acc' else digits_fuel f (n / 10)%N acc'
  end.

Definition String_of_N (n : N) : jsstring :=
  digits_fuel (S (N.to_nat (N.log2 n))) n [].

(** [' '.repeat(n)] and the like. *)
Fixpoint str_repeat (s : jsstring) (n : nat) : jsstring :=
  match n with
  | O => []
  | S k => s ++ str_repeat s k
  end.

(* ================================================================== *)
(** ** Errors *)

Inductive JsError := TypeError | RangeError | SyntaxError.

Inductive Completion (A : Type) :=
| Normal (a : A)
| Throw (e : JsError).

Arguments Normal {A} a.
Arguments Throw {A} e.

(** How the promise returned to the caller stands once the event loop has
    nothing left to run for it. *)
Inductive PromiseState (A : Type) :=
| Pending
| Fulfilled (a : A)
| Rejected (e : JsError).

Arguments Pending {A}.
Arguments Fulfilled {A} a.
Arguments Rejected {A} e.

Definition bind {A B} (c : Completion A) (k : A -> Completion B)
  : Completion B :=
  match c with
  | Normal a => k a
  | Throw e => Throw e
  end.

Notation "'do' x <- c ; k" := (bind c (fun x => k))
  (at level 10, x name, c at level 100, k at level 200).

(** [arr.map(f)] for a callback that can throw: elements are visited from
    the left and the first exception ends the loop. *)
Fixpoint mapM {A B} (f : A -> Completion B) (l : list A)
  : Completion (list B) :=
  match l with
  | [] => Normal []
  | x :: rest =>
      do y <- f x;
      do ys <- mapM f rest;
      Normal (y :: ys)
  end.

(* ================================================================== *)
(** ** Ordinary objects used as maps *)

(** [type FileMapType = Record<string, string[]>] *)
Definition FileMapType := list (jsstring * list jsstring).

Fixpoint own_get {V} (o : list (jsstring * V)) (k : jsstring) : option V :=
  match o with
  | [] => None
  | (k', v) :: rest => if str_eqb k' k then Some v else own_get rest k
  end.

(** The property names every ordinary object inherits from
    [Object.prototype]. *)
Definition Object_prototype_keys : list jsstring :=
  map js ["constructor"; "__defineGetter__"; "__defineSetter__";
          "hasOwnProperty"; "__lookupGetter__"; "__lookupSetter__";
          "isPrototypeOf"; "propertyIsEnumerable"; "toString"; "valueOf";
          "__proto__"; "toLocaleString"]%string.

Definition proto_key : jsstring := js "__proto__".

(** What [fileMap[key]] evaluates to. *)
Inductive PropertyValue :=
| Undefined
| ArrayValue (l : list jsstring)
| InheritedValue.

Definition obj_get (o : FileMapType) (k : jsstring) : PropertyValue :=
  match own_get o k with
  | Some l => ArrayValue l
  | None =>
      if existsb (str_eqb k) Object_prototype_keys
      then InheritedValue else Undefined
  end.

Fixpoint own_update {V} (o : list (jsstring * V)) (k : jsstring) (v : V)
  : list (jsstring * V) :=
  match o with
  | [] => []
  | (k', v') :: rest =>
      if str_eqb k' k then (k', v) :: rest
      else (k', v') :: own_update rest k v
  end.

Definition has_own {V} (o : list (jsstring * V)) (k : jsstring) : bool :=
  match own_get o k with Some _ => true | None => false end.

(** [CreateDataProperty]: what an object literal and [JSON.parse] do. *)
Definition obj_define {V} (o : list (jsstring * V)) (k : jsstring) (v : V)
  : list (jsstring * V) :=
  if has_own o k then own_update o k v else o ++ [(k, v)].

(** [fileMap[key] = value] for an array [value]. An own property is
    overwritten in place; a new key is appended, except [__proto__], whose
    inherited setter replaces the prototype and creates no own property. *)
Definition obj_set (o : FileMapType) (k : jsstring) (v : list jsstring)
  : FileMapType :=
  if has_own o k then own_update o k v
  else if str_eqb k proto_key then o
  else o ++ [(k, v)].

(** [delete fileMap[key]] *)
Definition obj_delete {V} (o : list (jsstring * V)) (k : jsstring)
  : list (jsstring * V) :=
  filter (fun kv => negb (str_eqb (fst kv) k)) o.

(** A key is an array index when it is the canonical decimal form of an
    integer below 2^32 - 1. *)
Definition is_digit (c : N) : bool := ((48 <=? c) && (c <=? 57))%N.

Definition decimal_value (k : jsstring) : N :=
  fold_left (fun acc c => (10 * acc + (c - 48))%N) k 0%N.

Definition array_index (k : jsstring) : option N :=
  match k with
  | [] => None
  | c :: rest =>
      if forallb is_digit k
         && (negb (c =? 48)%N || match rest with [] => true | _ => false end)
         && (decimal_value k <? 4294967295)%N
      then Some (decimal_value k) else None
  end.

Definition is_index_key {V} (kv : jsstring * V) : bool :=
  match array_index (fst kv) with Some _ => true | None => false end.

Definition index_of_key {V} (kv : jsstring * V) : N :=
  match array_index (fst kv) with Some n => n | None => 0%N end.

Fixpoint insert_by_index {V} (kv : jsstring * V) (l : list (jsstring * V))
  : list (jsstring * V) :=
  match l with
  | [] => [kv]
  | kv' :: rest =>
      if (index_of_key kv <=? index_of_key kv')%N then kv :: l
      else kv' :: insert_by_index kv rest
  end.

(** [Object.entries(o)]: array-index keys in ascending numeric order, then
    the other keys in creation order. *)
Definition Object_entries {V} (o : list (jsstring * V))
  : list (jsstring * V) :=
  fold_right insert_by_index [] (filter is_index_key o)
  ++ filter (fun kv => negb (is_index_key kv)) o.

Definition Object_keys {V} (o : list (jsstring * V)) : list jsstring :=
  map fst (Object_entries o).

(* ================================================================== *)
(** ** The [path] module (POSIX) *)

Definition SLASH : N := 47.
Definition DOT : N := 46.
Definition path_sep : jsstring := [SLASH].

Definition is_slash (c : N) : bool := (c =? SLASH)%N.
Definition is_dot (c : N) : bool := (c =? DOT)%N.

Fixpoint takeWhile {A} (f : A -> bool) (l : list A) : list A :=
  match l with
  | [] => []
  | x :: r => if f x then x :: takeWhile f r else []
  end.

Fixpoint dropWhile {A} (f : A -> bool) (l : list A) : list A :=
  match l with
  | [] => []
  | x :: r => if f x then dropWhile f r else l
  end.

(** [path.parse(p).name]. The scan of [posix.parse] runs from the end of
    the path, down to the character after the root: trailing separators
    are skipped, the last component is the base, the extension starts at the
    last dot of the base unless that dot is the first character of the base
    or the base is [..]. The base is compared with [..] by offsets from
    [startPart], which is 0 (one before the base) when the path is a root
    followed by a single component. *)
Definition name_from_scan (isAbsolute : bool) (scanned : jsstring)
  : jsstring :=
  let trimmed := dropWhile is_slash (rev scanned) in
  let rbase := takeWhile (fun x => negb (is_slash x)) trimmed in
  let brokeOnSlash := existsb is_slash trimmed in
  let base := rev rbase in
  let rext := takeWhile (fun x => negb (is_dot x)) rbase in
  if negb (existsb is_dot rbase) then base
  else
    (* the characters of the base on the left of its last dot *)
    let before := rev (tl (dropWhile (fun x => negb (is_dot x)) rbase)) in
    match before with
    | [] => base
    | first :: _ =>
        if is_dot first
           && match rext with [] => true | _ => false end
           && (List.length before =? 1)%nat
           && (brokeOnSlash || negb isAbsolute)
        then base
        else before
    end.

Definition path_parse_name (p : jsstring) : jsstring :=
  match p with
  | [] => []
  | c :: r =>
      let isAbsolute := is_slash c in
      name_from_scan isAbsolute (if isAbsolute then r else p)
  end.

(** [str.split('/')] *)
Fixpoint split_slash (s : jsstring) : list jsstring :=
  match s with
  | [] => [[]]
  | c :: r =>
      if is_slash c then [] :: split_slash r
      else match split_slash r with
           | seg :: segs => (c :: seg) :: segs
           | [] => [[c]]
           end
  end.

(** [normalizeString(path, false, '/')], on the segments of the path and
    with the result kept as a stack (last segment first). *)
Definition normalize_step (stack : list jsstring) (seg : jsstring)
  : list jsstring :=
  if str_eqb seg [] || str_eqb seg [DOT] then stack
  else if str_eqb seg [DOT; DOT] then tl stack
  else seg :: stack.

Definition normalize_segments (segs : list jsstring) : list jsstring :=
  rev (fold_left normalize_step segs []).

Fixpoint common_prefix_length (a b : list jsstring) : nat :=
  match a, b with
  | x :: a', y :: b' =>
      if str_eqb x y then S (common_prefix_length a' b') else O
  | _, _ => O
  end.

(** The non-empty segments of a path. *)
Definition path_segments (p : jsstring) : list jsstring :=
  filter (fun seg => negb (str_eqb seg [])) (split_slash p).

Section Host.

(** The directory of the module, [path.dirname(fileURLToPath(import.meta.url))],
    and the working directory of the process: two absolute, normalized
    paths, given by their segments. *)
Variable DIR_SEGMENTS : list jsstring.
Variable CWD_SEGMENTS : list jsstring.

Definition DIR_NAME : jsstring := SLASH :: join path_sep DIR_SEGMENTS.
Definition process_cwd : jsstring := SLASH :: join path_sep CWD_SEGMENTS.

(** The loop of [posix.resolve]: arguments are prepended from the last one
    until an absolute one has been taken; empty arguments are skipped. *)
Fixpoint resolve_collect (args_from_last : list jsstring) (acc : jsstring)
  : jsstring * bool :=
  match args_from_last with
  | [] => (acc, false)
  | p :: rest =>
      match p with
      | [] => resolve_collect rest acc
      | c :: _ =>
          let acc' := p ++ path_sep ++ acc in
          if is_slash c then (acc', true) else resolve_collect rest acc'
      end
  end.

(** [path.resolve(...args)] *)
Definition path_resolve (args : list jsstring) : jsstring :=
  let (resolvedPath, resolvedAbsolute) :=
    resolve_collect (rev args ++ [process_cwd]) [] in
  let normalized :=
    join path_sep (normalize_segments (split_slash resolvedPath)) in
  if resolvedAbsolute then SLASH :: normalized
  else match normalized with [] => [DOT] | _ => normalized end.

(** [path.relative(from, to)]: both paths are resolved; the result climbs
    out of the segments of [from] that are not shared with [to] and then
    descends along the rest of [to]. *)
Definition path_relative (from to : jsstring) : jsstring :=
  if str_eqb from to then []
  else
    let fromSegs := path_segments (path_resolve [from]) in
    let toSegs := path_segments (path_resolve [to]) in
    let common := common_prefix_length fromSegs toSegs in
    join path_sep
      (repeat [DOT; DOT] (List.length fromSegs - common)
       ++ skipn common toSegs).

(* ================================================================== *)
(** ** The source: types *)

(** [type CreateAliasInputType]; [sourcePath] has been made absolute by
    [createAliasMap]. *)
Record CreateAliasInputType := {
  sourcePath : jsstring;
  extensions : list jsstring;
  prefix : option jsstring;
  ignored : option (list jsstring)
}.

(** [type CreateViteAliasMapReturnType]; [replacement] is [replacements[0]],
    which is [undefined] ([None]) for an empty array. *)
Record CreateViteAliasMapReturnType := {
  find : jsstring;
  replacement : option jsstring
}.

(** [type DuplicateModulesType = Array<[string, string[]]>] *)
Definition DuplicateModulesType := list (jsstring * list jsstring).

Inductive WatcherEvent := add | unlink.

(* ================================================================== *)
(** ** writeTsConfigPathsJSON *)

Definition QUOTE : N := 34.
Definition BACKSLASH : N := 92.
Definition COMMA : N := 44.
Definition NEWLINE : N := 10.

Definition quoted (s : jsstring) : jsstring := QUOTE :: s ++ [QUOTE].

(** The comparator handed to [sort]. *)
Definition compareNames (a b : jsstring) : Z :=
  let name1 := toLocaleLowerCase a in
  let name2 := toLowerCase b in
  if str_ltb name2 name1 then 1%Z
  else if str_ltb name1 name2 then (-1)%Z else 0%Z.

(** [Array.prototype.sort(cmp)]: a stable sort. *)
Fixpoint sort_insert (cmp : jsstring -> jsstring -> Z) (x : jsstring)
  (l : list jsstring) : list jsstring :=
  match l with
  | [] => [x]
  | y :: rest =>
      if (cmp x y <=? 0)%Z then x :: l else y :: sort_insert cmp x rest
  end.

Definition Array_sort (cmp : jsstring -> jsstring -> Z) (l : list jsstring)
  : list jsstring :=
  fold_right (sort_insert cmp) [] l.

Definition importNames (fileMap : FileMapType) : list jsstring :=
  Array_sort compareNames (Object_keys fileMap).

Fixpoint mapi_from {A B} (i : nat) (f : A -> nat -> B) (l : list A) : list B :=
  match l with
  | [] => []
  | x :: rest => f x i :: mapi_from (S i) f rest
  end.

(** The relative form written to the file. *)
Definition relativePathQuoted (pathStr : jsstring) : jsstring :=
  quoted ([DOT] ++ path_sep ++ path_relative DIR_NAME pathStr).

(** One line of the [paths] section. [fileMap[name]] is an own property,
    [name] being one of the own keys; [values[0]] of an empty array is
    [undefined], which [path.relative] rejects. *)
Definition pathsLine (fileMap : FileMapType) (count : nat)
  (name : jsstring) (i : nat) : Completion jsstring :=
  let isLastIndex := (i =? count - 1)%nat in
  let comma := if isLastIndex then [] else [COMMA] in
  match own_get fileMap name with
  | None => Throw TypeError
  | Some values =>
      if (1 <? List.length values)%nat then
        let relativePathsQuoted := map relativePathQuoted values in
        Normal (js "      " ++ quoted name ++ js ": ["
                ++ join (js ", ") relativePathsQuoted ++ js "]" ++ comma)
      else
        match values with
        | [] => Throw TypeError
        | v0 :: _ =>
            Normal (js "      " ++ quoted name ++ js ": ["
                    ++ relativePathQuoted v0 ++ js "]" ++ comma)
        end
  end.

(** [contents], around the lines of the [paths] section. *)
Definition fileText (paths : list jsstring) : jsstring :=
  join [NEWLINE]
    ([js "{";
      js "  " ++ quoted (js "compilerOptions") ++ js ": {";
      js "    " ++ quoted (js "paths") ++ js ": {"]
     ++ paths
     ++ [js "    }"; js "  }"; js "}"; []]).

(** The text handed to [writeFile], or the exception thrown before the
    write. *)
Definition writeTsConfigPathsJSON (fileMap : FileMapType)
  : Completion jsstring :=
  let names := importNames fileMap in
  do paths <- mapM (fun f => f)
                (mapi_from 0 (pathsLine fileMap (List.length names)) names);
  Normal (fileText paths).

(* ================================================================== *)
(** ** getImportPrefix and processWatcherEvent *)

(** [arr.find(item => absoluteFilePath.startsWith(item.sourcePath))?.prefix] *)
Definition getImportPrefix (absoluteFilePath : jsstring)
  (arr : list CreateAliasInputType) : option jsstring :=
  match List.find (fun item => startsWith absoluteFilePath (sourcePath item))
          arr with
  | Some item => prefix item
  | None => None
  end.

(** The key of a file: the prefix is used when it is a non-empty string. *)
Definition mapKeyOf (absoluteFilePath : jsstring)
  (aliasArray : list CreateAliasInputType) : jsstring :=
  let componentPathPrefix := getImportPrefix absoluteFilePath aliasArray in
  let fileName := path_parse_name absoluteFilePath in
  match componentPathPrefix with
  | Some (c :: p) => (c :: p) ++ path_sep ++ fileName
  | Some [] | None => fileName
  end.

(** The registry after the synchronous part of the handler, or the
    exception that ends it. For [add], [fileMap[mapKey] ?? []] is spread:
    an inherited member of [Object.prototype] is not iterable. For
    [unlink], [.filter] is called on whatever [fileMap[mapKey]] is. *)
Definition updateFileMap (evt : WatcherEvent) (absoluteFilePath : jsstring)
  (fileMap : FileMapType) (aliasArray : list CreateAliasInputType)
  : Completion FileMapType :=
  let mapKey := mapKeyOf absoluteFilePath aliasArray in
  match evt with
  | add =>
      match obj_get fileMap mapKey with
      | Undefined => Normal (obj_set fileMap mapKey [absoluteFilePath])
      | ArrayValue l => Normal (obj_set fileMap mapKey (l ++ [absoluteFilePath]))
      | InheritedValue => Throw TypeError
      end
  | unlink =>
      match obj_get fileMap mapKey with
      | ArrayValue l =>
          let kept :=
            filter (fun val => negb (str_eqb val absoluteFilePath)) l in
          let fileMap' := obj_set fileMap mapKey kept in
          match kept with
          | [] => Normal (obj_delete fileMap' mapKey)
          | _ :: _ => Normal fileMap'
          end
      | Undefined | InheritedValue => Throw TypeError
      end
  end.

(** [processWatcherEvent]: the registry it leaves behind, and how the
    promise it returns settles: fulfilled once the text is written, or
    rejected with what was thrown. *)
Definition processWatcherEvent (evt : WatcherEvent)
  (absoluteFilePath : jsstring) (fileMap : FileMapType)
  (aliasArray : list CreateAliasInputType)
  : FileMapType * Completion jsstring :=
  match updateFileMap evt absoluteFilePath fileMap aliasArray with
  | Throw e => (fileMap, Throw e)
  | Normal fileMap' => (fileMap', writeTsConfigPathsJSON fileMap')
  end.

(* ================================================================== *)
(** ** The duplicates report *)

(** [chalk] is taken with colours off, where its functions return their
    argument; the codes it adds otherwise are the ones [removeAnsiChars]
    strips. *)
Definition chalk (s : jsstring) : jsstring := s.

Definition ESC : N := 27.

(** A character [.] does not match. *)
Definition is_line_terminator (c : N) : bool :=
  ((c =? 10) || (c =? 13) || (c =? 8232) || (c =? 8233))%N.

(** Whether [.*?m] matches at the start of [s]. *)
Fixpoint reaches_m (s : jsstring) : bool :=
  match s with
  | [] => false
  | c :: r =>
      if (c =? 109)%N then true
      else if is_line_terminator c then false else reaches_m r
  end.

(** [text.replace(/\u001b\[.*?m/g, '')]; [inside] holds while a match is
    being consumed up to its first [m]. *)
Fixpoint removeAnsi_scan (inside : bool) (s : jsstring) : jsstring :=
  match s with
  | [] => []
  | c :: r =>
      if inside then
        if (c =? 109)%N then removeAnsi_scan false r
        else removeAnsi_scan true r
      else
        match r with
        | c2 :: r' =>
            if (c =? ESC)%N && (c2 =? 91)%N && reaches_m r'
            then removeAnsi_scan true r'
            else c :: removeAnsi_scan false r
        | [] => [c]
        end
  end.

Definition removeAnsiChars (text : jsstring) : jsstring :=
  removeAnsi_scan false text.

Definition getMaxLengthNoAnsi (textArr : list jsstring) : nat :=
  fold_left (fun len line => Nat.max len (List.length (removeAnsiChars line)))
    textArr 0%nat.

(** [' '.repeat(count)], which throws a RangeError for a negative count. *)
Definition spaces (count : Z) : Completion jsstring :=
  if (count <? 0)%Z then Throw RangeError
  else Normal (str_repeat [32%N] (Z.to_nat count)).

Definition frameText (textArr : list jsstring) : list jsstring :=
  let maxLength := getMaxLengthNoAnsi textArr in
  let h := chalk [9472%N] in
  let tl := chalk [9581%N] in
  let tr := chalk [9582%N] in
  let bl := chalk [9584%N] in
  let br := chalk [9583%N] in
  let v := chalk [9474%N] in
  let topBorder := tl ++ str_repeat h (maxLength + 2) ++ tr in
  let bottomBorder := bl ++ str_repeat h (maxLength + 2) ++ br in
  let content :=
    map (fun msg =>
           let originalLength := List.length (removeAnsiChars msg) in
           let repeatLength := (maxLength - originalLength)%nat in
           let padding := str_repeat [32%N] repeatLength in
           v ++ js " " ++ msg ++ padding ++ js " " ++ v)
        textArr in
  [topBorder] ++ content ++ [bottomBorder].

Definition moduleLines (dup : jsstring * list jsstring) : list jsstring :=
  let (name, absolutePaths) := dup in
  let cyanNum := chalk (String_of_N (N.of_nat (List.length absolutePaths))) in
  let cyanName := chalk name in
  let yellowMsg := chalk (js "paths are associated with the module") in
  let yellowColon := chalk (js ":") in
  [cyanNum ++ js " " ++ yellowMsg ++ js " " ++ cyanName ++ yellowColon]
  ++ mapi_from 0
       (fun absolutePath i =>
          let relativePath := path_relative DIR_NAME absolutePath in
          let suffix :=
            match i with
            | O => js "(" ++ [8592%N] ++ js " using)"
            | S _ => []
            end in
          js "  " ++ chalk relativePath ++ suffix)
       absolutePaths
  ++ [[]].

Definition header : jsstring := js " *** MULTIPLE MODULES FOUND *** ".

(** [logMultipleModuleWarnings]: the lines given to [console.warn] and the
    exception, if any, that ends the function. *)
Definition logMultipleModuleWarnings (duplicates : DuplicateModulesType)
  : list jsstring * Completion unit :=
  let textArr := flat_map moduleLines duplicates in
  let maxLength := getMaxLengthNoAnsi textArr in
  let title := chalk header in
  let room := (Z.of_nat maxLength - Z.of_nat (List.length header))%Z in
  let padStart := (room / 2)%Z in
  let padEnd := (- ((- room) / 2))%Z in
  match (do before <- spaces padStart;
         do after <- spaces padEnd;
         Normal (before ++ title ++ after)) with
  | Throw e => ([[]], Throw e)
  | Normal titleLine =>
      ([[]] ++ frameText ([[]; titleLine; []] ++ textArr) ++ [[]],
       Normal tt)
  end.

(* ================================================================== *)
(** ** createViteAliasMap *)

Definition aliasEntry (entry : jsstring * list jsstring)
  : CreateViteAliasMapReturnType :=
  {| find := fst entry; replacement := hd_error (snd entry) |}.

Definition isDuplicate (entry : jsstring * list jsstring) : bool :=
  (1 <? List.length (snd entry))%nat.

(** The pairs pushed to [duplicates] while the entries are mapped. *)
Definition duplicatesOf (fileMap : FileMapType) : DuplicateModulesType :=
  filter isDuplicate (Object_entries fileMap).

(** The alias list the [map] builds, before the report is logged. *)
Definition aliasMapOf (fileMap : FileMapType)
  : list CreateViteAliasMapReturnType :=
  map aliasEntry (Object_entries fileMap).

(** [createViteAliasMap]: what is logged, and the alias list or the
    exception raised while logging. *)
Definition createViteAliasMap (fileMap : FileMapType)
  : list jsstring * Completion (list CreateViteAliasMapReturnType) :=
  let duplicates := duplicatesOf fileMap in
  let aliasMap := aliasMapOf fileMap in
  let (console, logged) := logMultipleModuleWarnings duplicates in
  (console, do _ <- logged; Normal aliasMap).

(* ================================================================== *)
(** ** JSON.parse *)

Inductive JSONValue :=
| JNull
| JBool (b : bool)
| JNumber (literal : jsstring)
| JString (s : jsstring)
| JArray (elements : list JSONValue)
| JObject (properties : list (jsstring * JSONValue)).

Definition is_ws (c : N) : bool :=
  ((c =? 9) || (c =? 10) || (c =? 13) || (c =? 32))%N.

Definition skip_ws (s : jsstring) : jsstring := dropWhile is_ws s.

Definition hex_value (c : N) : option N :=
  if ((48 <=? c) && (c <=? 57))%N then Some (c - 48)%N
  else if ((97 <=? c) && (c <=? 102))%N then Some (c - 87)%N
  else if ((65 <=? c) && (c <=? 70))%N then Some (c - 55)%N
  else None.

(** The character a two-character escape stands for. *)
Definition unescape (c : N) : option N :=
  if (c =? 34)%N then Some 34%N
  else if (c =? 92)%N then Some 92%N
  else if (c =? 47)%N then Some 47%N
  else if (c =? 98)%N then Some 8%N
  else if (c =? 102)%N then Some 12%N
  else if (c =? 110)%N then Some 10%N
  else if (c =? 114)%N then Some 13%N
  else if (c =? 116)%N then Some 9%N
  else None.

Definition cons_result (c : N) (r : option (jsstring * jsstring))
  : option (jsstring * jsstring) :=
  match r with
  | Some (str, rest) => Some (c :: str, rest)
  | None => None
  end.

(** A string, from the character after its opening quote: the string and
    the text after its closing quote. *)
Fixpoint parse_string_body (s : jsstring) : option (jsstring * jsstring) :=
  match s with
  | [] => None
  | c :: r =>
      if (c =? QUOTE)%N then Some ([], r)
      else if (c =? BACKSLASH)%N then
        match r with
        | [] => None
        | e :: r1 =>
            if (e =? 117)%N then
              match r1 with
              | h1 :: h2 :: h3 :: h4 :: r2 =>
                  match hex_value h1, hex_value h2,
                        hex_value h3, hex_value h4 with
                  | Some a, Some b, Some c', Some d =>
                      cons_result (4096 * a + 256 * b + 16 * c' + d)%N
                        (parse_string_body r2)
                  | _, _, _, _ => None
                  end
              | _ => None
              end
            else
              match unescape e with
              | Some u => cons_result u (parse_string_body r1)
              | None => None
              end
        end
      else if (c <? 32)%N then None
      else cons_result c (parse_string_body r)
  end.

(** One or more digits. *)
Definition parse_digits (s : jsstring) : option (jsstring * jsstring) :=
  match takeWhile is_digit s with
  | [] => None
  | ds => Some (ds, dropWhile is_digit s)
  end.

(** The parts of a number: an optional minus sign; 0, or a non-zero digit
    and more digits; optionally a dot and digits; optionally e or E, a sign
    and digits. Each gives the text it takes and the text after it. *)
Definition parse_sign (s : jsstring) : jsstring * jsstring :=
  match s with
  | c :: r => if (c =? 45)%N then ([c], r) else ([], s)
  | [] => ([], s)
  end.

Definition parse_int (s : jsstring) : option (jsstring * jsstring) :=
  match s with
  | [] => None
  | c :: r =>
      if (c =? 48)%N then Some ([c], r)
      else if is_digit c then parse_digits s else None
  end.

Definition parse_frac (s : jsstring) : option (jsstring * jsstring) :=
  match s with
  | c :: r =>
      if (c =? DOT)%N then
        match parse_digits r with
        | Some (ds, rest) => Some (c :: ds, rest)
        | None => None
        end
      else Some ([], s)
  | [] => Some ([], s)
  end.

Definition parse_exp_sign (s : jsstring) : jsstring * jsstring :=
  match s with
  | c :: r => if ((c =? 43) || (c =? 45))%N then ([c], r) else ([], s)
  | [] => ([], s)
  end.

Definition parse_exp (s : jsstring) : option (jsstring * jsstring) :=
  match s with
  | c :: r =>
      if ((c =? 101) || (c =? 69))%N then
        let (esign, s1) := parse_exp_sign r in
        match parse_digits s1 with
        | Some (ds, rest) => Some (c :: esign ++ ds, rest)
        | None => None
        end
      else Some ([], s)
  | [] => Some ([], s)
  end.

Definition parse_number (s : jsstring) : option (jsstring * jsstring) :=
  let (sign, s1) := parse_sign s in
  match parse_int s1 with
  | None => None
  | Some (ip, s2) =>
      match parse_frac s2 with
      | None => None
      | Some (fp, s3) =>
          match parse_exp s3 with
          | None => None
          | Some (ep, s4) => Some (sign ++ ip ++ fp ++ ep, s4)
          end
      end
  end.

(** [true], [false], [null] or a number. *)
Definition parse_scalar (s : jsstring) : option (JSONValue * jsstring) :=
  if startsWith s (js "true") then Some (JBool true, skipn 4 s)
  else if startsWith s (js "false") then Some (JBool false, skipn 5 s)
  else if startsWith s (js "null") then Some (JNull, skipn 4 s)
  else match parse_number s with
       | Some (lit, rest) => Some (JNumber lit, rest)
       | None => None
       end.

(** The properties of an object literal are created in the order of the
    text; a repeated name keeps its first position and takes the last
    value. *)
Definition object_of_members (members : list (jsstring * JSONValue))
  : JSONValue :=
  JObject (fold_left (fun o m => obj_define o (fst m) (snd m)) members []).

(** The recursive descent, on a bound for the number of nested calls. *)
Fixpoint parse_value (fuel : nat) (s : jsstring)
  : option (JSONValue * jsstring) :=
  match fuel with
  | O => None
  | S f =>
      match skip_ws s with
      | [] => None
      | c :: r =>
          if (c =? QUOTE)%N then
            match parse_string_body r with
            | Some (str, rest) => Some (JString str, rest)
            | None => None
            end
          else if (c =? 91)%N then
            match skip_ws r with
            | [] => None
            | c2 :: r2 =>
                if (c2 =? 93)%N then Some (JArray [], r2)
                else match parse_elements f r with
                     | Some (l, rest) => Some (JArray l, rest)
                     | None => None
                     end
            end
          else if (c =? 123)%N then
            match skip_ws r with
            | [] => None
            | c2 :: r2 =>
                if (c2 =? 125)%N then Some (JObject [], r2)
                else match parse_members f r with
                     | Some (ms, rest) => Some (object_of_members ms, rest)
                     | None => None
                     end
            end
          else parse_scalar (c :: r)
      end
  end

with parse_elements (fuel : nat) (s : jsstring)
  : option (list JSONValue * jsstring) :=
  match fuel with
  | O => None
  | S f =>
      match parse_value f s with
      | None => None
      | Some (v, r) =>
          match skip_ws r with
          | [] => None
          | c :: r' =>
              if (c =? COMMA)%N then
                match parse_elements f r' with
                | Some (vs, rest) => Some (v :: vs, rest)
                | None => None
                end
              else if (c =? 93)%N then Some ([v], r')
              else None
          end
      end
  end

with parse_members (fuel : nat) (s : jsstring)
  : option (list (jsstring * JSONValue) * jsstring) :=
  match fuel with
  | O => None
  | S f =>
      match skip_ws s with
      | [] => None
      | c :: r =>
          if (c =? QUOTE)%N then
            match parse_string_body r with
            | None => None
            | Some (k, r1) =>
                match skip_ws r1 with
                | [] => None
                | c1 :: r2 =>
                    if (c1 =? 58)%N then
                      match parse_value f r2 with
                      | None => None
                      | Some (v, r3) =>
                          match skip_ws r3 with
                          | [] => None
                          | c3 :: r4 =>
                              if (c3 =? COMMA)%N then
                                match parse_members f r4 with
                                | Some (ms, rest) => Some ((k, v) :: ms, rest)
                                | None => None
                                end
                              else if (c3 =? 125)%N then Some ([(k, v)], r4)
                              else None
                          end
                      end
                    else None
                end
            end
          else None
      end
  end.

(** [JSON.parse(text)]. Two nested calls are spent per character at
    most. *)
Definition JSON_parse (text : jsstring) : Completion JSONValue :=
  match parse_value (2 * List.length text + 2) text with
  | Some (v, rest) =>
      match skip_ws rest with
      | [] => Normal v
      | _ :: _ => Throw SyntaxError
      end
  | None => Throw SyntaxError
  end.

(* ================================================================== *)
(** ** tsConfigPathsToFileMap *)

(** A value read from the parsed text: [undefined] or a JSON value. *)
Definition JSValue := option JSONValue.

(** [value.name] for the two names the source reads, [compilerOptions] and
    [paths], which no prototype defines. *)
Definition getMember (value : JSValue) (name : jsstring)
  : Completion JSValue :=
  match value with
  | None | Some JNull => Throw TypeError
  | Some (JObject properties) => Normal (own_get properties name)
  | Some _ => Normal None
  end.

Definition indexed {A} (l : list A) : list (jsstring * A) :=
  mapi_from 0 (fun x i => (String_of_N (N.of_nat i), x)) l.

(** [Object.entries(value)] *)
Definition entries_of_value (value : JSValue)
  : Completion (list (jsstring * JSONValue)) :=
  match value with
  | None | Some JNull => Throw TypeError
  | Some (JObject properties) => Normal (Object_entries properties)
  | Some (JArray elements) => Normal (indexed elements)
  | Some (JString s) => Normal (indexed (map (fun c => JString [c]) s))
  | Some (JBool _) | Some (JNumber _) => Normal []
  end.

(** [relativeFilePaths.map(p => path.resolve(DIR_NAME, p))]: only an array
    has [map], and [path.resolve] takes strings only. *)
Definition resolveAll (relativeFilePaths : JSONValue)
  : Completion (list jsstring) :=
  match relativeFilePaths with
  | JArray elements =>
      mapM (fun relativeFilePath =>
              match relativeFilePath with
              | JString s => Normal (path_resolve [DIR_NAME; s])
              | _ => Throw TypeError
              end)
           elements
  | _ => Throw TypeError
  end.

Fixpoint reduceEntries (entries : list (jsstring * JSONValue))
  (fileMap : FileMapType) : Completion FileMapType :=
  match entries with
  | [] => Normal fileMap
  | (mapKey, relativeFilePaths) :: rest =>
      do resolved <- resolveAll relativeFilePaths;
      reduceEntries rest (obj_set fileMap mapKey resolved)
  end.

Definition tsConfigPathsToFileMap (str : jsstring) : Completion FileMapType :=
  do json <- JSON_parse str;
  do compilerOptions <- getMember (Some json) (js "compilerOptions");
  do pathsObj <- getMember compilerOptions (js "paths");
  do entries <- entries_of_value pathsObj;
  reduceEntries entries [].

(* ================================================================== *)
(** ** createAliasMap *)

Record Bootstrap := {
  (** the promise [createAliasMap] returns *)
  returned : PromiseState (list CreateViteAliasMapReturnType);
  (** exceptions and rejections that reach no handler *)
  unhandled : list JsError;
  (** the patterns given to [chokidar.watch], if it was called *)
  watched : option (list jsstring);
  (** [fileMap] at the end *)
  registry : FileMapType;
  (** the texts handed to [writeFile], oldest first *)
  written : list jsstring;
  (** whether [process.env[INITIALIZED_FLAG]] is set at the end *)
  initialized : bool;
  (** the lines given to [console.warn] *)
  logged : list jsstring
}.

Definition absoluteSource (item : CreateAliasInputType)
  : CreateAliasInputType :=
  {| sourcePath := path_resolve [DIR_NAME; sourcePath item];
     extensions := extensions item;
     prefix := prefix item;
     ignored := ignored item |}.

Definition watchPattern (item : CreateAliasInputType) : jsstring :=
  let globExtensions :=
    join (js "|") (map (fun ext => js "*" ++ ext) (extensions item)) in
  path_resolve
    [DIR_NAME; sourcePath item ++ js "/**/(" ++ globExtensions ++ js ")"].

(** The events delivered before [ready], handled one after the other; the
    promises of the handlers are dropped by the listeners. *)
Fixpoint deliver (events : list (WatcherEvent * jsstring))
  (aliasArray : list CreateAliasInputType)
  (state : FileMapType * list jsstring * list JsError)
  : FileMapType * list jsstring * list JsError :=
  match events with
  | [] => state
  | (evt, filePath) :: rest =>
      let '(fileMap, texts, errors) := state in
      let (fileMap', settled) :=
        processWatcherEvent evt filePath fileMap aliasArray in
      deliver rest aliasArray
        match settled with
        | Normal text => (fileMap', texts ++ [text], errors)
        | Throw e => (fileMap', texts, errors ++ [e])
        end
  end.

(** [createAliasMap(arr)], given the state of the flag, the text of
    [tsconfig.paths.json] and the events the watcher delivers before
    [ready]. The executor of the returned promise receives [resolve]
    only. *)
Definition createAliasMap (isInitialized : bool) (fileContents : jsstring)
  (events : list (WatcherEvent * jsstring)) (arr : list CreateAliasInputType)
  : Bootstrap :=
  let aliasArray := map absoluteSource arr in
  if isInitialized then
    match tsConfigPathsToFileMap fileContents with
    | Throw e =>
        {| returned := Pending; unhandled := [e]; watched := None;
           registry := []; written := []; initialized := true;
           logged := [] |}
    | Normal fileMap =>
        let (console, aliasMap) := createViteAliasMap fileMap in
        match aliasMap with
        | Throw e =>
            {| returned := Pending; unhandled := [e]; watched := None;
               registry := fileMap; written := []; initialized := true;
               logged := console |}
        | Normal aliasMap =>
            {| returned := Fulfilled aliasMap; unhandled := [];
               watched := None; registry := fileMap; written := [];
               initialized := true; logged := console |}
        end
    end
  else
    let pathsToWatch := map watchPattern aliasArray in
    let '(fileMap, texts, errors) := deliver events aliasArray ([], [], []) in
    let (console, aliasMap) := createViteAliasMap fileMap in
    match aliasMap with
    | Throw e =>
        {| returned := Pending; unhandled := errors ++ [e];
           watched := Some pathsToWatch; registry := fileMap;
           written := texts; initialized := false; logged := console |}
    | Normal aliasMap =>
        match writeTsConfigPathsJSON fileMap with
        | Throw e =>
            {| returned := Pending; unhandled := errors ++ [e];
               watched := Some pathsToWatch; registry := fileMap;
               written := texts; initialized := false; logged := console |}
        | Normal text =>
            {| returned := Fulfilled aliasMap; unhandled := errors;
               watched := Some pathsToWatch; registry := fileMap;
               written := texts ++ [text]; initialized := true;
               logged := console |}
        end
    end.

End Host.

(* ================================================================== *)
(** ** The registry and its invariant *)

(** An object has each own key once. *)
Definition wf_object {V} (o : list (jsstring * V)) : Prop :=
  NoDup (map fst o).

(** A key that is present has a non-empty sequence. *)
Definition nonempty_sequences (fileMap : FileMapType) : Prop :=
  forall k l, own_get fileMap k = Some l -> l <> [].

Definition Registry (fileMap : FileMapType) : Prop :=
  wf_object fileMap /\ nonempty_sequences fileMap.

(** [remove(path)] and [add(path)] as the registry sees them. *)
Definition after (evt : WatcherEvent) (absoluteFilePath : jsstring)
  (aliasArray : list CreateAliasInputType) (fileMap : FileMapType)
  : FileMapType :=
  match updateFileMap evt absoluteFilePath fileMap aliasArray with
  | Normal fileMap' => fileMap'
  | Throw _ => fileMap
  end.

(** The test of the [filter] in [unlink]. *)
Definition differs_from (p : jsstring) : jsstring -> bool :=
  fun val => negb (str_eqb val p).


(** How the line of a key starts in the [paths] section. *)
Definition lineStart (name : jsstring) : jsstring :=
  js "      " ++ quoted name ++ js ": [".

(** The line of a key in the [paths] section of a registry. *)
Definition lineOf (DIR CWD : list jsstring) (fileMap : FileMapType)
  (count : nat) (name : jsstring) (i : nat) : jsstring :=
  lineStart name
  ++ join (js ", ")
       (map (relativePathQuoted DIR CWD)
          match own_get fileMap name with Some values => values | None => [] end)
  ++ js "]" ++ (if (i =? count - 1)%nat then [] else [COMMA]).

(** A code unit a JSON string holds as it is: not a quote, not a
    backslash, not a control character. *)
Definition plain_unit (c : N) : bool :=
  negb (c =? QUOTE)%N && negb (c =? BACKSLASH)%N && (32 <=? c)%N.

Definition plainText (s : jsstring) : bool := forallb plain_unit s.

(** The text of the members of an object written one per line: a name and
    an array of strings each, a comma after every line but the last. *)
Definition memberLine (member : jsstring * list jsstring) (isLast : bool)
  : jsstring :=
  lineStart (fst member)
  ++ join (js ", ") (map quoted (snd member))
  ++ js "]" ++ (if isLast then [] else [COMMA]).

Fixpoint membersText (members : list (jsstring * list jsstring)) : jsstring :=
  match members with
  | [] => []
  | [m] => memberLine m true ++ [NEWLINE]
  | m :: rest => memberLine m false ++ [NEWLINE] ++ membersText rest
  end.

Definition arrayOfStrings (strs : list jsstring) : JSONValue :=
  JArray (map JString strs).

Definition memberValue (member : jsstring * list jsstring)
  : jsstring * JSONValue :=
  (fst member, arrayOfStrings (snd member)).

(** A member the parser reads back as written: plain name, at least one
    string and at most [bound], all plain. *)
Definition plainMember (bound : nat) (member : jsstring * list jsstring)
  : Prop :=
  plainText (fst member) = true
  /\ snd member <> []
  /\ List.length (snd member) <= bound
  /\ Forall (fun s => plainText s = true) (snd member).

(** The text of the file around the members of [paths]. *)
Definition textOfMembers (members : list (jsstring * list jsstring))
  : jsstring :=
  js "{" ++ [NEWLINE]
  ++ js "  " ++ quoted (js "compilerOptions") ++ js ": {" ++ [NEWLINE]
  ++ js "    " ++ quoted (js "paths") ++ js ": {" ++ [NEWLINE]
  ++ membersText members
  ++ js "    }" ++ [NEWLINE] ++ js "  }" ++ [NEWLINE] ++ js "}" ++ [NEWLINE].

(** A segment of a normalized path: not empty, not [.] or [..], without
    a separator. *)
Definition is_segment (seg : jsstring) : bool :=
  negb (str_eqb seg []) && negb (str_eqb seg [DOT])
  && negb (str_eqb seg [DOT; DOT]) && negb (existsb is_slash seg).

(** An absolute, normalized path: a separator before each of its
    segments (the root is the separator alone). *)
Definition normalAbsolute (p : jsstring) : bool :=
  str_eqb p (SLASH :: join path_sep (path_segments p))
  && forallb is_segment (path_segments p).

(** The form in which a path is written to the file. *)
Definition relativeForm (DIR CWD : list jsstring) (p : jsstring) : jsstring :=
  [DOT] ++ path_sep ++ path_relative CWD (DIR_NAME DIR) p.

(** The sequence of a key, empty for a key that is absent. *)
Definition valuesOf (fileMap : FileMapType) (name : jsstring)
  : list jsstring :=
  match own_get fileMap name with Some values => values | None => [] end.

(** The member written for a key. *)
Definition memberOf (DIR CWD : list jsstring) (fileMap : FileMapType)
  (name : jsstring) : jsstring * list jsstring :=
  (name, map (relativeForm DIR CWD) (valuesOf fileMap name)).

(** A registry whose text reads back: keys and paths are plain, no key is
    [__proto__], and every path is absolute and normalized. *)
Definition readable (fileMap : FileMapType) : Prop :=
  forall k l, In (k, l) fileMap ->
    plainText k = true /\ k <> proto_key
    /\ Forall (fun p => normalAbsolute p = true /\ plainText p = true) l.

(** [readable], as a test. *)
Definition readableb (fileMap : FileMapType) : bool :=
  forallb (fun kv =>
             plainText (fst kv) && negb (str_eqb (fst kv) proto_key)
             && forallb (fun p => normalAbsolute p && plainText p) (snd kv))
    fileMap.

(* ================================================================== *)
(** ** Sample data *)

Module Sample.

Definition dir : list jsstring := [js "proj"].
Definition cwd : list jsstring := [js "home"; js "user"].

(** [createAliasMap([{sourcePath: './src', extensions: [...]}])], as in
    [vite.config.ts], with [sourcePath] resolved. *)
Definition sources : list CreateAliasInputType :=
  [ {| sourcePath := js "/proj/src";
       extensions := [js ".ts"; js ".tsx"; js ".js"; js ".jsx"];
       prefix := None;
       ignored := None |} ].


Definition app : jsstring := js "/proj/src/App.tsx".
Definition appA : jsstring := js "/proj/src/a/App.tsx".
Definition appB : jsstring := js "/proj/src/b/App.tsx".
Definition notFound : jsstring := js "/proj/src/404.tsx".


Definition oneModule : FileMapType := [(js "App", [app])].

(** Two files of the same name and a file with a numeric name. *)
Definition mixed : FileMapType :=
  fold_left (fun fileMap p => after add p sources fileMap)
    [appA; notFound; appB] [].

(** A file whose name holds a double quote. *)
Definition quoteFile : jsstring := js "/proj/src/a" ++ [QUOTE] ++ js "b.ts".
Definition quoteModule : FileMapType := after add quoteFile sources [].

(** A file whose name holds a backslash. *)
Definition backslashFile : jsstring :=
  js "/proj/src/a" ++ [BACKSLASH] ++ js "b.ts".
Definition backslashModule : FileMapType :=
  after add backslashFile sources [].
Definition twice : FileMapType := [(js "App", [app; appA; app])].

End Sample.

(* ================================================================== *)
(** ** The watcher, the frame and the earlier projection *)

(** The registry after the handlers of a sequence of events have run. *)
Definition replay (aliasArray : list CreateAliasInputType)
  (events : list (WatcherEvent * jsstring)) (fileMap : FileMapType)
  : FileMapType :=
  fold_left (fun fileMap ev => after (fst ev) (snd ev) aliasArray fileMap)
    events fileMap.

(** Whether a key names a member of [Object.prototype]. *)
Definition inheritedKey (k : jsstring) : bool :=
  existsb (str_eqb k) Object_prototype_keys.

(** When the handler of an event throws before it writes: the key is not
    an own key of the registry and the event is [unlink], or the key names
    an inherited member. *)
Definition rejects (evt : WatcherEvent) (k : jsstring)
  (fileMap : FileMapType) : bool :=
  match own_get fileMap k with
  | Some _ => false
  | None => match evt with unlink => true | add => inheritedKey k end
  end.

(** A line of the frame: the message between two bars, padded to the
    width of the frame. *)
Definition framed (maxLength : nat) (msg : jsstring) : jsstring :=
  [9474%N] ++ js " " ++ msg
  ++ str_repeat [32%N] (maxLength - List.length (removeAnsiChars msg))
  ++ js " " ++ [9474%N].

(** The mark put after the path in use. *)
Definition usingMark : jsstring := js "(" ++ [8592%N] ++ js " using)".

(** The segments of the pattern of a source: those of the resolved source,
    then [**], then the alternatives of the extensions. *)
Definition patternSegments (DIR CWD : list jsstring)
  (item : CreateAliasInputType) : list jsstring :=
  path_segments (path_resolve CWD [DIR_NAME DIR; sourcePath item])
  ++ [js "**";
      js "(" ++ join (js "|") (map (fun ext => js "*" ++ ext)
                                 (extensions item)) ++ js ")"].


(** The earlier [createViteAliasMap] of the module, which logs one report
    per key with several paths while it maps the entries. *)
Module Earlier.

Definition lastLine : jsstring :=
  js "There should only be 1 value. Using the 1st...".

(** [logMultipleModuleWarning(name, absolutePaths)]: the lines given to
    [console.warn] and the exception, if any. *)
Definition logMultipleModuleWarning (name : jsstring)
  (absolutePaths : list jsstring) : list jsstring * Completion unit :=
  let cyanNum := chalk (String_of_N (N.of_nat (List.length absolutePaths))) in
  let cyanName := chalk name in
  let yellowMsg := chalk (js "paths are associated with the module") in
  let textArr :=
    [cyanNum ++ js " " ++ yellowMsg ++ js " " ++ cyanName ++ js ":"]
    ++ map (fun pathValue => chalk (js "  " ++ pathValue)) absolutePaths
    ++ [chalk lastLine; []] in
  let maxLength := getMaxLengthNoAnsi textArr in
  let title := chalk header in
  let room := (Z.of_nat maxLength - Z.of_nat (List.length header))%Z in
  let padStart := (room / 2)%Z in
  let padEnd := (- ((- room) / 2))%Z in
  match (do before <- spaces padStart;
         do after <- spaces padEnd;
         Normal (before ++ title ++ after)) with
  | Throw e => ([[]], Throw e)
  | Normal titleLine =>
      ([[]] ++ frameText ([[]; titleLine; []] ++ textArr) ++ [[]],
       Normal tt)
  end.

(** The callback of [map] over the entries, entry after entry. *)
Fixpoint mapEntries (entries : list (jsstring * list jsstring))
  : list jsstring * Completion (list CreateViteAliasMapReturnType) :=
  match entries with
  | [] => ([], Normal [])
  | entry :: rest =>
      let (console, logged) :=
        if isDuplicate entry
        then logMultipleModuleWarning (fst entry) (snd entry)
        else ([], Normal tt) in
      match logged with
      | Throw e => (console, Throw e)
      | Normal _ =>
          let (console', mapped) := mapEntries rest in
          (console ++ console',
           do aliasMap <- mapped; Normal (aliasEntry entry :: aliasMap))
      end
  end.

Definition createViteAliasMap (fileMap : FileMapType)
  : list jsstring * Completion (list CreateViteAliasMapReturnType) :=
  mapEntries (Object_entries fileMap).

End Earlier.

(** What every registry read from a file satisfies. *)
Definition wellRead (fileMap : FileMapType) : Prop :=
  wf_object fileMap
  /\ forall k l, In (k, l) fileMap ->
       k <> proto_key /\ Forall (fun p => normalAbsolute p = true) l.

(** More sample data. *)
Module Demo.

(** Events of a cold scan: two files of one name, then a third file that
    is removed again. *)
Definition scan : list (WatcherEvent * jsstring) :=
  [(add, Sample.appA); (add, Sample.appB);
   (add, Sample.notFound); (unlink, Sample.notFound)].

(** A file whose name is the name of a member of [Object.prototype]. *)
Definition toStringFile : jsstring := js "/proj/src/toString.ts".

(** A source given relative to the module, as in [vite.config.ts]. *)
Definition relativeSources : list CreateAliasInputType :=
  [ {| sourcePath := js "./src";
       extensions := [js ".ts"; js ".tsx"; js ".js"; js ".jsx"];
       prefix := None;
       ignored := None |} ].

(** A registry with a key that lost its paths. *)
Definition hollow : FileMapType := [(js "App", [Sample.app]); (js "Gone", [])].


End Demo.

(* ================================================================== *)
(** * Properties *)

(** ** Strings and objects *)

Lemma str_eqb_eq (a b : jsstring) : str_eqb a b = true <-> a = b.
Proof.
  revert b; induction a as [|x a IH]; intros [|y b]; simpl;
    try (split; (discriminate || reflexivity)).
  rewrite andb_true_iff, N.eqb_eq, IH.
  split; [intros [-> ->]; reflexivity | intros H; inversion H; auto].
Qed.

Lemma str_eqb_refl (a : jsstring) : str_eqb a a = true.
Proof. apply str_eqb_eq; reflexivity. Qed.

Lemma str_eqb_neq (a b : jsstring) : a <> b -> str_eqb a b = false.
Proof.
  intros H; destruct (str_eqb a b) eqn:E; [|reflexivity].
  apply str_eqb_eq in E; contradiction.
Qed.

Lemma str_eqb_false (a b : jsstring) : str_eqb a b = false -> a <> b.
Proof. intros E ->; rewrite str_eqb_refl in E; discriminate. Qed.

Ltac case_key k' k :=
  let E := fresh "E" in
  destruct (str_eqb k' k) eqn:E;
  [apply str_eqb_eq in E; try subst | pose proof (str_eqb_false _ _ E)].

Section Objects.

Context {V : Type}.
Implicit Types (o : list (jsstring * V)) (k : jsstring) (v : V).

Lemma own_get_none_iff o k : own_get o k = None <-> ~ In k (map fst o).
Proof.
  induction o as [|[k' v'] o IH]; simpl; [tauto|].
  case_key k' k.
  - split; [discriminate | intros H; exfalso; apply H; auto].
  - rewrite IH; split; [intros H1 [H2|H2]; auto | tauto].
Qed.

Lemma own_get_in o k v : own_get o k = Some v -> In (k, v) o.
Proof.
  induction o as [|[k' v'] o IH]; simpl; [discriminate|].
  case_key k' k; [intros [= ->]; auto | auto].
Qed.

Lemma in_own_get o k v : wf_object o -> In (k, v) o -> own_get o k = Some v.
Proof.
  unfold wf_object.
  induction o as [|[k' v'] o IH]; simpl; [tauto|].
  intros Hnd [H|H].
  - inversion H; subst; rewrite str_eqb_refl; reflexivity.
  - inversion Hnd as [|? ? Hnot Hnd']; subst.
    case_key k' k.
    + exfalso; apply Hnot. apply (in_map fst) in H; exact H.
    + auto.
Qed.

Lemma own_get_app o1 o2 k :
  own_get (o1 ++ o2) k =
  match own_get o1 k with Some v => Some v | None => own_get o2 k end.
Proof.
  induction o1 as [|[k' v'] o1 IH]; simpl; [reflexivity|].
  destruct (str_eqb k' k); auto.
Qed.

Lemma own_get_update_same o k v :
  has_own o k = true -> own_get (own_update o k v) k = Some v.
Proof.
  unfold has_own.
  induction o as [|[k' v'] o IH]; simpl; [discriminate|].
  destruct (str_eqb k' k) eqn:E; simpl; rewrite E; auto.
Qed.

Lemma own_get_update_other o k k' v :
  k' <> k -> own_get (own_update o k v) k' = own_get o k'.
Proof.
  intros Hne.
  induction o as [|[k0 v0] o IH]; simpl; [reflexivity|].
  destruct (str_eqb k0 k) eqn:E; simpl.
  - apply str_eqb_eq in E; subst.
    rewrite (str_eqb_neq _ _ (not_eq_sym Hne)); reflexivity.
  - rewrite IH; reflexivity.
Qed.

Lemma own_update_update o k v w :
  own_update (own_update o k v) k w = own_update o k w.
Proof.
  induction o as [|[k' v'] o IH]; simpl; [reflexivity|].
  destruct (str_eqb k' k) eqn:E; simpl; rewrite E; [reflexivity|].
  rewrite IH; reflexivity.
Qed.

Lemma own_update_same_value o k v : own_get o k = Some v -> own_update o k v = o.
Proof.
  induction o as [|[k' v'] o IH]; simpl; [reflexivity|].
  destruct (str_eqb k' k) eqn:E.
  - intros [= ->]; reflexivity.
  - intros H; rewrite IH; auto.
Qed.

Lemma keys_own_update o k v : map fst (own_update o k v) = map fst o.
Proof.
  induction o as [|[k' v'] o IH]; simpl; [reflexivity|].
  destruct (str_eqb k' k); simpl; [reflexivity | rewrite IH; reflexivity].
Qed.

Lemma own_get_delete_same o k : own_get (obj_delete o k) k = None.
Proof.
  unfold obj_delete.
  induction o as [|[k' v'] o IH]; simpl; [reflexivity|].
  destruct (str_eqb k' k) eqn:E; simpl; [exact IH | rewrite E; exact IH].
Qed.

Lemma own_get_delete_other o k k' :
  k' <> k -> own_get (obj_delete o k) k' = own_get o k'.
Proof.
  intros Hne; unfold obj_delete.
  induction o as [|[k0 v0] o IH]; simpl; [reflexivity|].
  destruct (str_eqb k0 k) eqn:E; simpl.
  - apply str_eqb_eq in E; subst.
    rewrite (str_eqb_neq _ _ (not_eq_sym Hne)); exact IH.
  - rewrite IH; reflexivity.
Qed.

Lemma obj_delete_absent o k : own_get o k = None -> obj_delete o k = o.
Proof.
  unfold obj_delete.
  induction o as [|[k' v'] o IH]; simpl; [reflexivity|].
  destruct (str_eqb k' k) eqn:E; simpl; [discriminate|].
  intros H; rewrite IH; auto.
Qed.

Lemma obj_delete_app o1 o2 k :
  obj_delete (o1 ++ o2) k = obj_delete o1 k ++ obj_delete o2 k.
Proof. unfold obj_delete; apply filter_app. Qed.

Lemma wf_object_delete o k : wf_object o -> wf_object (obj_delete o k).
Proof.
  unfold wf_object, obj_delete.
  induction o as [|[k' v'] o IH]; simpl; [auto|].
  intros Hnd; inversion Hnd as [|? ? Hnot Hnd']; subst.
  destruct (str_eqb k' k); simpl; [auto|].
  constructor; [|auto].
  intros Hin; apply Hnot.
  apply in_map_iff in Hin as [[k1 v1] [Hk Hin]]; simpl in Hk; subst.
  apply filter_In in Hin as [Hin _].
  apply (in_map fst) in Hin; exact Hin.
Qed.

Lemma wf_object_update o k v : wf_object o -> wf_object (own_update o k v).
Proof. unfold wf_object; rewrite keys_own_update; auto. Qed.

Lemma wf_object_append o k v :
  wf_object o -> own_get o k = None -> wf_object (o ++ [(k, v)]).
Proof.
  unfold wf_object; intros Hnd Hnone.
  rewrite map_app; simpl.
  apply own_get_none_iff in Hnone.
  apply NoDup_app; [exact Hnd | repeat constructor; intros [] |].
  intros x Hx [<-|[]]; contradiction.
Qed.

End Objects.

(* ================================================================== *)
(** ** The mutation protocol *)

Lemma filter_differs_absent p l : ~ In p l -> filter (differs_from p) l = l.
Proof.
  induction l as [|x l IH]; simpl; [reflexivity|].
  intros H; unfold differs_from at 1.
  rewrite (str_eqb_neq x p) by (intros ->; apply H; auto).
  simpl; rewrite IH; [reflexivity | tauto].
Qed.

Lemma filter_differs_not_in p l : ~ In p (filter (differs_from p) l).
Proof.
  intros H; apply filter_In in H as [_ H].
  unfold differs_from in H; rewrite str_eqb_refl in H; discriminate.
Qed.

Lemma filter_differs_all_equal p l :
  (forall x, In x l -> x = p) -> filter (differs_from p) l = [].
Proof.
  induction l as [|x l IH]; simpl; [reflexivity|].
  intros H; unfold differs_from at 1.
  rewrite (H x (or_introl eq_refl)), str_eqb_refl; simpl.
  apply IH; auto.
Qed.

Section Mutation.

Variables (DIR CWD : list jsstring).
Variable aliasArray : list CreateAliasInputType.

Lemma processWatcherEvent_registry evt p fileMap :
  fst (processWatcherEvent DIR CWD evt p fileMap aliasArray)
  = after evt p aliasArray fileMap.
Proof.
  unfold processWatcherEvent, after.
  destruct (updateFileMap evt p fileMap aliasArray); reflexivity.
Qed.

Lemma obj_get_array fileMap k l :
  obj_get fileMap k = ArrayValue l <-> own_get fileMap k = Some l.
Proof.
  unfold obj_get; destruct (own_get fileMap k).
  - split; intros [= ->]; reflexivity.
  - destruct (existsb _ _); split; discriminate.
Qed.

Lemma obj_get_undefined fileMap k :
  obj_get fileMap k = Undefined ->
  own_get fileMap k = None /\ k <> proto_key.
Proof.
  unfold obj_get; destruct (own_get fileMap k); [discriminate|].
  destruct (existsb _ _) eqn:E; [discriminate|].
  intros _; split; [reflexivity|].
  intros ->; vm_compute in E; discriminate.
Qed.

(** What [add] does to the registry. *)
Lemma after_add p fileMap :
  after add p aliasArray fileMap =
  let k := mapKeyOf p aliasArray in
  match obj_get fileMap k with
  | Undefined => fileMap ++ [(k, [p])]
  | ArrayValue l => own_update fileMap k (l ++ [p])
  | InheritedValue => fileMap
  end.
Proof.
  unfold after, updateFileMap; cbv zeta.
  destruct (obj_get fileMap (mapKeyOf p aliasArray)) as [|l|] eqn:E;
    [| |reflexivity].
  - apply obj_get_undefined in E as [E1 E2].
    unfold obj_set, has_own; rewrite E1, (str_eqb_neq _ _ E2); reflexivity.
  - apply obj_get_array in E.
    unfold obj_set, has_own; rewrite E; reflexivity.
Qed.

(** What [unlink] does to the registry. *)
Lemma after_unlink p fileMap :
  after unlink p aliasArray fileMap =
  let k := mapKeyOf p aliasArray in
  match own_get fileMap k with
  | Some l =>
      match filter (differs_from p) l with
      | [] => obj_delete fileMap k
      | kept => own_update fileMap k kept
      end
  | None => fileMap
  end.
Proof.
  unfold after, updateFileMap; cbv zeta.
  destruct (obj_get fileMap (mapKeyOf p aliasArray)) as [|l|] eqn:E.
  - apply obj_get_undefined in E as [-> _]; reflexivity.
  - apply obj_get_array in E; rewrite E.
    fold (differs_from p).
    unfold obj_set, has_own; rewrite E.
    destruct (filter (differs_from p) l) eqn:F; [|reflexivity].
    unfold obj_delete.
    clear E F; induction fileMap as [|[k' v'] o IH]; simpl; [reflexivity|].
    destruct (str_eqb k' (mapKeyOf p aliasArray)) eqn:E; simpl; rewrite E;
      simpl; [reflexivity | f_equal; exact IH].
  - unfold obj_get in E; destruct (own_get fileMap _); [discriminate|].
    reflexivity.
Qed.

Lemma after_frame evt p fileMap k :
  k <> mapKeyOf p aliasArray ->
  own_get (after evt p aliasArray fileMap) k = own_get fileMap k.
Proof.
  intros Hk; destruct evt.
  - rewrite after_add; cbv zeta.
    destruct (obj_get fileMap _); [| |reflexivity].
    + rewrite own_get_app; destruct (own_get fileMap k); [reflexivity|].
      simpl; rewrite (str_eqb_neq _ _ (not_eq_sym Hk)); reflexivity.
    + apply own_get_update_other; exact Hk.
  - rewrite after_unlink; cbv zeta.
    destruct (own_get fileMap (mapKeyOf p aliasArray)); [|reflexivity].
    destruct (filter _ _).
    + apply own_get_delete_other; exact Hk.
    + apply own_get_update_other; exact Hk.
Qed.

Lemma after_wf evt p fileMap :
  wf_object fileMap -> wf_object (after evt p aliasArray fileMap).
Proof.
  intros Hwf; destruct evt.
  - rewrite after_add; cbv zeta.
    destruct (obj_get fileMap _) eqn:E; [| |exact Hwf].
    + apply obj_get_undefined in E as [E _].
      apply wf_object_append; assumption.
    + apply wf_object_update; exact Hwf.
  - rewrite after_unlink; cbv zeta.
    destruct (own_get fileMap _); [|exact Hwf].
    destruct (filter _ _).
    + apply wf_object_delete; exact Hwf.
    + apply wf_object_update; exact Hwf.
Qed.

Lemma after_nonempty evt p fileMap :
  nonempty_sequences fileMap ->
  nonempty_sequences (after evt p aliasArray fileMap).
Proof.
  intros Hne k l Hget.
  destruct (list_eq_dec N.eq_dec k (mapKeyOf p aliasArray)) as [->|Hk];
    [|rewrite after_frame in Hget by exact Hk; exact (Hne _ _ Hget)].
  destruct evt.
  - rewrite after_add in Hget; cbv zeta in Hget.
    destruct (obj_get fileMap (mapKeyOf p aliasArray)) eqn:E;
      [| |exact (Hne _ _ Hget)].
    + apply obj_get_undefined in E as [E _].
      rewrite own_get_app, E in Hget; simpl in Hget.
      rewrite str_eqb_refl in Hget; injection Hget as <-; discriminate.
    + apply obj_get_array in E.
      rewrite own_get_update_same in Hget
        by (unfold has_own; rewrite E; reflexivity).
      injection Hget as <-; intros H; apply app_eq_nil in H as [_ H].
      discriminate.
  - rewrite after_unlink in Hget; cbv zeta in Hget.
    destruct (own_get fileMap (mapKeyOf p aliasArray)) as [l0|] eqn:E.
    + destruct (filter (differs_from p) l0) eqn:F.
      * rewrite own_get_delete_same in Hget; discriminate.
      * rewrite own_get_update_same in Hget
          by (unfold has_own; rewrite E; reflexivity).
        injection Hget as <-; discriminate.
    + congruence.
Qed.

(** [unlink] of a file whose key the registry does not hold throws, and
    nothing is written. *)
Lemma unlink_absent_key_throws p fileMap :
  own_get fileMap (mapKeyOf p aliasArray) = None ->
  processWatcherEvent DIR CWD unlink p fileMap aliasArray
  = (fileMap, Throw TypeError).
Proof.
  intros H; unfold processWatcherEvent, updateFileMap, obj_get.
  rewrite H; destruct (existsb _ _); reflexivity.
Qed.

(** [unlink] of a path that its key does not list leaves the registry as
    it is. *)
Lemma unlink_unlisted_path p fileMap l :
  nonempty_sequences fileMap ->
  own_get fileMap (mapKeyOf p aliasArray) = Some l -> ~ In p l ->
  updateFileMap unlink p fileMap aliasArray = Normal fileMap.
Proof.
  intros Hne Hget Hin; unfold updateFileMap.
  apply obj_get_array in Hget as Hobj; rewrite Hobj.
  fold (differs_from p); rewrite filter_differs_absent by exact Hin.
  unfold obj_set, has_own; rewrite Hget.
  rewrite own_update_same_value by exact Hget.
  destruct l; [exfalso; eapply Hne; eauto | reflexivity].
Qed.

End Mutation.

Lemma Registry_singleton k (x : jsstring) l : Registry [(k, x :: l)].
Proof.
  split.
  - unfold wf_object; simpl; repeat constructor; intros [].
  - intros k' l'; simpl.
    destruct (str_eqb k k'); [intros [= <-]|]; discriminate.
Qed.

(** C3. The invariant of the registry (each own key once, each key that is
    present with a non-empty sequence) is kept by the handler for every
    event. In particular a key [add] creates holds the added path, and
    [unlink] deletes the key when every path of its sequence is the removed
    one. *)
Theorem mutation_preserves_registry_invariant :
  forall DIR CWD evt p fileMap aliasArray,
    Registry fileMap ->
    let fileMap' :=
      fst (processWatcherEvent DIR CWD evt p fileMap aliasArray) in
    Registry fileMap'
    /\ (forall l, own_get fileMap' (mapKeyOf p aliasArray) = Some l -> l <> [])
    /\ (forall l, evt = unlink ->
          own_get fileMap (mapKeyOf p aliasArray) = Some l ->
          (forall x, In x l -> x = p) ->
          own_get fileMap' (mapKeyOf p aliasArray) = None).
Proof.
  intros DIR CWD evt p fileMap aliasArray [Hwf Hne]; cbv zeta.
  rewrite processWatcherEvent_registry.
  assert (HR : Registry (after evt p aliasArray fileMap))
    by (split; [apply after_wf | apply after_nonempty]; assumption).
  split; [exact HR|]; split.
  - intros l; apply HR.
  - intros l -> Hget Hall.
    rewrite after_unlink; cbv zeta; rewrite Hget.
    rewrite filter_differs_all_equal by exact Hall.
    apply own_get_delete_same.
Qed.

Lemma mutation_preserves_registry_invariant_witness :
  Registry Sample.oneModule
  /\ own_get (fst (processWatcherEvent Sample.dir Sample.cwd unlink Sample.app
                     Sample.oneModule Sample.sources))
       (mapKeyOf Sample.app Sample.sources) = None.
Proof.
  assert (HR : Registry Sample.oneModule) by apply Registry_singleton.
  split; [exact HR|].
  destruct (mutation_preserves_registry_invariant Sample.dir Sample.cwd
              unlink Sample.app Sample.oneModule Sample.sources HR)
    as [_ [_ H]].
  apply (H [Sample.app]); [reflexivity | reflexivity |].
  intros x [<-|[]]; reflexivity.
Defined.

(** C4, as stated, fails: when the path is already listed under its key,
    [add] appends a second copy and [unlink] filters out both, so the
    registry loses the path it had. *)
Lemma add_then_remove_drops_listed_path :
  fst (processWatcherEvent Sample.dir Sample.cwd unlink Sample.app
         (fst (processWatcherEvent Sample.dir Sample.cwd add Sample.app
                 Sample.oneModule Sample.sources))
         Sample.sources)
  <> Sample.oneModule.
Proof. vm_compute; discriminate. Qed.

(** C4, amended. For a registry and a path that its key does not list yet,
    [add] followed by [unlink] gives the registry back; a key that was
    absent is absent again. *)
Theorem add_then_remove_restores :
  forall DIR CWD p fileMap aliasArray,
    Registry fileMap ->
    (forall l, own_get fileMap (mapKeyOf p aliasArray) = Some l -> ~ In p l) ->
    fst (processWatcherEvent DIR CWD unlink p
           (fst (processWatcherEvent DIR CWD add p fileMap aliasArray))
           aliasArray)
    = fileMap.
Proof.
  intros DIR CWD p fileMap aliasArray [Hwf Hne] Hfresh.
  rewrite !processWatcherEvent_registry.
  rewrite after_add; cbv zeta.
  destruct (obj_get fileMap (mapKeyOf p aliasArray)) as [|l|] eqn:E.
  - apply obj_get_undefined in E as [E _].
    rewrite after_unlink; cbv zeta.
    rewrite own_get_app, E; simpl; rewrite str_eqb_refl.
    simpl; unfold differs_from; rewrite str_eqb_refl; simpl.
    rewrite obj_delete_app, obj_delete_absent by exact E.
    unfold obj_delete; simpl; rewrite str_eqb_refl; simpl.
    apply app_nil_r.
  - apply obj_get_array in E.
    rewrite after_unlink; cbv zeta.
    rewrite own_get_update_same by (unfold has_own; rewrite E; reflexivity).
    rewrite filter_app; simpl.
    unfold differs_from at 2; rewrite str_eqb_refl; simpl.
    rewrite app_nil_r, filter_differs_absent by (apply Hfresh; exact E).
    destruct l as [|x l]; [exfalso; eapply Hne; eauto|].
    rewrite own_update_update; apply own_update_same_value; exact E.
  - rewrite after_unlink; cbv zeta.
    unfold obj_get in E; destruct (own_get fileMap _); [discriminate|].
    reflexivity.
Qed.

Lemma add_then_remove_restores_witness :
  fst (processWatcherEvent Sample.dir Sample.cwd unlink Sample.appA
         (fst (processWatcherEvent Sample.dir Sample.cwd add Sample.appA
                 Sample.oneModule Sample.sources))
         Sample.sources)
  = Sample.oneModule.
Proof.
  apply add_then_remove_restores.
  - apply Registry_singleton.
  - intros l H; vm_compute in H; injection H as <-.
    intros [H|[]]; vm_compute in H; discriminate.
Defined.

(** C5, where it fails: [unlink] for a path whose key the registry does
    not hold. [fileMap[mapKey]] is then [undefined] (or a member inherited
    from [Object.prototype]), calling [.filter] on it throws, the promise of
    the handler is rejected and nothing is written; the registry is left as
    it was. *)
Theorem unlink_of_absent_key_is_rejected :
  forall DIR CWD p fileMap aliasArray,
    own_get fileMap (mapKeyOf p aliasArray) = None ->
    processWatcherEvent DIR CWD unlink p fileMap aliasArray
    = (fileMap, Throw TypeError).
Proof.
  intros DIR CWD p fileMap aliasArray H.
  apply unlink_absent_key_throws; exact H.
Qed.

Lemma unlink_of_absent_key_is_rejected_witness :
  processWatcherEvent Sample.dir Sample.cwd unlink Sample.app []
    Sample.sources
  = ([], Throw TypeError).
Proof.
  apply unlink_of_absent_key_is_rejected; reflexivity.
Defined.

(** C9. One [unlink] takes every occurrence of the path out of the sequence
    of its key: what is left under the key, if anything, is the old
    sequence without the path. *)
Theorem remove_drops_every_occurrence :
  forall DIR CWD p fileMap aliasArray l,
    own_get fileMap (mapKeyOf p aliasArray) = Some l ->
    In p l ->
    let fileMap' :=
      fst (processWatcherEvent DIR CWD unlink p fileMap aliasArray) in
    updateFileMap unlink p fileMap aliasArray = Normal fileMap'
    /\ forall l', own_get fileMap' (mapKeyOf p aliasArray) = Some l' ->
         ~ In p l' /\ l' = filter (fun val => negb (str_eqb val p)) l.
Proof.
  intros DIR CWD p fileMap aliasArray l Hget Hin; cbv zeta.
  rewrite processWatcherEvent_registry.
  split.
  - unfold after; unfold updateFileMap.
    apply obj_get_array in Hget; rewrite Hget.
    destruct (filter _ l); reflexivity.
  - intros l'; rewrite after_unlink; cbv zeta; rewrite Hget.
    destruct (filter (differs_from p) l) eqn:F.
    + rewrite own_get_delete_same; discriminate.
    + rewrite own_get_update_same by (unfold has_own; rewrite Hget; reflexivity).
      intros [= <-]; split; [|symmetry; exact F].
      rewrite <- F; apply filter_differs_not_in.
Qed.

Lemma remove_drops_every_occurrence_witness :
  own_get (fst (processWatcherEvent Sample.dir Sample.cwd unlink Sample.app
                  Sample.twice Sample.sources))
    (mapKeyOf Sample.app Sample.sources)
  = Some [Sample.appA].
Proof.
  destruct (remove_drops_every_occurrence Sample.dir Sample.cwd Sample.app
              Sample.twice Sample.sources
              [Sample.app; Sample.appA; Sample.app])
    as [_ H]; [reflexivity | left; reflexivity |].
  reflexivity.
Defined.

(** C10. Neither [add] nor [unlink] touches the sequence of a key other
    than the key of the path. *)
Theorem mutation_frame :
  forall DIR CWD evt p fileMap aliasArray k,
    k <> mapKeyOf p aliasArray ->
    own_get (fst (processWatcherEvent DIR CWD evt p fileMap aliasArray)) k
    = own_get fileMap k.
Proof.
  intros; rewrite processWatcherEvent_registry; apply after_frame; assumption.
Qed.

Lemma mutation_frame_witness :
  own_get (fst (processWatcherEvent Sample.dir Sample.cwd add Sample.notFound
                  Sample.oneModule Sample.sources)) (js "App")
  = Some [Sample.app].
Proof.
  rewrite (mutation_frame Sample.dir Sample.cwd add Sample.notFound
             Sample.oneModule Sample.sources (js "App")).
  - reflexivity.
  - vm_compute; discriminate.
Defined.

(* ================================================================== *)
(** ** The key of a file *)

Lemma takeWhile_app_stop {A} (f : A -> bool) l1 x l2 :
  Forall (fun y => f y = true) l1 -> f x = false ->
  takeWhile f (l1 ++ x :: l2) = l1.
Proof.
  intros H Hx; induction H as [|y l1 Hy _ IH]; simpl.
  - rewrite Hx; reflexivity.
  - rewrite Hy, IH; reflexivity.
Qed.

Lemma takeWhile_all {A} (f : A -> bool) l :
  Forall (fun y => f y = true) l -> takeWhile f l = l.
Proof.
  intros H; induction H as [|y l Hy _ IH]; simpl; [reflexivity|].
  rewrite Hy, IH; reflexivity.
Qed.

Lemma dropWhile_app_stop {A} (f : A -> bool) l1 x l2 :
  Forall (fun y => f y = true) l1 -> f x = false ->
  dropWhile f (l1 ++ x :: l2) = x :: l2.
Proof.
  intros H Hx; induction H as [|y l1 Hy _ IH]; simpl.
  - rewrite Hx; reflexivity.
  - rewrite Hy; exact IH.
Qed.

Lemma not_in_unit (c : N) (s : jsstring) :
  ~ In c s -> Forall (fun y => negb (y =? c)%N = true) s.
Proof.
  intros H; apply Forall_forall; intros y Hy.
  apply negb_true_iff, N.eqb_neq; intros ->; contradiction.
Qed.

Lemma Forall_rev_iff {A} (P : A -> Prop) l : Forall P l -> Forall P (rev l).
Proof.
  intros H; apply Forall_forall; intros x Hx.
  apply in_rev in Hx; revert x Hx; apply Forall_forall; exact H.
Qed.

(** The name of [.../stem.ext]. *)
Lemma name_from_scan_file isAbsolute scanned stem ext parent :
  rev scanned = rev ext ++ DOT :: rev stem ++ parent ->
  match parent with [] => True | c :: _ => c = SLASH end ->
  stem <> [] -> ~ In SLASH stem ->
  ext <> [] -> ~ In SLASH ext -> ~ In DOT ext ->
  name_from_scan isAbsolute scanned = stem.
Proof.
  intros Hrev Hparent Hstem Hs1 Hext Hs2 Hd2.
  unfold name_from_scan; rewrite Hrev.
  assert (Hhead : dropWhile is_slash (rev ext ++ DOT :: rev stem ++ parent)
                  = rev ext ++ DOT :: rev stem ++ parent).
  { destruct (rev ext) as [|e re] eqn:E.
    - apply (f_equal (@rev N)) in E; rewrite rev_involutive in E.
      contradiction.
    - simpl. replace (is_slash e) with false; [reflexivity|].
      symmetry; apply N.eqb_neq; intros ->; apply Hs2.
      apply in_rev; rewrite E; left; reflexivity. }
  rewrite Hhead; clear Hhead.
  assert (Hbase : takeWhile (fun x => negb (is_slash x))
                    (rev ext ++ DOT :: rev stem ++ parent)
                  = rev ext ++ DOT :: rev stem).
  { replace (rev ext ++ DOT :: rev stem ++ parent)
      with ((rev ext ++ DOT :: rev stem) ++ parent)
      by (rewrite <- app_assoc; reflexivity).
    assert (Hall : Forall (fun y => negb (is_slash y) = true)
                     (rev ext ++ DOT :: rev stem)).
    { apply Forall_app; split; [|constructor; [reflexivity|]];
        apply Forall_rev_iff, not_in_unit; assumption. }
    destruct parent as [|c parent].
    - rewrite app_nil_r; apply takeWhile_all; exact Hall.
    - subst c; apply takeWhile_app_stop; [exact Hall | reflexivity]. }
  rewrite Hbase; clear Hbase.
  assert (Hdots : Forall (fun y => negb (is_dot y) = true) (rev ext))
    by (apply Forall_rev_iff, not_in_unit; assumption).
  replace (existsb is_dot (rev ext ++ DOT :: rev stem)) with true
    by (symmetry; apply existsb_exists; exists DOT; split;
        [apply in_or_app; right; left; reflexivity | reflexivity]).
  rewrite takeWhile_app_stop, dropWhile_app_stop by (exact Hdots || reflexivity).
  simpl; rewrite rev_involutive.
  destruct stem as [|first stem]; [contradiction|].
  destruct (rev ext) eqn:E.
  - apply (f_equal (@rev N)) in E; rewrite rev_involutive in E.
    contradiction.
  - rewrite andb_false_r; reflexivity.
Qed.

(** [path.parse] of a file path: the name is what stands between the last
    separator and the last dot. *)
Lemma path_parse_name_file parent stem ext :
  stem <> [] -> ~ In SLASH stem ->
  ext <> [] -> ~ In SLASH ext -> ~ In DOT ext ->
  path_parse_name (parent ++ [SLASH] ++ stem ++ [DOT] ++ ext) = stem.
Proof.
  intros Hstem Hs1 Hext Hs2 Hd2.
  assert (Hrev : forall q, rev (q ++ [SLASH] ++ stem ++ [DOT] ++ ext)
                           = rev ext ++ DOT :: rev stem ++ SLASH :: rev q).
  { intros q; rewrite !rev_app_distr; simpl; rewrite <- !app_assoc.
    reflexivity. }
  destruct parent as [|c parent].
  - apply name_from_scan_file with (ext := ext) (parent := []);
      try assumption; [|exact I].
    simpl; rewrite rev_app_distr; simpl; rewrite <- app_assoc, app_nil_r.
    reflexivity.
  - change (path_parse_name ((c :: parent) ++ [SLASH] ++ stem ++ [DOT] ++ ext))
      with (name_from_scan (is_slash c)
              (if is_slash c
               then parent ++ [SLASH] ++ stem ++ [DOT] ++ ext
               else (c :: parent) ++ [SLASH] ++ stem ++ [DOT] ++ ext)).
    destruct (is_slash c).
    + apply name_from_scan_file
        with (ext := ext) (parent := SLASH :: rev parent);
        try assumption; [apply Hrev | reflexivity].
    + apply name_from_scan_file
        with (ext := ext) (parent := SLASH :: rev (c :: parent));
        try assumption; [apply Hrev | reflexivity].
Qed.



(* ================================================================== *)
(** ** The order of strings *)








(** ** [sort] *)

Lemma sort_insert_perm cmp x l : Permutation (x :: l) (sort_insert cmp x l).
Proof.
  induction l as [|y l IH]; simpl; [apply Permutation_refl|].
  destruct (cmp x y <=? 0)%Z; [apply Permutation_refl|].
  eapply perm_trans; [apply perm_swap | apply perm_skip; exact IH].
Qed.

Lemma Array_sort_perm cmp l : Permutation l (Array_sort cmp l).
Proof.
  induction l as [|x l IH]; simpl; [constructor|].
  eapply perm_trans; [apply perm_skip; exact IH | apply sort_insert_perm].
Qed.



(** ** The order of the own keys *)

Lemma insert_by_index_perm {V} (kv : jsstring * V) l :
  Permutation (kv :: l) (insert_by_index kv l).
Proof.
  induction l as [|y l IH]; simpl; [apply Permutation_refl|].
  destruct (index_of_key kv <=? index_of_key y)%N; [apply Permutation_refl|].
  eapply perm_trans; [apply perm_swap | apply perm_skip; exact IH].
Qed.

Lemma filter_partition_perm {A} (f : A -> bool) l :
  Permutation (filter f l ++ filter (fun x => negb (f x)) l) l.
Proof.
  induction l as [|x l IH]; simpl; [constructor|].
  destruct (f x); simpl.
  - apply perm_skip; exact IH.
  - eapply perm_trans; [apply Permutation_sym, Permutation_middle|].
    apply perm_skip; exact IH.
Qed.

Lemma Object_entries_perm {V} (o : list (jsstring * V)) :
  Permutation (Object_entries o) o.
Proof.
  unfold Object_entries.
  eapply perm_trans; [|apply (filter_partition_perm is_index_key)].
  apply Permutation_app_tail.
  induction (filter is_index_key o) as [|x l IH]; simpl; [constructor|].
  eapply perm_trans; [apply Permutation_sym, insert_by_index_perm|].
  apply perm_skip; exact IH.
Qed.

(** Without array-index keys the entries come in creation order. *)
Lemma Object_entries_creation_order {V} (o : list (jsstring * V)) :
  (forall kv, In kv o -> array_index (fst kv) = None) ->
  Object_entries o = o.
Proof.
  intros H; unfold Object_entries.
  assert (E1 : filter is_index_key o = []).
  { clear - H. induction o as [|x o IH]; simpl; [reflexivity|].
    unfold is_index_key at 1; rewrite (H x (or_introl eq_refl)).
    apply IH; intros; apply H; right; assumption. }
  rewrite E1; simpl.
  clear E1; induction o as [|x o IH]; simpl; [reflexivity|].
  unfold is_index_key at 1; rewrite (H x (or_introl eq_refl)); simpl.
  f_equal; apply IH; intros; apply H; right; assumption.
Qed.

Lemma Object_keys_perm {V} (o : list (jsstring * V)) :
  Permutation (Object_keys o) (map fst o).
Proof. apply Permutation_map, Object_entries_perm. Qed.

Lemma importNames_perm fileMap :
  Permutation (importNames fileMap) (map fst fileMap).
Proof.
  unfold importNames.
  eapply perm_trans; [apply Permutation_sym, Array_sort_perm|].
  apply Object_keys_perm.
Qed.

(* ================================================================== *)
(** ** The text of the persisted file *)



Lemma Registry_empty : Registry [].
Proof. split; [constructor | intros k l; discriminate]. Qed.

Lemma Registry_after evt p aliasArray fileMap :
  Registry fileMap -> Registry (after evt p aliasArray fileMap).
Proof.
  intros [Hwf Hne]; split; [apply after_wf | apply after_nonempty];
    assumption.
Qed.

Section Writer.

Variables (DIR CWD : list jsstring).

Lemma pathsLine_present fileMap count name i values :
  own_get fileMap name = Some values -> values <> [] ->
  pathsLine DIR CWD fileMap count name i
  = Normal (lineOf DIR CWD fileMap count name i).
Proof.
  intros Hget Hne; unfold pathsLine, lineOf, lineStart; rewrite Hget.
  destruct values as [|v0 [|v1 values]]; [contradiction | |];
    simpl; rewrite <- ?app_assoc; reflexivity.
Qed.

Lemma mapM_pathsLines fileMap count names :
  nonempty_sequences fileMap ->
  (forall name, In name names -> has_own fileMap name = true) ->
  forall i,
    mapM (fun f => f) (mapi_from i (pathsLine DIR CWD fileMap count) names)
    = Normal (mapi_from i (lineOf DIR CWD fileMap count) names).
Proof.
  intros Hne; induction names as [|name names IH]; intros Hown i; simpl;
    [reflexivity|].
  pose proof (Hown name (or_introl eq_refl)) as H.
  unfold has_own in H; destruct (own_get fileMap name) as [values|] eqn:E;
    [|discriminate].
  rewrite (pathsLine_present _ _ _ _ values E (Hne _ _ E)); simpl.
  rewrite IH by (intros; apply Hown; right; assumption).
  reflexivity.
Qed.

Lemma importNames_own fileMap name :
  In name (importNames fileMap) -> has_own fileMap name = true.
Proof.
  intros H.
  apply (Permutation_in _ (importNames_perm fileMap)) in H.
  unfold has_own; destruct (own_get fileMap name) eqn:E; [reflexivity|].
  apply own_get_none_iff in E; contradiction.
Qed.

(** The text written for a registry. *)
Lemma writeTsConfigPathsJSON_registry fileMap :
  nonempty_sequences fileMap ->
  writeTsConfigPathsJSON DIR CWD fileMap
  = Normal (fileText
              (mapi_from 0
                 (lineOf DIR CWD fileMap (List.length (importNames fileMap)))
                 (importNames fileMap))).
Proof.
  intros Hne; unfold writeTsConfigPathsJSON; cbv zeta.
  rewrite mapM_pathsLines;
    [reflexivity | exact Hne | apply importNames_own].
Qed.

End Writer.



(* ================================================================== *)
(** ** The alias projection *)

(** Without a key that has more than one path the report is empty, the
    header is wider than the text and [' '.repeat] is given a negative
    count. *)
Lemma createViteAliasMap_without_duplicates DIR CWD fileMap :
  duplicatesOf fileMap = [] ->
  createViteAliasMap DIR CWD fileMap = ([[]], Throw RangeError).
Proof.
  intros H; unfold createViteAliasMap; rewrite H; reflexivity.
Qed.

(** C2, where it fails: a registry in which no key has more than one path.
    The alias list is built, then the report is logged with no duplicate
    in it, and the exception raised there ends [createViteAliasMap]: no
    alias list is returned. *)
Theorem alias_projection_throws_without_duplicates :
  forall DIR CWD fileMap,
    (forall k l, In (k, l) fileMap -> List.length l <= 1) ->
    createViteAliasMap DIR CWD fileMap = ([[]], Throw RangeError).
Proof.
  intros DIR CWD fileMap H.
  apply createViteAliasMap_without_duplicates.
  unfold duplicatesOf.
  assert (Hall : forall e, In e (Object_entries fileMap) ->
                           isDuplicate e = false).
  { intros [k l] He.
    apply (Permutation_in _ (Object_entries_perm fileMap)) in He.
    apply H in He; unfold isDuplicate; simpl.
    apply Nat.ltb_ge; exact He. }
  induction (Object_entries fileMap) as [|e entries IH]; [reflexivity|].
  simpl; rewrite (Hall e (or_introl eq_refl)).
  apply IH; intros e' He'; apply Hall; right; exact He'.
Qed.

Lemma alias_projection_throws_without_duplicates_witness :
  aliasMapOf Sample.oneModule
  = [ {| find := js "App"; replacement := Some Sample.app |} ]
  /\ createViteAliasMap Sample.dir Sample.cwd Sample.oneModule
     = ([[]], Throw RangeError).
Proof.
  split; [reflexivity|].
  apply alias_projection_throws_without_duplicates.
  intros k l [H|[]]; injection H as _ <-; simpl; lia.
Defined.

(* ================================================================== *)
(** ** Warm start *)

(** On a warm start an exception of [tsConfigPathsToFileMap] is raised in
    the continuation of [readFile]: nothing settles the returned promise,
    and no watcher is set up. *)
Lemma warm_start_malformed DIR CWD fileContents events arr e :
  tsConfigPathsToFileMap DIR CWD fileContents = Throw e ->
  createAliasMap DIR CWD true fileContents events arr
  = {| returned := Pending; unhandled := [e]; watched := None;
       registry := []; written := []; initialized := true; logged := [] |}.
Proof. intros H; unfold createAliasMap; rewrite H; reflexivity. Qed.

(** C6, as stated, fails: with the flag set and the file holding the empty
    object, reading [compilerOptions.paths] throws, and the promise the
    caller holds is not rejected. *)
Lemma warm_start_malformed_not_rejected :
  tsConfigPathsToFileMap Sample.dir Sample.cwd (js "{}" ++ [NEWLINE])
  = Throw TypeError
  /\ ~ exists e,
         returned (createAliasMap Sample.dir Sample.cwd true
                     (js "{}" ++ [NEWLINE]) [] Sample.sources)
         = Rejected e.
Proof.
  split; [reflexivity|].
  intros [e H]; vm_compute in H; discriminate.
Qed.

(** C6, amended. On a warm start with a file that [tsConfigPathsToFileMap]
    rejects, the promise returned to the caller is never settled: it is
    neither fulfilled with an alias list nor rejected. The exception
    reaches no handler, no watcher is set up and nothing is written. *)
Theorem warm_start_malformed_never_settles :
  forall DIR CWD fileContents events arr e,
    tsConfigPathsToFileMap DIR CWD fileContents = Throw e ->
    let bootstrap := createAliasMap DIR CWD true fileContents events arr in
    returned bootstrap = Pending
    /\ unhandled bootstrap = [e]
    /\ watched bootstrap = None
    /\ written bootstrap = [].
Proof.
  intros DIR CWD fileContents events arr e H; cbv zeta.
  rewrite (warm_start_malformed _ _ _ _ _ _ H); simpl; auto.
Qed.

Lemma warm_start_malformed_never_settles_witness :
  returned (createAliasMap Sample.dir Sample.cwd true (js "{}" ++ [NEWLINE])
              [] Sample.sources) = Pending.
Proof.
  apply (warm_start_malformed_never_settles Sample.dir Sample.cwd
           (js "{}" ++ [NEWLINE]) [] Sample.sources TypeError).
  reflexivity.
Defined.

(* ================================================================== *)
(** ** JSON.parse: the bound on nested calls is enough *)

Lemma dropWhile_length {A} (f : A -> bool) l :
  List.length (dropWhile f l) <= List.length l.
Proof.
  induction l as [|x l IH]; simpl; [lia|].
  destruct (f x); simpl; lia.
Qed.

Lemma skip_ws_length s : List.length (skip_ws s) <= List.length s.
Proof. apply dropWhile_length. Qed.

Lemma parse_string_body_length s str rest :
  parse_string_body s = Some (str, rest) -> List.length rest < List.length s.
Proof.
  remember (List.length s) as n eqn:Hn.
  revert s str rest Hn.
  induction n as [n IH] using lt_wf_ind; intros s str rest Hn.
  destruct s as [|c r]; simpl; [discriminate|].
  simpl in Hn.
  destruct (c =? QUOTE)%N; [intros [= <- <-]; lia|].
  destruct (c =? BACKSLASH)%N.
  - destruct r as [|e r1]; [discriminate|].
    destruct (e =? 117)%N.
    + destruct r1 as [|h1 [|h2 [|h3 [|h4 r2]]]]; try discriminate.
      destruct (hex_value h1), (hex_value h2), (hex_value h3), (hex_value h4);
        try discriminate.
      destruct (parse_string_body r2) as [[str' rest']|] eqn:E;
        simpl; [|discriminate].
      intros [= <- <-].
      apply (IH (List.length r2)) in E; simpl in *; try lia.
    + destruct (unescape e); [|discriminate].
      destruct (parse_string_body r1) as [[str' rest']|] eqn:E;
        simpl; [|discriminate].
      intros [= <- <-].
      apply (IH (List.length r1)) in E; simpl in *; try lia.
  - destruct (c <? 32)%N; [discriminate|].
    destruct (parse_string_body r) as [[str' rest']|] eqn:E;
      simpl; [|discriminate].
    intros [= <- <-].
    apply (IH (List.length r)) in E; simpl in *; try lia.
Qed.

Lemma parse_digits_length s ds rest :
  parse_digits s = Some (ds, rest) -> List.length rest <= List.length s.
Proof.
  unfold parse_digits; destruct (takeWhile is_digit s); [discriminate|].
  intros [= _ <-]; apply dropWhile_length.
Qed.

Lemma parse_sign_length s sg rest :
  parse_sign s = (sg, rest) -> List.length rest <= List.length s.
Proof.
  unfold parse_sign; destruct s as [|c r]; [intros [= _ <-]; lia|].
  destruct (c =? 45)%N; intros [= _ <-]; simpl; lia.
Qed.

Lemma parse_int_length s ip rest :
  parse_int s = Some (ip, rest) -> List.length rest <= List.length s.
Proof.
  unfold parse_int; destruct s as [|c r]; [discriminate|].
  destruct (c =? 48)%N; [intros [= _ <-]; simpl; lia|].
  destruct (is_digit c); [apply parse_digits_length | discriminate].
Qed.

Lemma parse_frac_length s fp rest :
  parse_frac s = Some (fp, rest) -> List.length rest <= List.length s.
Proof.
  unfold parse_frac; destruct s as [|c r]; [intros [= _ <-]; lia|].
  destruct (c =? DOT)%N; [|intros [= _ <-]; lia].
  destruct (parse_digits r) as [[ds rest']|] eqn:E; [|discriminate].
  apply parse_digits_length in E; intros [= _ <-]; simpl; lia.
Qed.

Lemma parse_exp_length s ep rest :
  parse_exp s = Some (ep, rest) -> List.length rest <= List.length s.
Proof.
  unfold parse_exp; destruct s as [|c r]; [intros [= _ <-]; lia|].
  destruct ((c =? 101) || (c =? 69))%N; [|intros [= _ <-]; lia].
  destruct (parse_exp_sign r) as [esign s1] eqn:E1.
  assert (List.length s1 <= List.length r).
  { unfold parse_exp_sign in E1; destruct r as [|c4 r4];
      [injection E1 as _ <-; lia|].
    destruct ((c4 =? 43) || (c4 =? 45))%N; injection E1 as _ <-; simpl; lia. }
  destruct (parse_digits s1) as [[ds rest']|] eqn:E; [|discriminate].
  apply parse_digits_length in E; intros [= _ <-]; simpl; lia.
Qed.

Lemma parse_number_length s lit rest :
  parse_number s = Some (lit, rest) -> List.length rest <= List.length s.
Proof.
  unfold parse_number.
  destruct (parse_sign s) as [sg s1] eqn:E1; apply parse_sign_length in E1.
  destruct (parse_int s1) as [[ip s2]|] eqn:E2; [|discriminate].
  apply parse_int_length in E2.
  destruct (parse_frac s2) as [[fp s3]|] eqn:E3; [|discriminate].
  apply parse_frac_length in E3.
  destruct (parse_exp s3) as [[ep s4]|] eqn:E4; [|discriminate].
  apply parse_exp_length in E4.
  intros [= _ <-]; lia.
Qed.

Lemma parse_scalar_length s v rest :
  parse_scalar s = Some (v, rest) -> List.length rest <= List.length s.
Proof.
  assert (Hk : forall n, List.length (skipn n s) <= List.length s)
    by (intros; rewrite length_skipn; lia).
  unfold parse_scalar.
  destruct (startsWith s (js "true")); [intros [= _ <-]; apply (Hk 4)|].
  destruct (startsWith s (js "false")); [intros [= _ <-]; apply (Hk 5)|].
  destruct (startsWith s (js "null")); [intros [= _ <-]; apply (Hk 4)|].
  destruct (parse_number s) as [[lit rest']|] eqn:E; [|discriminate].
  apply parse_number_length in E; intros [= _ <-]; exact E.
Qed.

Lemma parse_value_unfold f s :
  parse_value (S f) s =
  match skip_ws s with
  | [] => None
  | c :: r =>
      if (c =? QUOTE)%N then
        match parse_string_body r with
        | Some (str, rest) => Some (JString str, rest)
        | None => None
        end
      else if (c =? 91)%N then
        match skip_ws r with
        | [] => None
        | c2 :: r2 =>
            if (c2 =? 93)%N then Some (JArray [], r2)
            else match parse_elements f r with
                 | Some (l, rest) => Some (JArray l, rest)
                 | None => None
                 end
        end
      else if (c =? 123)%N then
        match skip_ws r with
        | [] => None
        | c2 :: r2 =>
            if (c2 =? 125)%N then Some (JObject [], r2)
            else match parse_members f r with
                 | Some (ms, rest) => Some (object_of_members ms, rest)
                 | None => None
                 end
        end
      else parse_scalar (c :: r)
  end.
Proof. reflexivity. Qed.

Lemma parse_elements_unfold f s :
  parse_elements (S f) s =
  match parse_value f s with
  | None => None
  | Some (v, r) =>
      match skip_ws r with
      | [] => None
      | c :: r' =>
          if (c =? COMMA)%N then
            match parse_elements f r' with
            | Some (vs, rest) => Some (v :: vs, rest)
            | None => None
            end
          else if (c =? 93)%N then Some ([v], r')
          else None
      end
  end.
Proof. reflexivity. Qed.

Lemma parse_members_unfold f s :
  parse_members (S f) s =
  match skip_ws s with
  | [] => None
  | c :: r =>
      if (c =? QUOTE)%N then
        match parse_string_body r with
        | None => None
        | Some (k, r1) =>
            match skip_ws r1 with
            | [] => None
            | c1 :: r2 =>
                if (c1 =? 58)%N then
                  match parse_value f r2 with
                  | None => None
                  | Some (v, r3) =>
                      match skip_ws r3 with
                      | [] => None
                      | c3 :: r4 =>
                          if (c3 =? COMMA)%N then
                            match parse_members f r4 with
                            | Some (ms, rest) => Some ((k, v) :: ms, rest)
                            | None => None
                            end
                          else if (c3 =? 125)%N then Some ([(k, v)], r4)
                          else None
                      end
                  end
                else None
            end
        end
      else None
  end.
Proof. reflexivity. Qed.

(** A parse that succeeds on some bound succeeds, with the same result, on
    every bound from twice the length of the text on; what is left of the
    text is no longer than the text. *)
Lemma parse_fuel_enough f :
  (forall s v rest, parse_value f s = Some (v, rest) ->
     List.length rest <= List.length s
     /\ forall g, 2 * List.length s + 1 <= g ->
          parse_value g s = Some (v, rest))
  /\ (forall s l rest, parse_elements f s = Some (l, rest) ->
        List.length rest <= List.length s
        /\ forall g, 2 * List.length s + 2 <= g ->
             parse_elements g s = Some (l, rest))
  /\ (forall s ms rest, parse_members f s = Some (ms, rest) ->
        List.length rest <= List.length s
        /\ forall g, 2 * List.length s + 2 <= g ->
             parse_members g s = Some (ms, rest)).
Proof.
  induction f as [|f (IHv & IHe & IHm)];
    [repeat split; intros; discriminate|].
  split; [|split].
  - intros s v rest; rewrite parse_value_unfold.
    pose proof (skip_ws_length s) as Hs.
    destruct (skip_ws s) as [|c r] eqn:Es; [discriminate|].
    simpl in Hs.
    assert (Hg : forall g, 2 * List.length s + 1 <= g -> exists g',
                 g = S g' /\ 2 * List.length r + 2 <= g')
      by (intros g Hg; exists (pred g); lia).
    destruct (c =? QUOTE)%N eqn:Eq.
    { destruct (parse_string_body r) as [[str rest']|] eqn:E; [|discriminate].
      apply parse_string_body_length in E as HL.
      intros [= <- <-]; split; [lia|].
      intros g Hg'; destruct (Hg g Hg') as [g' [-> _]].
      rewrite parse_value_unfold, Es, Eq, E; reflexivity. }
    destruct (c =? 91)%N eqn:Ea.
    { pose proof (skip_ws_length r) as Hr.
      destruct (skip_ws r) as [|c2 r2] eqn:Er; [discriminate|].
      simpl in Hr.
      destruct (c2 =? 93)%N eqn:Ec.
      - intros [= <- <-]; split; [lia|].
        intros g Hg'; destruct (Hg g Hg') as [g' [-> _]].
        rewrite parse_value_unfold, Es, Eq, Ea, Er, Ec; reflexivity.
      - destruct (parse_elements f r) as [[l rest']|] eqn:E; [|discriminate].
        apply IHe in E as [HL HE].
        intros [= <- <-]; split; [lia|].
        intros g Hg'; destruct (Hg g Hg') as [g' [-> Hg'']].
        rewrite parse_value_unfold, Es, Eq, Ea, Er, Ec, (HE g' Hg'').
        reflexivity. }
    destruct (c =? 123)%N eqn:Eo.
    { pose proof (skip_ws_length r) as Hr.
      destruct (skip_ws r) as [|c2 r2] eqn:Er; [discriminate|].
      simpl in Hr.
      destruct (c2 =? 125)%N eqn:Ec.
      - intros [= <- <-]; split; [lia|].
        intros g Hg'; destruct (Hg g Hg') as [g' [-> _]].
        rewrite parse_value_unfold, Es, Eq, Ea, Eo, Er, Ec; reflexivity.
      - destruct (parse_members f r) as [[ms rest']|] eqn:E; [|discriminate].
        apply IHm in E as [HL HE].
        intros [= <- <-]; split; [lia|].
        intros g Hg'; destruct (Hg g Hg') as [g' [-> Hg'']].
        rewrite parse_value_unfold, Es, Eq, Ea, Eo, Er, Ec, (HE g' Hg'').
        reflexivity. }
    intros E; apply parse_scalar_length in E as HL; simpl in HL.
    split; [lia|].
    intros g Hg'; destruct (Hg g Hg') as [g' [-> _]].
    rewrite parse_value_unfold, Es, Eq, Ea, Eo; exact E.
  - intros s l rest; rewrite parse_elements_unfold.
    destruct (parse_value f s) as [[v r]|] eqn:Ev; [|discriminate].
    apply IHv in Ev as [HLv HEv].
    pose proof (skip_ws_length r) as Hr.
    destruct (skip_ws r) as [|c r'] eqn:Er; [discriminate|].
    simpl in Hr.
    destruct (c =? COMMA)%N eqn:Ec.
    + destruct (parse_elements f r') as [[vs rest']|] eqn:E; [|discriminate].
      apply IHe in E as [HL HE].
      intros [= <- <-]; split; [lia|].
      intros g Hg; destruct g as [|g]; [lia|].
      rewrite parse_elements_unfold, (HEv g), Er, Ec, (HE g) by lia.
      reflexivity.
    + destruct (c =? 93)%N eqn:Ec'; [|discriminate].
      intros [= <- <-]; split; [lia|].
      intros g Hg; destruct g as [|g]; [lia|].
      rewrite parse_elements_unfold, (HEv g), Er, Ec, Ec' by lia.
      reflexivity.
  - intros s ms rest; rewrite parse_members_unfold.
    pose proof (skip_ws_length s) as Hs.
    destruct (skip_ws s) as [|c r] eqn:Es; [discriminate|].
    simpl in Hs.
    destruct (c =? QUOTE)%N eqn:Eq; [|discriminate].
    destruct (parse_string_body r) as [[k r1]|] eqn:Ek; [|discriminate].
    apply parse_string_body_length in Ek as HLk.
    pose proof (skip_ws_length r1) as Hr1.
    destruct (skip_ws r1) as [|c1 r2] eqn:Er1; [discriminate|].
    simpl in Hr1.
    destruct (c1 =? 58)%N eqn:Ec1; [|discriminate].
    destruct (parse_value f r2) as [[v r3]|] eqn:Ev; [|discriminate].
    apply IHv in Ev as [HLv HEv].
    pose proof (skip_ws_length r3) as Hr3.
    destruct (skip_ws r3) as [|c3 r4] eqn:Er3; [discriminate|].
    simpl in Hr3.
    destruct (c3 =? COMMA)%N eqn:Ec3.
    + destruct (parse_members f r4) as [[ms' rest']|] eqn:E; [|discriminate].
      apply IHm in E as [HL HE].
      intros [= <- <-]; split; [lia|].
      intros g Hg; destruct g as [|g]; [lia|].
      rewrite parse_members_unfold, Es, Eq, Ek, Er1, Ec1, (HEv g), Er3, Ec3,
        (HE g) by lia.
      reflexivity.
    + destruct (c3 =? 125)%N eqn:Ec3'; [|discriminate].
      intros [= <- <-]; split; [lia|].
      intros g Hg; destruct g as [|g]; [lia|].
      rewrite parse_members_unfold, Es, Eq, Ek, Er1, Ec1, (HEv g), Er3, Ec3,
        Ec3' by lia.
      reflexivity.
Qed.

(** [JSON.parse] gives what the descent gives on any bound. *)
Lemma JSON_parse_of_descent f text v rest :
  parse_value f text = Some (v, rest) -> skip_ws rest = [] ->
  JSON_parse text = Normal v.
Proof.
  intros H Hrest; unfold JSON_parse.
  destruct (parse_fuel_enough f) as [Hv _].
  destruct (Hv _ _ _ H) as [_ Hg].
  rewrite (Hg (2 * List.length text + 2)) by lia.
  rewrite Hrest; reflexivity.
Qed.

(* ================================================================== *)
(** ** JSON.parse on the text the writer produces *)

Lemma skip_ws_app ws s :
  forallb is_ws ws = true -> skip_ws (ws ++ s) = skip_ws s.
Proof.
  unfold skip_ws; induction ws as [|c ws IH]; simpl; [reflexivity|].
  intros H; apply andb_true_iff in H as [-> H]; auto.
Qed.

Lemma skip_ws_stop c s : is_ws c = false -> skip_ws (c :: s) = c :: s.
Proof. unfold skip_ws; simpl; intros ->; reflexivity. Qed.

Lemma skip_ws_to ws c s :
  forallb is_ws ws = true -> is_ws c = false ->
  skip_ws (ws ++ c :: s) = c :: s.
Proof. intros; rewrite skip_ws_app, skip_ws_stop; auto. Qed.

Lemma parse_string_body_plain str rest :
  plainText str = true ->
  parse_string_body (str ++ QUOTE :: rest) = Some (str, rest).
Proof.
  unfold plainText; induction str as [|c str IH]; simpl; [reflexivity|].
  intros H; apply andb_true_iff in H as [Hc H].
  unfold plain_unit in Hc.
  apply andb_true_iff in Hc as [Hc H32]; apply andb_true_iff in Hc as [Hq Hb].
  apply negb_true_iff in Hq, Hb; rewrite Hq, Hb.
  replace (c <? 32)%N with false
    by (symmetry; apply N.ltb_ge, N.leb_le; exact H32).
  rewrite IH by exact H; reflexivity.
Qed.

(** A quoted string, after any whitespace. *)
Lemma parse_value_string f ws str rest :
  forallb is_ws ws = true -> plainText str = true ->
  parse_value (S f) (ws ++ quoted str ++ rest) = Some (JString str, rest).
Proof.
  intros Hws Hstr; rewrite parse_value_unfold.
  unfold quoted; simpl; rewrite <- app_assoc; simpl.
  rewrite skip_ws_to by (exact Hws || reflexivity).
  simpl; rewrite parse_string_body_plain by exact Hstr; reflexivity.
Qed.

Lemma join_cons2 sep x y l :
  join sep (x :: y :: l) = x ++ sep ++ join sep (y :: l).
Proof. reflexivity. Qed.

(** The elements of an array of strings, up to the closing bracket. *)
Lemma parse_elements_strings strs :
  strs <> [] -> Forall (fun s => plainText s = true) strs ->
  forall f ws rest,
    forallb is_ws ws = true ->
    List.length strs < f ->
    parse_elements f (ws ++ join (js ", ") (map quoted strs) ++ 93%N :: rest)
    = Some (map JString strs, rest).
Proof.
  induction strs as [|x strs IH]; [contradiction|].
  intros _ Hplain f ws rest Hws Hf.
  inversion Hplain as [|? ? Hx Hrest]; subst.
  destruct f as [|f]; [lia|].
  rewrite parse_elements_unfold.
  destruct strs as [|y strs].
  - simpl map; simpl join.
    destruct f as [|f]; [simpl in Hf; lia|].
    rewrite parse_value_string by assumption.
    rewrite skip_ws_stop by reflexivity; reflexivity.
  - change (map quoted (x :: y :: strs))
      with (quoted x :: quoted y :: map quoted strs).
    rewrite join_cons2, <- !app_assoc.
    destruct f as [|f]; [simpl in Hf; lia|].
    rewrite parse_value_string by assumption.
    change (js ", " ++ ?t) with (COMMA :: [32%N] ++ t).
    rewrite skip_ws_stop by reflexivity.
    change ((COMMA =? COMMA)%N) with true; cbv iota.
    change (quoted y :: map quoted strs) with (map quoted (y :: strs)).
    rewrite (IH ltac:(discriminate) Hrest (S f) [32%N] rest eq_refl)
      by (simpl in *; lia).
    reflexivity.
Qed.

(** An array of strings, after any whitespace. *)
Lemma parse_value_strings strs f ws rest :
  strs <> [] -> Forall (fun s => plainText s = true) strs ->
  forallb is_ws ws = true ->
  List.length strs + 1 < f ->
  parse_value f
    (ws ++ 91%N :: join (js ", ") (map quoted strs) ++ 93%N :: rest)
  = Some (arrayOfStrings strs, rest).
Proof.
  intros Hne Hplain Hws Hf.
  destruct f as [|f]; [lia|].
  rewrite parse_value_unfold, skip_ws_to by (exact Hws || reflexivity).
  change ((91 =? QUOTE)%N) with false; change ((91 =? 91)%N) with true.
  cbv iota.
  pose proof (parse_elements_strings strs Hne Hplain f [] rest eq_refl) as H.
  simpl app in H; rewrite H by lia.
  destruct strs as [|x strs]; [contradiction|].
  assert (Hq : exists t, join (js ", ") (map quoted (x :: strs)) ++ 93%N :: rest
                         = QUOTE :: t).
  { destruct strs; simpl; eauto. }
  destruct Hq as [t Ht]; rewrite Ht.
  rewrite skip_ws_stop by reflexivity; reflexivity.
Qed.

(** The members of the [paths] object, up to its closing brace. *)
Lemma parse_members_lines bound members :
  members <> [] -> Forall (plainMember bound) members ->
  forall f ws rest,
    forallb is_ws ws = true ->
    List.length members + bound + 2 < f ->
    parse_members f (ws ++ membersText members ++ js "    }" ++ rest)
    = Some (map memberValue members, rest).
Proof.
  induction members as [|[name strs] members IH]; [contradiction|].
  intros _ Hall f ws rest Hws Hf.
  inversion Hall as [|? ? (Hname & Hne & Hlen & Hplain) Hrest]; subst.
  simpl in Hname, Hne, Hlen, Hplain.
  destruct f as [|f]; [lia|].
  rewrite parse_members_unfold.
  assert (Hline : forall isLast tail,
             ws ++ (memberLine (name, strs) isLast ++ tail)
             = (ws ++ js "      ") ++ QUOTE :: name ++ QUOTE :: 58%N
               :: [32%N] ++ 91%N :: join (js ", ") (map quoted strs)
               ++ 93%N :: (if isLast then [] else [COMMA]) ++ tail).
  { intros isLast tail; unfold memberLine, lineStart, quoted; simpl.
    repeat (rewrite <- app_assoc; simpl); reflexivity. }
  assert (Hws' : forallb is_ws (ws ++ js "      ") = true)
    by (rewrite forallb_app, Hws; reflexivity).
  assert (Hval : forall tail,
             parse_value f
               ([32%N] ++ 91%N :: join (js ", ") (map quoted strs)
                ++ 93%N :: tail)
             = Some (arrayOfStrings strs, tail)).
  { intros tail; apply parse_value_strings; try assumption; [reflexivity|].
    simpl in Hf; lia. }
  destruct members as [|m members].
  - change (membersText [(name, strs)])
      with (memberLine (name, strs) true ++ [NEWLINE]).
    rewrite <- app_assoc, Hline.
    rewrite skip_ws_to by (exact Hws' || reflexivity).
    change ((QUOTE =? QUOTE)%N) with true; cbv iota.
    rewrite parse_string_body_plain by exact Hname.
    rewrite skip_ws_stop by reflexivity.
    change ((58 =? 58)%N) with true; cbv iota.
    rewrite Hval.
    change ([] ++ [NEWLINE] ++ js "    }" ++ rest)
      with ((NEWLINE :: js "    ") ++ 125%N :: rest).
    rewrite skip_ws_to by reflexivity.
    reflexivity.
  - change (membersText ((name, strs) :: m :: members))
      with (memberLine (name, strs) false ++ [NEWLINE]
            ++ membersText (m :: members)).
    rewrite <- !app_assoc, Hline.
    rewrite skip_ws_to by (exact Hws' || reflexivity).
    change ((QUOTE =? QUOTE)%N) with true; cbv iota.
    rewrite parse_string_body_plain by exact Hname.
    rewrite skip_ws_stop by reflexivity.
    change ((58 =? 58)%N) with true; cbv iota.
    rewrite Hval.
    change ([COMMA] ++ ?t) with (COMMA :: t).
    rewrite skip_ws_stop by reflexivity.
    change ((COMMA =? COMMA)%N) with true; cbv iota.
    rewrite (IH ltac:(discriminate) Hrest f [NEWLINE] rest eq_refl)
      by (simpl in *; lia).
    reflexivity.
Qed.

(** The object of [paths], from its opening brace. *)
Lemma parse_value_paths bound members f rest :
  Forall (plainMember bound) members ->
  List.length members + bound + 3 < f ->
  parse_value f
    ([32%N] ++ 123%N :: [NEWLINE] ++ membersText members ++ js "    }" ++ rest)
  = Some (object_of_members (map memberValue members), rest).
Proof.
  intros Hall Hf.
  destruct f as [|f]; [lia|].
  rewrite parse_value_unfold, skip_ws_to by reflexivity.
  change ((123 =? QUOTE)%N) with false; change ((123 =? 91)%N) with false.
  change ((123 =? 123)%N) with true; cbv iota.
  destruct members as [|m members].
  - change ([NEWLINE] ++ membersText [] ++ js "    }" ++ rest)
      with ((NEWLINE :: js "    ") ++ 125%N :: rest).
    rewrite skip_ws_to by reflexivity; reflexivity.
  - rewrite (parse_members_lines bound (m :: members) ltac:(discriminate)
               Hall f [NEWLINE] rest eq_refl) by (simpl in *; lia).
    assert (Hq : exists t,
               skip_ws ([NEWLINE] ++ membersText (m :: members)
                        ++ js "    }" ++ rest) = QUOTE :: t).
    { destruct m as [name strs].
      assert (E : exists t, membersText ((name, strs) :: members)
                            = js "      " ++ QUOTE :: t).
      { destruct members; simpl; unfold memberLine, lineStart, quoted; simpl;
          eauto. }
      destruct E as [t ->]; exists (t ++ js "    }" ++ rest).
      reflexivity. }
    destruct Hq as [t ->].
    reflexivity.
Qed.

(** The whole text. *)
Lemma JSON_parse_textOfMembers bound members :
  Forall (plainMember bound) members ->
  JSON_parse (textOfMembers members)
  = Normal
      (JObject
         [(js "compilerOptions",
           JObject
             [(js "paths",
               object_of_members (map memberValue members))])]).
Proof.
  intros Hall.
  apply JSON_parse_of_descent
    with (f := List.length members + bound + 8) (rest := [NEWLINE]);
    [|reflexivity].
  unfold textOfMembers.
  rewrite Nat.add_succ_r, parse_value_unfold.
  change (skip_ws (js "{" ++ ?t)) with (123%N :: t).
  change ((123 =? QUOTE)%N) with false; change ((123 =? 91)%N) with false.
  change ((123 =? 123)%N) with true; cbv iota.
  change (skip_ws ([NEWLINE] ++ js "  " ++ quoted (js "compilerOptions") ++ ?t))
    with (QUOTE :: js "compilerOptions" ++ QUOTE :: t).
  change ((QUOTE =? 125)%N) with false; cbv iota.
  rewrite Nat.add_succ_r, parse_members_unfold.
  change (skip_ws ([NEWLINE] ++ js "  " ++ quoted (js "compilerOptions") ++ ?t))
    with (QUOTE :: js "compilerOptions" ++ QUOTE :: t).
  change ((QUOTE =? QUOTE)%N) with true; cbv iota.
  rewrite parse_string_body_plain by reflexivity.
  change (skip_ws (js ": {" ++ ?t)) with (58%N :: js " {" ++ t).
  change ((58 =? 58)%N) with true; cbv iota.
  (* the object of compilerOptions *)
  rewrite Nat.add_succ_r, parse_value_unfold.
  change (skip_ws (js " {" ++ ?t)) with (123%N :: t).
  change ((123 =? QUOTE)%N) with false; change ((123 =? 91)%N) with false.
  change ((123 =? 123)%N) with true; cbv iota.
  change (skip_ws ([NEWLINE] ++ js "    " ++ quoted (js "paths") ++ ?t))
    with (QUOTE :: js "paths" ++ QUOTE :: t).
  change ((QUOTE =? 125)%N) with false; cbv iota.
  rewrite Nat.add_succ_r, parse_members_unfold.
  change (skip_ws ([NEWLINE] ++ js "    " ++ quoted (js "paths") ++ ?t))
    with (QUOTE :: js "paths" ++ QUOTE :: t).
  change ((QUOTE =? QUOTE)%N) with true; cbv iota.
  rewrite parse_string_body_plain by reflexivity.
  change (skip_ws (js ": {" ++ ?t)) with (58%N :: js " {" ++ t).
  change ((58 =? 58)%N) with true; cbv iota.
  change (js " {" ++ [NEWLINE] ++ ?t) with ([32%N] ++ 123%N :: [NEWLINE] ++ t).
  rewrite (parse_value_paths bound members _ _ Hall) by lia.
  change (skip_ws ([NEWLINE] ++ js "  }" ++ ?t)) with (125%N :: t).
  change ((125 =? COMMA)%N) with false; change ((125 =? 125)%N) with true.
  cbv iota.
  change (skip_ws ([NEWLINE] ++ js "}" ++ ?t)) with (125%N :: t).
  change ((125 =? COMMA)%N) with false; change ((125 =? 125)%N) with true.
  cbv iota.
  reflexivity.
Qed.

(* ================================================================== *)
(** ** Relative and absolute forms of a path *)

Lemma split_slash_nonempty s : split_slash s <> [].
Proof.
  destruct s as [|c r]; simpl; [discriminate|].
  destruct (is_slash c); [discriminate|].
  destruct (split_slash r); discriminate.
Qed.

Lemma split_slash_app a b :
  split_slash (a ++ SLASH :: b) = split_slash a ++ split_slash b.
Proof.
  induction a as [|c a IH]; simpl; [reflexivity|].
  destruct (is_slash c); [rewrite IH; reflexivity|].
  rewrite IH.
  pose proof (split_slash_nonempty a) as H.
  destruct (split_slash a); [contradiction | reflexivity].
Qed.

Lemma split_slash_plain s : existsb is_slash s = false -> split_slash s = [s].
Proof.
  induction s as [|c s IH]; simpl; [reflexivity|].
  intros H; apply orb_false_iff in H as [-> H].
  rewrite IH by exact H; reflexivity.
Qed.

Lemma split_slash_join segs :
  segs <> [] -> Forall (fun seg => existsb is_slash seg = false) segs ->
  split_slash (join path_sep segs) = segs.
Proof.
  induction 2 as [|seg segs Hseg Hall IH]; [contradiction|].
  destruct segs as [|seg' segs].
  - simpl; apply split_slash_plain; exact Hseg.
  - change (join path_sep (seg :: seg' :: segs))
      with (seg ++ SLASH :: join path_sep (seg' :: segs)).
    rewrite split_slash_app, split_slash_plain, IH by (discriminate || assumption).
    reflexivity.
Qed.

Lemma is_segment_spec seg :
  is_segment seg = true ->
  str_eqb seg [] = false /\ str_eqb seg [DOT] = false
  /\ str_eqb seg [DOT; DOT] = false /\ existsb is_slash seg = false.
Proof.
  unfold is_segment; rewrite !andb_true_iff, !negb_true_iff; tauto.
Qed.

Lemma segments_plain segs :
  forallb is_segment segs = true ->
  Forall (fun seg => existsb is_slash seg = false) segs.
Proof.
  intros H; apply Forall_forall; intros seg Hin.
  rewrite forallb_forall in H; apply is_segment_spec; auto.
Qed.

(** Normalization goes through the segments of a joined list as through
    the list. *)
Lemma normalize_joined segs stack :
  Forall (fun seg => existsb is_slash seg = false) segs ->
  fold_left normalize_step (split_slash (join path_sep segs)) stack
  = fold_left normalize_step segs stack.
Proof.
  intros H; destruct segs as [|seg segs]; [reflexivity|].
  rewrite split_slash_join by (discriminate || exact H); reflexivity.
Qed.

Lemma normalize_segments_push segs stack :
  forallb is_segment segs = true ->
  fold_left normalize_step segs stack = rev segs ++ stack.
Proof.
  revert stack; induction segs as [|seg segs IH]; intros stack; simpl;
    [reflexivity|].
  intros H; apply andb_true_iff in H as [Hseg H].
  apply is_segment_spec in Hseg as (H1 & H2 & H3 & _).
  unfold normalize_step at 2; rewrite H1, H2, H3; simpl.
  rewrite IH by exact H; rewrite <- app_assoc; reflexivity.
Qed.

Lemma normalize_segments_pop n stack :
  fold_left normalize_step (repeat [DOT; DOT] n) stack = skipn n stack.
Proof.
  revert stack; induction n as [|n IH]; intros stack; simpl; [reflexivity|].
  rewrite IH; destruct stack; [destruct n|]; reflexivity.
Qed.

Lemma common_prefix_firstn a b :
  firstn (common_prefix_length a b) a = firstn (common_prefix_length a b) b
  /\ common_prefix_length a b <= List.length a.
Proof.
  revert b; induction a as [|x a IH]; intros [|y b]; simpl;
    try (split; [reflexivity | lia]).
  destruct (str_eqb x y) eqn:E; [|split; [reflexivity | lia]].
  apply str_eqb_eq in E; subst y.
  destruct (IH b) as [H1 H2]; simpl; rewrite H1; split; [reflexivity | lia].
Qed.

Lemma path_segments_joined segs :
  forallb is_segment segs = true ->
  path_segments (SLASH :: join path_sep segs) = segs.
Proof.
  intros H; unfold path_segments; simpl.
  destruct segs as [|seg segs]; [reflexivity|].
  rewrite split_slash_join by (discriminate || apply segments_plain; exact H).
  apply forallb_filter_id.
  rewrite forallb_forall in *; intros x Hx.
  apply H, is_segment_spec in Hx as [-> _]; reflexivity.
Qed.

Lemma normalAbsolute_spec p :
  normalAbsolute p = true ->
  exists segs, p = SLASH :: join path_sep segs
               /\ forallb is_segment segs = true.
Proof.
  unfold normalAbsolute; intros H; apply andb_true_iff in H as [H1 H2].
  apply str_eqb_eq in H1; eauto.
Qed.

Section Paths.

Variable CWD : list jsstring.

(** [path.resolve(p)] of an absolute, normalized path. *)
Lemma path_resolve_normal segs :
  forallb is_segment segs = true ->
  path_resolve CWD [SLASH :: join path_sep segs]
  = SLASH :: join path_sep segs.
Proof.
  intros H; unfold path_resolve; simpl.
  rewrite split_slash_app; unfold normalize_segments.
  change (fold_left normalize_step
            ([] :: split_slash (join path_sep segs) ++ split_slash []) [])
    with (fold_left normalize_step
            (split_slash (join path_sep segs) ++ split_slash []) []).
  rewrite fold_left_app, normalize_joined by (apply segments_plain; exact H).
  rewrite (normalize_segments_push segs []) by exact H.
  simpl; unfold normalize_step; simpl.
  rewrite app_nil_r, rev_involutive; reflexivity.
Qed.

(** [path.relative] between two absolute, normalized paths. *)
Lemma path_relative_normal from to :
  forallb is_segment from = true -> forallb is_segment to = true ->
  exists n,
    path_relative CWD (SLASH :: join path_sep from) (SLASH :: join path_sep to)
    = join path_sep
        (repeat [DOT; DOT] (List.length from - n) ++ skipn n to)
    /\ firstn n from = firstn n to /\ n <= List.length from.
Proof.
  intros Hf Ht; unfold path_relative.
  rewrite !path_resolve_normal, !path_segments_joined by assumption.
  destruct (common_prefix_firstn from to) as [H1 H2].
  destruct (str_eqb _ _) eqn:E.
  - apply str_eqb_eq in E.
    assert (from = to).
    { apply (f_equal path_segments) in E.
      rewrite !path_segments_joined in E by assumption; exact E. }
    subst to; exists (List.length from).
    rewrite Nat.sub_diag, skipn_all; simpl; auto.
  - exists (common_prefix_length from to); auto.
Qed.

(** Resolving the relative form of a path against the base gives the path
    back. *)
Lemma resolve_relative base to :
  forallb is_segment base = true -> forallb is_segment to = true ->
  path_resolve CWD
    [SLASH :: join path_sep base;
     [DOT] ++ path_sep
     ++ path_relative CWD (SLASH :: join path_sep base)
          (SLASH :: join path_sep to)]
  = SLASH :: join path_sep to.
Proof.
  intros Hb Ht.
  destruct (path_relative_normal base to Hb Ht) as (n & -> & Hn & Hle).
  set (climb := repeat [DOT; DOT] (List.length base - n)).
  unfold path_resolve; simpl rev; simpl app.
  unfold resolve_collect; simpl is_slash; cbv iota.
  assert (Hplain : Forall (fun seg => existsb is_slash seg = false)
                     (climb ++ skipn n to)).
  { apply Forall_app; split.
    - apply Forall_forall; intros x Hx.
      apply repeat_spec in Hx; subst x; reflexivity.
    - apply Forall_forall; intros x Hx.
      assert (Hin : In x to) by (rewrite <- (firstn_skipn n to);
                                 apply in_or_app; right; exact Hx).
      rewrite forallb_forall in Ht.
      apply Ht, is_segment_spec in Hin; tauto. }
  replace ((SLASH :: join path_sep base) ++ path_sep
           ++ (DOT :: SLASH :: join path_sep (climb ++ skipn n to))
           ++ path_sep ++ [])
    with ((SLASH :: join path_sep base) ++ SLASH
          :: [DOT] ++ SLASH :: join path_sep (climb ++ skipn n to)
          ++ SLASH :: [])
    by (simpl; rewrite <- ?app_assoc; reflexivity).
  rewrite !split_slash_app.
  unfold normalize_segments.
  change (split_slash (SLASH :: join path_sep base))
    with ([] :: split_slash (join path_sep base)).
  simpl fold_left.
  change (normalize_step [] []) with (@nil jsstring).
  rewrite fold_left_app.
  rewrite (normalize_joined base) by (apply segments_plain; exact Hb).
  rewrite (normalize_segments_push base) by exact Hb.
  change (fold_left normalize_step ([DOT] :: ?l) ?st)
    with (fold_left normalize_step l st).
  rewrite fold_left_app.
  rewrite (normalize_joined (climb ++ skipn n to)) by exact Hplain.
  rewrite fold_left_app.
  unfold climb; rewrite normalize_segments_pop.
  assert (Hto : forallb is_segment (skipn n to) = true).
  { rewrite forallb_forall in *; intros x Hx; apply Ht.
    rewrite <- (firstn_skipn n to); apply in_or_app; right; exact Hx. }
  rewrite (normalize_segments_push (skipn n to)) by exact Hto.
  change (fold_left normalize_step [[]] ?st) with st.
  rewrite app_nil_r, skipn_rev.
  replace (List.length base - (List.length base - n)) with n by lia.
  rewrite rev_app_distr, !rev_involutive, Hn, firstn_skipn.
  reflexivity.
Qed.

End Paths.

(* ================================================================== *)
(** ** The text of a registry, member by member *)

Lemma join_lines_before sep lines post :
  post <> [] ->
  join sep (lines ++ post)
  = concat (map (fun l => l ++ sep) lines) ++ join sep post.
Proof.
  intros Hpost; induction lines as [|l lines IH]; [reflexivity|].
  simpl app.
  destruct (lines ++ post) as [|x rest] eqn:E.
  - apply app_eq_nil in E as [_ E]; contradiction.
  - change (join sep (l :: x :: rest)) with (l ++ sep ++ join sep (x :: rest)).
    rewrite IH; simpl; rewrite <- !app_assoc; reflexivity.
Qed.

Lemma fileText_lines lines :
  fileText lines
  = js "{" ++ [NEWLINE]
    ++ js "  " ++ quoted (js "compilerOptions") ++ js ": {" ++ [NEWLINE]
    ++ js "    " ++ quoted (js "paths") ++ js ": {" ++ [NEWLINE]
    ++ concat (map (fun l => l ++ [NEWLINE]) lines)
    ++ js "    }" ++ [NEWLINE] ++ js "  }" ++ [NEWLINE] ++ js "}" ++ [NEWLINE].
Proof.
  unfold fileText.
  assert (H : join [NEWLINE] (lines ++ [js "    }"; js "  }"; js "}"; []])
              = concat (map (fun l => l ++ [NEWLINE]) lines)
                ++ js "    }" ++ [NEWLINE] ++ js "  }" ++ [NEWLINE]
                ++ js "}" ++ [NEWLINE])
    by (rewrite join_lines_before by discriminate; reflexivity).
  rewrite <- H.
  destruct (lines ++ [js "    }"; js "  }"; js "}"; []]) eqn:E;
    [apply app_eq_nil in E as [_ E]; discriminate|].
  simpl app; rewrite !join_cons2.
  rewrite <- ?app_assoc; reflexivity.
Qed.

Section Text.

Variables (DIR CWD : list jsstring).

Lemma lineOf_memberLine fileMap count name i :
  lineOf DIR CWD fileMap count name i
  = memberLine (memberOf DIR CWD fileMap name) (i =? count - 1)%nat.
Proof.
  unfold lineOf, memberLine, memberOf, valuesOf, relativePathQuoted; simpl.
  rewrite map_map; reflexivity.
Qed.

Lemma lines_membersText fileMap count names :
  forall i, i + List.length names = count ->
    concat (map (fun l => l ++ [NEWLINE])
              (mapi_from i (lineOf DIR CWD fileMap count) names))
    = membersText (map (memberOf DIR CWD fileMap) names).
Proof.
  induction names as [|name names IH]; intros i Hi; [reflexivity|].
  cbn [mapi_from map concat].
  rewrite lineOf_memberLine.
  destruct names as [|name' names].
  - replace (i =? count - 1)%nat with true
      by (symmetry; apply Nat.eqb_eq; simpl in Hi; lia).
    cbn [mapi_from map concat membersText]; rewrite app_nil_r; reflexivity.
  - replace (i =? count - 1)%nat with false
      by (symmetry; apply Nat.eqb_neq; simpl in Hi; lia).
    rewrite (IH (S i)) by (simpl in *; lia).
    cbn [map membersText]; rewrite <- app_assoc; reflexivity.
Qed.

(** The text written for a registry is the text of its members, taken in
    the order of the sorted names. *)
Lemma writeTsConfigPathsJSON_members fileMap :
  nonempty_sequences fileMap ->
  writeTsConfigPathsJSON DIR CWD fileMap
  = Normal (textOfMembers
              (map (memberOf DIR CWD fileMap) (importNames fileMap))).
Proof.
  intros Hne; rewrite writeTsConfigPathsJSON_registry by exact Hne.
  rewrite fileText_lines, lines_membersText by reflexivity.
  reflexivity.
Qed.

End Text.

(* ================================================================== *)
(** ** Reading the text of a registry back *)

Lemma plainText_app a b : plainText (a ++ b) = plainText a && plainText b.
Proof. apply forallb_app. Qed.

Lemma plainText_join segs :
  Forall (fun seg => plainText seg = true) segs ->
  plainText (join path_sep segs) = true.
Proof.
  induction 1 as [|seg segs Hseg Hall IH]; [reflexivity|].
  destruct segs as [|seg' segs]; [exact Hseg|].
  rewrite join_cons2, !plainText_app, Hseg, IH; reflexivity.
Qed.

Lemma plainText_segments segs :
  plainText (join path_sep segs) = true ->
  Forall (fun seg => plainText seg = true) segs.
Proof.
  induction segs as [|seg segs IH]; [constructor|].
  destruct segs as [|seg' segs]; [intros H; repeat constructor; exact H|].
  rewrite join_cons2, !plainText_app, !andb_true_iff.
  intros (H1 & _ & H2); constructor; auto.
Qed.

Lemma perm_own_get {V} (a b : list (jsstring * V)) :
  Permutation a b -> wf_object b -> forall k, own_get a k = own_get b k.
Proof.
  intros Hperm Hwf k.
  assert (Hwfa : wf_object a).
  { unfold wf_object in *.
    apply (Permutation_NoDup (l := map fst b)); [|exact Hwf].
    apply Permutation_map, Permutation_sym; exact Hperm. }
  destruct (own_get b k) as [v|] eqn:E.
  - apply in_own_get; [exact Hwfa|].
    apply own_get_in in E.
    apply (Permutation_in _ (Permutation_sym Hperm)); exact E.
  - apply own_get_none_iff; apply own_get_none_iff in E.
    intros Hin; apply E.
    apply (Permutation_in _ (Permutation_map fst Hperm)); exact Hin.
Qed.

Lemma fold_define_fresh {V} (members acc : list (jsstring * V)) :
  NoDup (map fst members) ->
  (forall m, In m members -> own_get acc (fst m) = None) ->
  fold_left (fun o m => obj_define o (fst m) (snd m)) members acc
  = acc ++ members.
Proof.
  revert acc; induction members as [|[k v] members IH]; intros acc Hnd Hfresh;
    simpl; [rewrite app_nil_r; reflexivity|].
  inversion Hnd as [|? ? Hnot Hnd']; subst.
  pose proof (Hfresh (k, v) (or_introl eq_refl)) as Hk; simpl in Hk.
  unfold obj_define at 2, has_own; rewrite Hk.
  rewrite IH; [rewrite <- app_assoc; reflexivity | exact Hnd' |].
  intros m Hm; rewrite own_get_app.
  rewrite (Hfresh m (or_intror Hm)); simpl.
  rewrite str_eqb_neq; [reflexivity|]; intros ->.
  apply Hnot, in_map; exact Hm.
Qed.

Section Reader.

Variables (DIR CWD : list jsstring).
Hypothesis DIR_normal : forallb is_segment DIR = true.

Lemma relativeForm_resolves p :
  normalAbsolute p = true ->
  path_resolve CWD [DIR_NAME DIR; relativeForm DIR CWD p] = p.
Proof.
  intros Hp; apply normalAbsolute_spec in Hp as (to & -> & Hto).
  apply resolve_relative; assumption.
Qed.

Lemma relativeForm_plain p :
  normalAbsolute p = true -> plainText p = true ->
  plainText (relativeForm DIR CWD p) = true.
Proof.
  intros Hp Hplain; apply normalAbsolute_spec in Hp as (to & -> & Hto).
  unfold relativeForm, DIR_NAME.
  destruct (path_relative_normal CWD DIR to DIR_normal Hto) as (n & -> & _).
  change (plainText ([DOT] ++ path_sep ++ ?t)) with (plainText t).
  apply plainText_join, Forall_app; split.
  - apply Forall_forall; intros x Hx.
    apply repeat_spec in Hx; subst x; reflexivity.
  - change (plainText (SLASH :: ?t)) with (plainText t) in Hplain.
    apply plainText_segments in Hplain.
    apply Forall_forall; intros x Hx.
    rewrite Forall_forall in Hplain; apply Hplain.
    rewrite <- (firstn_skipn n to); apply in_or_app; right; exact Hx.
Qed.

(** The array written for a sequence resolves to the sequence. *)
Lemma resolveAll_relativeForms values :
  Forall (fun p => normalAbsolute p = true) values ->
  resolveAll DIR CWD (arrayOfStrings (map (relativeForm DIR CWD) values))
  = Normal values.
Proof.
  unfold resolveAll, arrayOfStrings.
  induction 1 as [|p values Hp Hall IH]; [reflexivity|].
  simpl; rewrite relativeForm_resolves by exact Hp; simpl.
  simpl in IH; rewrite IH; reflexivity.
Qed.

(** [reduce] over entries with new, distinct keys appends one property
    per entry. *)
Lemma reduceEntries_fresh (resolved : jsstring * JSONValue -> list jsstring)
  entries :
  NoDup (map fst entries) ->
  (forall e, In e entries ->
     fst e <> proto_key
     /\ resolveAll DIR CWD (snd e) = Normal (resolved e)) ->
  forall acc,
    (forall e, In e entries -> own_get acc (fst e) = None) ->
    reduceEntries DIR CWD entries acc
    = Normal (acc ++ map (fun e => (fst e, resolved e)) entries).
Proof.
  induction entries as [|[k v] entries IH]; intros Hnd Hall acc Hfresh;
    simpl; [rewrite app_nil_r; reflexivity|].
  inversion Hnd as [|? ? Hnot Hnd']; subst.
  destruct (Hall (k, v) (or_introl eq_refl)) as [Hk Hv]; simpl in Hk, Hv.
  rewrite Hv; simpl.
  pose proof (Hfresh (k, v) (or_introl eq_refl)) as Hk'; simpl in Hk'.
  unfold obj_set, has_own; rewrite Hk', (str_eqb_neq _ _ Hk).
  rewrite IH; [rewrite <- app_assoc; reflexivity | exact Hnd' | |].
  - intros e He; apply Hall; right; exact He.
  - intros e He; rewrite own_get_app.
    rewrite (Hfresh e (or_intror He)); simpl.
    rewrite str_eqb_neq; [reflexivity|]; intros ->.
    apply Hnot, in_map; exact He.
Qed.

Lemma valuesOf_in fileMap k l :
  wf_object fileMap -> In (k, l) fileMap -> valuesOf fileMap k = l.
Proof.
  intros Hwf Hin; unfold valuesOf.
  rewrite (in_own_get _ _ _ Hwf Hin); reflexivity.
Qed.

Lemma importNames_in fileMap name :
  In name (importNames fileMap) ->
  In (name, valuesOf fileMap name) fileMap.
Proof.
  intros H; apply importNames_own in H.
  unfold has_own, valuesOf in *.
  destruct (own_get fileMap name) eqn:E; [|discriminate].
  apply own_get_in; exact E.
Qed.

Lemma registry_members_plain fileMap :
  Registry fileMap -> readable fileMap ->
  Forall (plainMember
            (list_max (map (fun kv => List.length (snd kv)) fileMap)))
    (map (memberOf DIR CWD fileMap) (importNames fileMap)).
Proof.
  intros [Hwf Hne] Hread.
  apply Forall_forall; intros m Hm.
  apply in_map_iff in Hm as (name & <- & Hname).
  apply importNames_in in Hname as Hin.
  destruct (Hread _ _ Hin) as (Hk & _ & Hpaths).
  unfold plainMember, memberOf; simpl.
  split; [exact Hk|]; split; [|split].
  - intros E; apply map_eq_nil in E.
    apply (Hne name (valuesOf fileMap name)); [|exact E].
    apply in_own_get; assumption.
  - rewrite length_map.
    pose proof (proj1 (list_max_le
                         (map (fun kv => List.length (snd kv)) fileMap) _)
                  (Nat.le_refl _)) as Hmax.
    rewrite Forall_forall in Hmax; apply Hmax.
    apply in_map_iff; exists (name, valuesOf fileMap name); auto.
  - apply Forall_forall; intros s Hs.
    apply in_map_iff in Hs as (p & <- & Hp).
    rewrite Forall_forall in Hpaths; destruct (Hpaths p Hp).
    apply relativeForm_plain; assumption.
Qed.

(** Writing a readable registry and reading the text back. *)
Lemma read_back fileMap :
  Registry fileMap -> readable fileMap ->
  exists text fileMap',
    writeTsConfigPathsJSON DIR CWD fileMap = Normal text
    /\ tsConfigPathsToFileMap DIR CWD text = Normal fileMap'
    /\ Permutation fileMap' fileMap.
Proof.
  intros HR Hread; pose proof HR as [Hwf Hne].
  set (members := map (memberOf DIR CWD fileMap) (importNames fileMap)).
  set (entries := Object_entries (map memberValue members)).
  exists (textOfMembers members),
         (map (fun e => (fst e, valuesOf fileMap (fst e))) entries).
  split; [apply writeTsConfigPathsJSON_members; exact Hne|].
  assert (Hkeys : map fst (map memberValue members) = importNames fileMap).
  { unfold members; rewrite !map_map; apply map_id. }
  assert (Hnd : NoDup (importNames fileMap)).
  { apply (Permutation_NoDup (l := map fst fileMap)); [|exact Hwf].
    apply Permutation_sym, importNames_perm. }
  split.
  - unfold tsConfigPathsToFileMap.
    rewrite (JSON_parse_textOfMembers _ members
               (registry_members_plain fileMap HR Hread)).
    unfold object_of_members.
    rewrite fold_define_fresh
      by (first [rewrite Hkeys; exact Hnd | intros; reflexivity]).
    change (bind (Normal ?v) ?k) with (k v); cbv beta.
    change (getMember (Some (JObject [(js "compilerOptions", ?x)]))
              (js "compilerOptions")) with (Normal (Some x)).
    change (bind (Normal ?v) ?k) with (k v); cbv beta.
    change (getMember (Some (JObject [(js "paths", ?x)])) (js "paths"))
      with (Normal (Some x)).
    change (bind (Normal ?v) ?k) with (k v); cbv beta.
    simpl app; unfold entries_of_value.
    change (bind (Normal ?v) ?k) with (k v); cbv beta.
    fold entries.
    rewrite (reduceEntries_fresh
               (fun e => valuesOf fileMap (fst e)) entries);
      [reflexivity | | | reflexivity].
    + apply (Permutation_NoDup (l := importNames fileMap)); [|exact Hnd].
      rewrite <- Hkeys; apply Permutation_sym, Permutation_map.
      apply Object_entries_perm.
    + intros e He.
      apply (Permutation_in _ (Object_entries_perm _)) in He.
      apply in_map_iff in He as (m & <- & Hm).
      apply in_map_iff in Hm as (name & <- & Hname).
      apply importNames_in in Hname.
      destruct (Hread _ _ Hname) as (_ & Hk & Hpaths).
      split; [exact Hk|]; simpl.
      apply resolveAll_relativeForms.
      eapply Forall_impl; [|exact Hpaths]; intros p [Hp _]; exact Hp.
  - eapply perm_trans;
      [apply Permutation_map, Object_entries_perm|].
    unfold members; rewrite !map_map; simpl.
    eapply perm_trans;
      [apply Permutation_map, importNames_perm|].
    rewrite map_map.
    rewrite (map_ext_in _ (fun kv => kv)), map_id; [apply Permutation_refl|].
    intros [k l] Hin; simpl.
    rewrite (valuesOf_in _ _ _ Hwf Hin); reflexivity.
Qed.

End Reader.

Lemma readableb_spec fileMap : readableb fileMap = true -> readable fileMap.
Proof.
  unfold readableb, readable; intros H k l Hin.
  rewrite forallb_forall in H; apply H in Hin; simpl in Hin.
  apply andb_true_iff in Hin as [Hin Hl].
  apply andb_true_iff in Hin as [Hk Hp].
  split; [exact Hk|]; split.
  - apply negb_true_iff in Hp; apply str_eqb_false; exact Hp.
  - apply Forall_forall; intros p Hpl.
    rewrite forallb_forall in Hl; apply Hl in Hpl.
    apply andb_true_iff in Hpl; exact Hpl.
Qed.

(** C1, as stated, fails: the writer copies keys and paths into the text
    without escaping. The text written for a file whose name holds a double
    quote is not JSON, and reading it back throws; in the text written for
    a file whose name holds a backslash, the backslash and the letter after
    it are read back as one escaped character, so the registry read back
    has another key and lacks the key of the file. *)
Lemma round_trip_fails_on_quote :
  (Registry Sample.quoteModule
   /\ map fst Sample.quoteModule = [js "a" ++ [QUOTE] ++ js "b"]
   /\ bind (writeTsConfigPathsJSON Sample.dir Sample.cwd Sample.quoteModule)
        (tsConfigPathsToFileMap Sample.dir Sample.cwd)
      = Throw SyntaxError)
  /\ (Registry Sample.backslashModule
      /\ map fst Sample.backslashModule = [js "a" ++ [BACKSLASH] ++ js "b"]
      /\ exists fileMap',
           bind (writeTsConfigPathsJSON Sample.dir Sample.cwd
                   Sample.backslashModule)
             (tsConfigPathsToFileMap Sample.dir Sample.cwd)
           = Normal fileMap'
           /\ map fst fileMap' = [js "a" ++ [8%N]]
           /\ own_get fileMap' (js "a" ++ [BACKSLASH] ++ js "b") = None).
Proof.
  split.
  - split; [apply Registry_after, Registry_empty|].
    split; vm_compute; reflexivity.
  - split; [apply Registry_after, Registry_empty|].
    split; [vm_compute; reflexivity|].
    eexists; split; [vm_compute; reflexivity|].
    split; vm_compute; reflexivity.
Qed.

(** C1, amended. For a registry whose keys and paths hold no double quote,
    backslash or control character, whose keys are not [__proto__] and
    whose paths are absolute and normalized, with the base directory
    absolute and normalized too, reading back the text written for the
    registry gives a registry with the same keys and, for each key, the
    same paths in the same order. *)
Theorem persisted_round_trip :
  forall DIR CWD fileMap,
    forallb is_segment DIR = true ->
    Registry fileMap ->
    readable fileMap ->
    exists text fileMap',
      writeTsConfigPathsJSON DIR CWD fileMap = Normal text
      /\ tsConfigPathsToFileMap DIR CWD text = Normal fileMap'
      /\ Permutation fileMap' fileMap
      /\ forall k, own_get fileMap' k = own_get fileMap k.
Proof.
  intros DIR CWD fileMap HD HR Hread.
  destruct (read_back DIR CWD HD fileMap HR Hread)
    as (text & fileMap' & Hw & Hr & Hperm).
  exists text, fileMap'; repeat split; try assumption.
  apply perm_own_get; [exact Hperm | apply HR].
Qed.

Lemma persisted_round_trip_witness :
  exists text fileMap',
    writeTsConfigPathsJSON Sample.dir Sample.cwd Sample.mixed = Normal text
    /\ tsConfigPathsToFileMap Sample.dir Sample.cwd text = Normal fileMap'
    /\ Permutation fileMap' Sample.mixed
    /\ forall k, own_get fileMap' k = own_get Sample.mixed k.
Proof.
  apply persisted_round_trip.
  - reflexivity.
  - unfold Sample.mixed; simpl fold_left.
    repeat apply Registry_after; apply Registry_empty.
  - apply readableb_spec; vm_compute; reflexivity.
Defined.

(* ================================================================== *)
(** ** The report with at least one duplicate *)

Lemma removeAnsi_scan_prefix pre s :
  ~ In ESC pre ->
  removeAnsi_scan false (pre ++ s) = pre ++ removeAnsi_scan false s.
Proof.
  induction pre as [|c pre IH]; intros Hpre; [reflexivity|].
  assert (Hc : (c =? ESC)%N = false)
    by (apply N.eqb_neq; intros ->; apply Hpre; left; reflexivity).
  assert (Hrest : ~ In ESC pre) by (intros H; apply Hpre; right; exact H).
  specialize (IH Hrest).
  change ((c :: pre) ++ s) with (c :: (pre ++ s)).
  change ((c :: pre) ++ removeAnsi_scan false s)
    with (c :: (pre ++ removeAnsi_scan false s)).
  rewrite <- IH.
  destruct (pre ++ s) as [|c2 r] eqn:E; [reflexivity|].
  change (removeAnsi_scan false (c :: c2 :: r))
    with (if (c =? ESC)%N && (c2 =? 91)%N && reaches_m r
          then removeAnsi_scan true r
          else c :: removeAnsi_scan false (c2 :: r)).
  rewrite Hc; reflexivity.
Qed.

Lemma digits_fuel_no_escape fuel n acc :
  ~ In ESC acc -> ~ In ESC (digits_fuel fuel n acc).
Proof.
  revert n acc; induction fuel as [|fuel IH]; intros n acc Hacc; simpl;
    [exact Hacc|].
  assert (H : ~ In ESC ((48 + n mod 10)%N :: acc)).
  { intros [E|E]; [|contradiction].
    unfold ESC in E; remember (n mod 10)%N as d; lia. }
  destruct (n <? 10)%N; [exact H | apply IH; exact H].
Qed.

Lemma getMaxLengthNoAnsi_ge textArr line :
  In line textArr ->
  List.length (removeAnsiChars line) <= getMaxLengthNoAnsi textArr.
Proof.
  unfold getMaxLengthNoAnsi.
  assert (Hmono : forall l init,
             init <= fold_left
                       (fun len x =>
                          Nat.max len (List.length (removeAnsiChars x)))
                       l init).
  { induction l as [|y l IH]; intros init; simpl; [lia|].
    specialize (IH (Nat.max init (List.length (removeAnsiChars y)))); lia. }
  generalize 0%nat.
  induction textArr as [|x textArr IH]; intros init Hin; [destruct Hin|].
  destruct Hin as [->|Hin]; simpl.
  - specialize (Hmono textArr
                  (Nat.max init (List.length (removeAnsiChars line)))); lia.
  - apply IH; exact Hin.
Qed.

Section Report.

Variables (DIR CWD : list jsstring).

(** The first line written for a duplicate is wider than the header. *)
Lemma moduleLines_wide dup :
  exists line,
    In line (moduleLines DIR CWD dup)
    /\ List.length header < List.length (removeAnsiChars line).
Proof.
  destruct dup as [name absolutePaths]; eexists; split;
    [left; reflexivity|].
  unfold chalk, removeAnsiChars.
  set (count := String_of_N (N.of_nat (List.length absolutePaths))).
  replace (count ++ js " " ++ js "paths are associated with the module"
           ++ js " " ++ name ++ js ":")
    with ((count ++ js " paths are associated with the module ")
          ++ name ++ js ":")
    by (rewrite <- app_assoc; reflexivity).
  rewrite removeAnsi_scan_prefix.
  - rewrite !length_app; simpl; lia.
  - intros H; apply in_app_or in H as [H|H].
    + revert H; apply digits_fuel_no_escape; intros [].
    + vm_compute in H; repeat destruct H as [H|H]; try discriminate H.
      exact H.
Qed.

Lemma logMultipleModuleWarnings_returns duplicates :
  duplicates <> [] ->
  exists console,
    logMultipleModuleWarnings DIR CWD duplicates = (console, Normal tt).
Proof.
  intros Hne; unfold logMultipleModuleWarnings; cbv zeta.
  set (textArr := flat_map (moduleLines DIR CWD) duplicates).
  assert (Hwide : List.length header < getMaxLengthNoAnsi textArr).
  { destruct duplicates as [|dup duplicates]; [contradiction|].
    destruct (moduleLines_wide dup) as (line & Hin & Hlen).
    eapply Nat.lt_le_trans; [exact Hlen|].
    apply getMaxLengthNoAnsi_ge; unfold textArr; simpl.
    apply in_or_app; left; exact Hin. }
  set (room := (Z.of_nat (getMaxLengthNoAnsi textArr)
                - Z.of_nat (List.length header))%Z).
  assert (Hroom : (0 <= room)%Z) by (unfold room; lia).
  unfold spaces.
  replace (room / 2 <? 0)%Z with false
    by (symmetry; apply Z.ltb_ge, Z.div_pos; lia).
  replace (- (- room / 2) <? 0)%Z with false.
  - simpl; eauto.
  - symmetry; apply Z.ltb_ge.
    assert (- room / 2 <= 0)%Z; [|lia].
    apply Z.div_le_upper_bound; lia.
Qed.

(** With a duplicate in the registry the alias list is returned, as it
    was built before the report. *)
Lemma createViteAliasMap_with_duplicates fileMap :
  duplicatesOf fileMap <> [] ->
  exists console,
    createViteAliasMap DIR CWD fileMap
    = (console, Normal (aliasMapOf fileMap)).
Proof.
  intros H; unfold createViteAliasMap; cbv zeta.
  destruct (logMultipleModuleWarnings_returns _ H) as [console ->].
  exists console; reflexivity.
Qed.

End Report.

(** The alias list follows the order in which the keys of the object are
    enumerated, which is not the order of insertion when a key is an array
    index. [App] was added before [404]; the entry of [404] comes first. *)
Lemma alias_order_is_not_insertion_order :
  map fst Sample.mixed = [js "App"; js "404"]
  /\ exists console aliasMap,
       createViteAliasMap Sample.dir Sample.cwd Sample.mixed
       = (console, Normal aliasMap)
       /\ map find aliasMap = [js "404"; js "App"].
Proof.
  split; [reflexivity|].
  destruct (createViteAliasMap_with_duplicates Sample.dir Sample.cwd
              Sample.mixed) as [console H]; [vm_compute; discriminate|].
  exists console, (aliasMapOf Sample.mixed); split; [exact H | reflexivity].
Qed.

(** What the projection does when it returns. For a registry in which some
    key has more than one path, it gives one entry per key, in the order in which the own
    keys are enumerated (array-index keys in ascending numeric order, then
    the other keys in insertion order; so insertion order when no key is an
    array index), each with the first path of its key as replacement.
    The duplicates are the entries with more than one path, and the alias
    list returned is the one built before they are reported. *)
Theorem alias_projection :
  forall DIR CWD fileMap,
    Registry fileMap ->
    (exists k l, In (k, l) fileMap /\ 1 < List.length l) ->
    exists console,
      createViteAliasMap DIR CWD fileMap
      = (console, Normal (aliasMapOf fileMap))
      /\ map find (aliasMapOf fileMap) = Object_keys fileMap
      /\ Permutation (Object_keys fileMap) (map fst fileMap)
      /\ ((forall kv, In kv fileMap -> array_index (fst kv) = None) ->
          map find (aliasMapOf fileMap) = map fst fileMap)
      /\ (forall entry, In entry (aliasMapOf fileMap) ->
            exists first rest,
              own_get fileMap (find entry) = Some (first :: rest)
              /\ replacement entry = Some first)
      /\ (forall k l, In (k, l) (duplicatesOf fileMap)
                      <-> In (k, l) fileMap /\ 1 < List.length l).
Proof.
  intros DIR CWD fileMap [Hwf Hne] (k0 & l0 & Hin0 & Hlen0).
  assert (Hdup : forall k l, In (k, l) (duplicatesOf fileMap)
                             <-> In (k, l) fileMap /\ 1 < List.length l).
  { intros k l; unfold duplicatesOf, isDuplicate.
    rewrite filter_In; simpl; rewrite Nat.ltb_lt.
    split; intros [H1 H2]; (split; [|exact H2]).
    - apply (Permutation_in _ (Object_entries_perm fileMap)); exact H1.
    - apply (Permutation_in _ (Permutation_sym (Object_entries_perm fileMap)));
        exact H1. }
  destruct (createViteAliasMap_with_duplicates DIR CWD fileMap)
    as [console Hc].
  { intros E; pose proof (proj2 (Hdup k0 l0) (conj Hin0 Hlen0)) as H.
    rewrite E in H; destruct H. }
  exists console; split; [exact Hc|].
  assert (Hfind : map find (aliasMapOf fileMap) = Object_keys fileMap)
    by (unfold aliasMapOf, Object_keys; rewrite map_map; reflexivity).
  split; [exact Hfind|].
  split; [apply Object_keys_perm|].
  split.
  { intros Hnone; rewrite Hfind; unfold Object_keys.
    rewrite Object_entries_creation_order by exact Hnone; reflexivity. }
  split; [|exact Hdup].
  intros entry Hentry; unfold aliasMapOf in Hentry.
  apply in_map_iff in Hentry as ([k l] & <- & He).
  apply (Permutation_in _ (Object_entries_perm fileMap)) in He.
  pose proof (in_own_get _ _ _ Hwf He) as Hget.
  destruct l as [|first rest]; [exfalso; apply (Hne _ _ Hget); reflexivity|].
  exists first, rest; split; [exact Hget | reflexivity].
Qed.

Lemma alias_projection_witness :
  exists console,
    createViteAliasMap Sample.dir Sample.cwd Sample.mixed
    = (console,
       Normal [ {| find := js "404"; replacement := Some Sample.notFound |};
                {| find := js "App"; replacement := Some Sample.appA |} ]).
Proof.
  destruct (alias_projection Sample.dir Sample.cwd Sample.mixed)
    as (console & H & _).
  - unfold Sample.mixed; simpl fold_left.
    repeat apply Registry_after; apply Registry_empty.
  - exists (js "App"), [Sample.appA; Sample.appB]; split;
      [left; reflexivity | simpl; lia].
  - exists console; exact H.
Defined.

(* ================================================================== *)
(** * Further properties *)

(** ** The handler, event by event *)

Lemma inheritedKey_in k : inheritedKey k = true <-> In k Object_prototype_keys.
Proof.
  unfold inheritedKey; rewrite existsb_exists; split.
  - intros (x & Hx & E); apply str_eqb_eq in E; subst; exact Hx.
  - intros H; exists k; split; [exact H | apply str_eqb_refl].
Qed.

Lemma own_get_update_absent {V} (o : list (jsstring * V)) k k' v :
  own_get o k' = None -> own_get (own_update o k v) k' = None.
Proof.
  rewrite !own_get_none_iff, keys_own_update; auto.
Qed.

Lemma own_get_delete_absent {V} (o : list (jsstring * V)) k k' :
  own_get o k' = None -> own_get (obj_delete o k) k' = None.
Proof.
  rewrite !own_get_none_iff; intros H Hin; apply H.
  apply in_map_iff in Hin as (kv & <- & Hkv).
  apply filter_In in Hkv as [Hkv _]; apply in_map; exact Hkv.
Qed.

Section Handler.

Variables (DIR CWD : list jsstring).
Variable aliasArray : list CreateAliasInputType.

Lemma updateFileMap_rejects evt p fileMap :
  rejects evt (mapKeyOf p aliasArray) fileMap = true ->
  updateFileMap evt p fileMap aliasArray = Throw TypeError.
Proof.
  unfold rejects, updateFileMap, obj_get, inheritedKey.
  destruct (own_get fileMap (mapKeyOf p aliasArray)); [discriminate|].
  destruct evt.
  - intros ->; reflexivity.
  - intros _; destruct (existsb _ _); reflexivity.
Qed.

Lemma updateFileMap_accepts evt p fileMap :
  rejects evt (mapKeyOf p aliasArray) fileMap = false ->
  updateFileMap evt p fileMap aliasArray
  = Normal (after evt p aliasArray fileMap).
Proof.
  unfold rejects, after, updateFileMap, obj_get, inheritedKey.
  destruct (own_get fileMap (mapKeyOf p aliasArray)) as [l|].
  - intros _; destruct evt; [reflexivity|].
    destruct (filter _ l); reflexivity.
  - destruct evt; [intros ->; reflexivity | discriminate].
Qed.

Lemma processWatcherEvent_settles evt p fileMap :
  Registry fileMap ->
  (rejects evt (mapKeyOf p aliasArray) fileMap = true ->
   processWatcherEvent DIR CWD evt p fileMap aliasArray
   = (fileMap, Throw TypeError))
  /\ (rejects evt (mapKeyOf p aliasArray) fileMap = false ->
      exists text,
        processWatcherEvent DIR CWD evt p fileMap aliasArray
        = (after evt p aliasArray fileMap, Normal text)
        /\ writeTsConfigPathsJSON DIR CWD (after evt p aliasArray fileMap)
           = Normal text).
Proof.
  intros HR; split; intros H; unfold processWatcherEvent.
  - rewrite (updateFileMap_rejects _ _ _ H); reflexivity.
  - rewrite (updateFileMap_accepts _ _ _ H).
    pose proof (Registry_after evt p aliasArray fileMap HR) as [_ Hne].
    rewrite (writeTsConfigPathsJSON_registry DIR CWD _ Hne).
    eexists; split; reflexivity.
Qed.

(** X1. How the handler of an event settles on a registry. It is rejected,
    with a TypeError and before anything is written, exactly when the key
    of the path is not an own key and the event is [unlink] or the key
    names a member of [Object.prototype]; otherwise the registry is updated
    and its text is written. *)
Theorem handler_outcome :
  forall evt p fileMap,
    Registry fileMap ->
    (rejects evt (mapKeyOf p aliasArray) fileMap = true ->
     processWatcherEvent DIR CWD evt p fileMap aliasArray
     = (fileMap, Throw TypeError))
    /\ (rejects evt (mapKeyOf p aliasArray) fileMap = false ->
        exists text,
          processWatcherEvent DIR CWD evt p fileMap aliasArray
          = (after evt p aliasArray fileMap, Normal text)
          /\ writeTsConfigPathsJSON DIR CWD (after evt p aliasArray fileMap)
             = Normal text).
Proof. intros evt p fileMap; apply processWatcherEvent_settles. Qed.

(** X2. What [add] leaves under the key of the path: the old sequence with
    the path appended, a new sequence of the path alone, or nothing when
    the key names an inherited member. The first path of a key that was
    present is still first. *)
Theorem add_appends :
  forall p fileMap,
    let k := mapKeyOf p aliasArray in
    let fileMap' :=
      fst (processWatcherEvent DIR CWD add p fileMap aliasArray) in
    own_get fileMap' k
    = match own_get fileMap k with
      | Some l => Some (l ++ [p])
      | None => if inheritedKey k then None else Some [p]
      end
    /\ forall first rest,
         own_get fileMap k = Some (first :: rest) ->
         own_get fileMap' k = Some (first :: rest ++ [p]).
Proof.
  intros p fileMap; cbv zeta.
  rewrite processWatcherEvent_registry, after_add; cbv zeta.
  assert (H : own_get
                match obj_get fileMap (mapKeyOf p aliasArray) with
                | Undefined => fileMap ++ [(mapKeyOf p aliasArray, [p])]
                | ArrayValue l =>
                    own_update fileMap (mapKeyOf p aliasArray) (l ++ [p])
                | InheritedValue => fileMap
                end (mapKeyOf p aliasArray)
              = match own_get fileMap (mapKeyOf p aliasArray) with
                | Some l => Some (l ++ [p])
                | None =>
                    if inheritedKey (mapKeyOf p aliasArray)
                    then None else Some [p]
                end).
  { unfold obj_get, inheritedKey.
    destruct (own_get fileMap (mapKeyOf p aliasArray)) as [l|] eqn:E.
    - apply own_get_update_same; unfold has_own; rewrite E; reflexivity.
    - destruct (existsb _ _); [exact E|].
      rewrite own_get_app, E; simpl; rewrite str_eqb_refl; reflexivity. }
  split; [exact H|].
  intros first rest E; etransitivity; [exact H|].
  rewrite E; reflexivity.
Qed.

(** X3. A second [unlink] of the same path changes nothing more. *)
Theorem unlink_twice :
  forall p fileMap,
    let once := fst (processWatcherEvent DIR CWD unlink p fileMap aliasArray) in
    fst (processWatcherEvent DIR CWD unlink p once aliasArray) = once.
Proof.
  intros p fileMap; cbv zeta.
  rewrite !processWatcherEvent_registry.
  rewrite (after_unlink aliasArray p fileMap); cbv zeta.
  destruct (own_get fileMap (mapKeyOf p aliasArray)) as [l|] eqn:E.
  - destruct (filter (differs_from p) l) as [|x kept] eqn:F.
    + rewrite after_unlink; cbv zeta.
      rewrite own_get_delete_same; reflexivity.
    + rewrite after_unlink; cbv zeta.
      rewrite own_get_update_same by (unfold has_own; rewrite E; reflexivity).
      assert (Hk : filter (differs_from p) (x :: kept) = x :: kept).
      { rewrite <- F; apply filter_differs_absent, filter_differs_not_in. }
      rewrite Hk, own_update_update; reflexivity.
  - rewrite after_unlink; cbv zeta; rewrite E; reflexivity.
Qed.

End Handler.

Lemma handler_outcome_witness :
  processWatcherEvent Sample.dir Sample.cwd add Demo.toStringFile
    Sample.oneModule Sample.sources
  = (Sample.oneModule, Throw TypeError).
Proof.
  apply (handler_outcome Sample.dir Sample.cwd Sample.sources add
           Demo.toStringFile Sample.oneModule).
  - apply Registry_singleton.
  - reflexivity.
Defined.

Lemma add_appends_witness :
  own_get (fst (processWatcherEvent Sample.dir Sample.cwd add Sample.appA
                  Sample.oneModule Sample.sources)) (js "App")
  = Some [Sample.app; Sample.appA].
Proof.
  destruct (add_appends Sample.dir Sample.cwd Sample.sources Sample.appA
              Sample.oneModule) as [_ H].
  apply (H Sample.app []); reflexivity.
Defined.

(* ================================================================== *)
(** ** Cold start *)

Section ColdStart.

Variables (DIR CWD : list jsstring).

Lemma replay_Registry aliasArray events fileMap :
  Registry fileMap -> Registry (replay aliasArray events fileMap).
Proof.
  revert fileMap; induction events as [|[evt p] events IH]; intros fileMap HR;
    [exact HR|].
  apply IH, Registry_after; exact HR.
Qed.

(** The watcher, on a registry: where it leaves the registry, and that
    every event adds one text or one TypeError. *)
Lemma deliver_replay aliasArray events :
  forall fileMap texts errors,
    Registry fileMap ->
    exists texts' errors',
      deliver DIR CWD events aliasArray (fileMap, texts, errors)
      = (replay aliasArray events fileMap, texts ++ texts', errors ++ errors')
      /\ List.length texts' + List.length errors' = List.length events
      /\ Forall (fun e => e = TypeError) errors'.
Proof.
  induction events as [|[evt p] events IH]; intros fileMap texts errors HR.
  - exists [], []; rewrite !app_nil_r; repeat split; constructor.
  - simpl deliver; simpl replay.
    destruct (processWatcherEvent_settles DIR CWD aliasArray evt p fileMap HR)
      as [Hrej Hacc].
    pose proof (Registry_after evt p aliasArray fileMap HR) as HR'.
    destruct (rejects evt (mapKeyOf p aliasArray) fileMap) eqn:E.
    + rewrite (Hrej eq_refl).
      assert (Hsame : after evt p aliasArray fileMap = fileMap).
      { unfold after; rewrite updateFileMap_rejects by exact E; reflexivity. }
      rewrite Hsame in *.
      destruct (IH fileMap texts (errors ++ [TypeError]) HR)
        as (texts' & errors' & -> & Hlen & Hall).
      exists texts', (TypeError :: errors').
      rewrite <- app_assoc; simpl; repeat split; [lia|].
      constructor; [reflexivity | exact Hall].
    + destruct (Hacc eq_refl) as (text & -> & _).
      destruct (IH (after evt p aliasArray fileMap) (texts ++ [text]) errors
                  HR') as (texts' & errors' & -> & Hlen & Hall).
      exists (text :: texts'), errors'.
      rewrite <- app_assoc; simpl; repeat split; [lia | exact Hall].
Qed.

Lemma duplicatesOf_in fileMap k l :
  In (k, l) (duplicatesOf fileMap) <-> In (k, l) fileMap /\ 1 < List.length l.
Proof.
  unfold duplicatesOf, isDuplicate.
  rewrite filter_In; simpl; rewrite Nat.ltb_lt.
  split; intros [H1 H2]; (split; [|exact H2]).
  - apply (Permutation_in _ (Object_entries_perm fileMap)); exact H1.
  - apply (Permutation_in _ (Permutation_sym (Object_entries_perm fileMap)));
      exact H1.
Qed.

Lemma duplicatesOf_none fileMap :
  (forall k l, In (k, l) fileMap -> List.length l <= 1) ->
  duplicatesOf fileMap = [].
Proof.
  intros H; destruct (duplicatesOf fileMap) as [|[k l] rest] eqn:E;
    [reflexivity|].
  assert (Hin : In (k, l) (duplicatesOf fileMap)) by (rewrite E; left; auto).
  apply duplicatesOf_in in Hin as [Hin Hlen].
  apply H in Hin; lia.
Qed.

Lemma duplicatesOf_some fileMap k l :
  In (k, l) fileMap -> 1 < List.length l -> duplicatesOf fileMap <> [].
Proof.
  intros Hin Hlen E.
  pose proof (proj2 (duplicatesOf_in fileMap k l) (conj Hin Hlen)) as H.
  rewrite E in H; destruct H.
Qed.

Variable fileContents : jsstring.
Variable events : list (WatcherEvent * jsstring).
Variable arr : list CreateAliasInputType.

Let cold : Bootstrap := createAliasMap DIR CWD false fileContents events arr.

Lemma cold_registry :
  registry cold = replay (map (absoluteSource DIR CWD) arr) events [].
Proof.
  unfold cold, createAliasMap; cbv zeta.
  destruct (deliver_replay (map (absoluteSource DIR CWD) arr) events
              [] [] [] Registry_empty) as (texts & errors & Hd & _).
  unfold FileMapType in Hd; rewrite Hd.
  destruct (createViteAliasMap DIR CWD _) as [console [aliasMap|e]];
    [|reflexivity].
  destruct (writeTsConfigPathsJSON DIR CWD _); reflexivity.
Qed.

(** X4. Whatever the watcher delivers, a cold start leaves a registry: no
    key twice, no key with an empty sequence. *)
Theorem cold_start_registry : Registry (registry cold).
Proof. rewrite cold_registry; apply replay_Registry, Registry_empty. Qed.

(** X5. A cold start never has a key that names a member of
    [Object.prototype]: a file called [toString] or [constructor] under a
    source without prefix is never registered. *)
Theorem cold_start_has_no_inherited_key :
  forall k, In k Object_prototype_keys -> own_get (registry cold) k = None.
Proof.
  intros k Hk; rewrite cold_registry.
  generalize (map (absoluteSource DIR CWD) arr); intros aliasArray.
  assert (H : forall fileMap,
             own_get fileMap k = None ->
             own_get (replay aliasArray events fileMap) k = None);
    [|apply H; reflexivity].
  induction events as [|[evt p] evs IH]; intros fileMap Hnone; [exact Hnone|].
  simpl; apply IH.
  destruct (list_eq_dec N.eq_dec k (mapKeyOf p aliasArray)) as [->|Hne];
    [|rewrite after_frame by exact Hne; exact Hnone].
  unfold after.
  rewrite updateFileMap_rejects; [exact Hnone|].
  unfold rejects; rewrite Hnone.
  destruct evt; [apply inheritedKey_in; exact Hk | reflexivity].
Qed.

(** X6. A cold start whose registry has no key with several paths never
    delivers its result: the exception of the report ends the [ready]
    listener, the promise stays pending, nothing is written at [ready] and
    the flag is not set. An empty source directory is the first case. *)
Theorem cold_start_without_duplicates :
  (forall k l, In (k, l) (registry cold) -> List.length l <= 1) ->
  returned cold = Pending
  /\ initialized cold = false
  /\ (exists errors, unhandled cold = errors ++ [RangeError])
  /\ List.length (written cold) + List.length (unhandled cold)
     = S (List.length events).
Proof.
  intros H; rewrite cold_registry in H.
  unfold cold, createAliasMap; cbv zeta.
  destruct (deliver_replay (map (absoluteSource DIR CWD) arr) events
              [] [] [] Registry_empty) as (texts & errors & Hd & Hlen & _).
  unfold FileMapType in Hd; rewrite Hd.
  rewrite createViteAliasMap_without_duplicates
    by (apply duplicatesOf_none; exact H).
  simpl; repeat split; [eauto|].
  rewrite length_app; simpl; lia.
Qed.

Lemma cold_start_fulfilled :
  (exists k l, In (k, l) (registry cold) /\ 1 < List.length l) ->
  returned cold = Fulfilled (aliasMapOf (registry cold))
  /\ initialized cold = true
  /\ Forall (fun e => e = TypeError) (unhandled cold)
  /\ (exists texts text,
        written cold = texts ++ [text]
        /\ writeTsConfigPathsJSON DIR CWD (registry cold) = Normal text)
  /\ List.length (written cold) + List.length (unhandled cold)
     = S (List.length events).
Proof.
  intros (k & l & Hin & Hlen); rewrite cold_registry in *.
  pose proof (replay_Registry (map (absoluteSource DIR CWD) arr) events []
                Registry_empty) as [_ Hne].
  unfold cold, createAliasMap; cbv zeta.
  destruct (deliver_replay (map (absoluteSource DIR CWD) arr) events
              [] [] [] Registry_empty) as (texts & errors & Hd & Hcount & Hall).
  unfold FileMapType in Hd; rewrite Hd.
  destruct (createViteAliasMap_with_duplicates DIR CWD _
              (duplicatesOf_some _ k l Hin Hlen)) as [console ->].
  rewrite (writeTsConfigPathsJSON_registry DIR CWD _ Hne).
  simpl; repeat split; try exact Hall; [eauto|].
  rewrite length_app; simpl; lia.
Qed.

(** X7. A cold start whose registry has a key with several paths is
    fulfilled with the projection of the registry, after the text of the
    registry has been written once more and the flag has been set; the
    rejections of handlers stay unhandled and change nothing of this. *)
Theorem cold_start_with_duplicates :
  (exists k l, In (k, l) (registry cold) /\ 1 < List.length l) ->
  returned cold = Fulfilled (aliasMapOf (registry cold))
  /\ initialized cold = true
  /\ Forall (fun e => e = TypeError) (unhandled cold)
  /\ (exists texts text,
        written cold = texts ++ [text]
        /\ writeTsConfigPathsJSON DIR CWD (registry cold) = Normal text)
  /\ List.length (written cold) + List.length (unhandled cold)
     = S (List.length events).
Proof. exact cold_start_fulfilled. Qed.

End ColdStart.

Lemma cold_start_without_duplicates_witness :
  returned (createAliasMap Sample.dir Sample.cwd false [] []
              Demo.relativeSources) = Pending.
Proof.
  apply (cold_start_without_duplicates Sample.dir Sample.cwd [] []
           Demo.relativeSources).
  intros k l H; vm_compute in H; destruct H.
Defined.

Lemma cold_start_with_duplicates_witness :
  returned (createAliasMap Sample.dir Sample.cwd false [] Demo.scan
              Demo.relativeSources)
  = Fulfilled
      [ {| find := js "App"; replacement := Some Sample.appA |} ].
Proof.
  apply (cold_start_with_duplicates Sample.dir Sample.cwd [] Demo.scan
           Demo.relativeSources).
  exists (js "App"), [Sample.appA; Sample.appB]; split;
    [vm_compute; left; reflexivity | simpl; lia].
Defined.

Lemma cold_start_has_no_inherited_key_witness :
  own_get (registry (createAliasMap Sample.dir Sample.cwd false []
                       [(add, Demo.toStringFile); (add, Sample.app)]
                       Demo.relativeSources)) (js "toString") = None
  /\ map fst (registry (createAliasMap Sample.dir Sample.cwd false []
                       [(add, Demo.toStringFile); (add, Sample.app)]
                       Demo.relativeSources)) = [js "App"].
Proof.
  split; [|reflexivity].
  apply cold_start_has_no_inherited_key.
  vm_compute; tauto.
Defined.

(* ================================================================== *)
(** ** The writer *)

Lemma mapM_throws_all {A} (e : JsError) (l : list (Completion A)) :
  Forall (fun c => forall e', c = Throw e' -> e' = e) l ->
  (exists c, In c l /\ c = Throw e) ->
  mapM (fun c => c) l = Throw e.
Proof.
  induction 1 as [|c l Hc Hall IH]; intros (c0 & Hin & Hc0); [destruct Hin|].
  simpl; destruct c as [a|e'].
  - destruct Hin as [<-|Hin]; [discriminate|].
    simpl; rewrite IH by eauto; reflexivity.
  - rewrite (Hc e' eq_refl); reflexivity.
Qed.

Lemma in_mapi_from {A B} (f : A -> nat -> B) l x :
  In x l -> forall i, exists j, In (f x j) (mapi_from i f l).
Proof.
  induction l as [|y l IH]; intros Hin i; [destruct Hin|].
  destruct Hin as [->|Hin].
  - exists i; left; reflexivity.
  - destruct (IH Hin (S i)) as [j Hj]; exists j; right; exact Hj.
Qed.

Lemma mapi_from_in {A B} (f : A -> nat -> B) l y :
  forall i, In y (mapi_from i f l) -> exists x j, In x l /\ y = f x j.
Proof.
  induction l as [|x l IH]; intros i Hin; [destruct Hin|].
  destruct Hin as [<-|Hin].
  - exists x, i; split; [left; reflexivity | reflexivity].
  - destruct (IH _ Hin) as (x' & j & Hx & ->).
    exists x', j; split; [right; exact Hx | reflexivity].
Qed.


Lemma empty_sequence_dec (fileMap : FileMapType) :
  (exists k, own_get fileMap k = Some [])
  \/ (forall k, own_get fileMap k <> Some []).
Proof.
  destruct (existsb (fun k => match own_get fileMap k with
                              | Some [] => true
                              | _ => false
                              end) (map fst fileMap)) eqn:E.
  - left; apply existsb_exists in E as (k & _ & Hk); exists k.
    destruct (own_get fileMap k) as [[|x l]|]; (reflexivity || discriminate).
  - right; intros k Hk.
    assert (Hin : In k (map fst fileMap))
      by (apply own_get_in, (in_map fst) in Hk; exact Hk).
    assert (Hex : existsb (fun k => match own_get fileMap k with
                                    | Some [] => true
                                    | _ => false
                                    end) (map fst fileMap) = true)
      by (apply existsb_exists; exists k; rewrite Hk; auto).
    congruence.
Qed.

Section WriterEdges.

Variables (DIR CWD : list jsstring).

Lemma pathsLine_cases fileMap count name i :
  (exists values, own_get fileMap name = Some values /\ values <> []
                  /\ pathsLine DIR CWD fileMap count name i
                     = Normal (lineOf DIR CWD fileMap count name i))
  \/ ((own_get fileMap name = None \/ own_get fileMap name = Some [])
      /\ pathsLine DIR CWD fileMap count name i = Throw TypeError).
Proof.
  destruct (own_get fileMap name) as [[|v values]|] eqn:E.
  - right; split; [auto|]; unfold pathsLine; rewrite E; reflexivity.
  - left; exists (v :: values); repeat split; [discriminate|].
    eapply pathsLine_present; [exact E | discriminate].
  - right; split; [auto|]; unfold pathsLine; rewrite E; reflexivity.
Qed.

(** X8. The writer throws, a TypeError and before any write, exactly when
    some key of the object has an empty sequence; otherwise it gives the
    text. *)
Theorem writer_throws_on_empty_sequence :
  forall fileMap,
    (writeTsConfigPathsJSON DIR CWD fileMap = Throw TypeError
     <-> exists k, own_get fileMap k = Some [])
    /\ ((forall k, own_get fileMap k <> Some []) ->
        exists text, writeTsConfigPathsJSON DIR CWD fileMap = Normal text).
Proof.
  intros fileMap.
  assert (Hnormal : (forall k, own_get fileMap k <> Some []) ->
                    exists text,
                      writeTsConfigPathsJSON DIR CWD fileMap = Normal text).
  { intros H; eexists; apply writeTsConfigPathsJSON_registry.
    intros k l Hget ->; exact (H k Hget). }
  split; [|exact Hnormal]; split.
  - intros Hthrow.
    destruct (empty_sequence_dec fileMap) as [Hk|Hk]; [exact Hk|].
    destruct (Hnormal Hk) as [text Ht]; rewrite Ht in Hthrow; discriminate.
  - intros [k Hk]; unfold writeTsConfigPathsJSON; cbv zeta.
    rewrite (mapM_throws_all TypeError); [reflexivity | |].
    + apply Forall_forall; intros c Hc e' ->.
      apply mapi_from_in in Hc as (name & j & _ & Hc).
      destruct (pathsLine_cases fileMap
                  (List.length (importNames fileMap)) name j)
        as [(values & _ & _ & H)|[_ H]]; rewrite H in Hc;
        [discriminate | injection Hc as ->; reflexivity].
    + assert (Hin : In k (importNames fileMap)).
      { apply (Permutation_in _ (Permutation_sym (importNames_perm fileMap))).
        apply own_get_in, (in_map fst) in Hk; exact Hk. }
      destruct (in_mapi_from
                  (pathsLine DIR CWD fileMap
                     (List.length (importNames fileMap)))
                  _ k Hin 0) as [j Hj].
      eexists; split; [exact Hj|].
      unfold pathsLine; rewrite Hk; reflexivity.
Qed.

End WriterEdges.

Lemma writer_throws_on_empty_sequence_witness :
  writeTsConfigPathsJSON Sample.dir Sample.cwd Demo.hollow = Throw TypeError.
Proof.
  apply (writer_throws_on_empty_sequence Sample.dir Sample.cwd Demo.hollow).
  exists (js "Gone"); reflexivity.
Defined.

(* ================================================================== *)
(** ** The text does not depend on the order of discovery *)




(* ================================================================== *)
(** ** What the reader gives *)

Lemma split_slash_segments s :
  Forall (fun seg => existsb is_slash seg = false) (split_slash s).
Proof.
  induction s as [|c s IH]; simpl; [repeat constructor|].
  destruct (is_slash c) eqn:E; [constructor; [reflexivity | exact IH]|].
  destruct (split_slash s) as [|seg segs]; [repeat constructor; simpl|].
  - rewrite E; reflexivity.
  - inversion IH as [|? ? Hseg Hsegs]; subst.
    constructor; [simpl; rewrite E; exact Hseg | exact Hsegs].
Qed.

Lemma normalize_step_segments stack seg :
  forallb is_segment stack = true -> existsb is_slash seg = false ->
  forallb is_segment (normalize_step stack seg) = true.
Proof.
  intros Hstack Hseg; unfold normalize_step.
  destruct (str_eqb seg []) eqn:E1; [exact Hstack|].
  destruct (str_eqb seg [DOT]) eqn:E2; [exact Hstack|].
  destruct (str_eqb seg [DOT; DOT]) eqn:E3; simpl.
  - destruct stack as [|x stack]; [reflexivity|].
    simpl in Hstack; apply andb_true_iff in Hstack as [_ H]; exact H.
  - unfold is_segment at 1; rewrite E1, E2, E3, Hseg; exact Hstack.
Qed.

Lemma normalize_segments_normal segs :
  Forall (fun seg => existsb is_slash seg = false) segs ->
  forallb is_segment (normalize_segments segs) = true.
Proof.
  intros H; unfold normalize_segments.
  assert (Hfold : forall stack,
             forallb is_segment stack = true ->
             forallb is_segment (fold_left normalize_step segs stack) = true).
  { induction H as [|seg segs Hseg Hall IH]; intros stack Hstack;
      [exact Hstack|].
    simpl; apply IH, normalize_step_segments; assumption. }
  specialize (Hfold [] eq_refl).
  rewrite forallb_forall in *; intros x Hx; apply Hfold, in_rev; exact Hx.
Qed.

Section ReaderOutput.

Variables (DIR CWD : list jsstring).

(** [path.resolve(DIR_NAME, s)] is absolute and normalized, whatever [s]
    is. *)
Lemma path_resolve_normalAbsolute s :
  normalAbsolute (path_resolve CWD [DIR_NAME DIR; s]) = true.
Proof.
  unfold path_resolve; simpl rev; simpl app.
  assert (H : exists text,
             resolve_collect [s; DIR_NAME DIR; process_cwd CWD] []
             = (text, true)).
  { destruct s as [|c s]; simpl.
    - eexists; reflexivity.
    - destruct (is_slash c); eexists; reflexivity. }
  destruct H as [text ->].
  pose proof (normalize_segments_normal (split_slash text)
                (split_slash_segments text)) as Hn.
  unfold normalAbsolute.
  rewrite path_segments_joined by exact Hn.
  rewrite str_eqb_refl, Hn; reflexivity.
Qed.

Lemma resolveAll_normalAbsolute v l :
  resolveAll DIR CWD v = Normal l ->
  Forall (fun p => normalAbsolute p = true) l.
Proof.
  unfold resolveAll; destruct v as [| | | |elements|]; try discriminate.
  revert l; induction elements as [|x elements IH]; intros l; simpl.
  - intros [= <-]; constructor.
  - destruct x as [| | |s| |]; try discriminate; simpl.
    destruct (mapM _ elements) as [rest|] eqn:E; [|discriminate].
    simpl; intros [= <-]; constructor;
      [apply path_resolve_normalAbsolute | apply IH; reflexivity].
Qed.

Lemma in_own_update {V} (o : list (jsstring * V)) k v k' v' :
  In (k', v') (own_update o k v) ->
  In (k', v') o \/ (k' = k /\ v' = v /\ In k (map fst o)).
Proof.
  induction o as [|[k0 v0] o IH]; simpl; [tauto|].
  destruct (str_eqb k0 k) eqn:E.
  - apply str_eqb_eq in E; subst k0.
    intros [H|H]; [injection H as <- <-; right; auto | left; right; exact H].
  - intros [H|H]; [left; left; exact H|].
    destruct (IH H) as [H'|(H1 & H2 & H3)]; [left; right; exact H'|].
    right; auto.
Qed.

Lemma obj_set_wellRead fileMap k v :
  wellRead fileMap -> Forall (fun p => normalAbsolute p = true) v ->
  wellRead (obj_set fileMap k v).
Proof.
  intros [Hwf Hall] Hv; unfold obj_set, has_own.
  destruct (own_get fileMap k) as [l0|] eqn:E.
  - split; [apply wf_object_update; exact Hwf|].
    intros k' l' Hin; apply in_own_update in Hin as [Hin|(-> & -> & _)];
      [apply Hall; exact Hin|].
    split; [|exact Hv].
    apply own_get_in in E; apply (Hall _ _ E).
  - destruct (str_eqb k proto_key) eqn:Ep; [split; assumption|].
    split; [apply wf_object_append; assumption|].
    intros k' l' Hin; apply in_app_or in Hin as [Hin|[Hin|[]]];
      [apply Hall; exact Hin|].
    injection Hin as <- <-; split; [apply str_eqb_false; exact Ep | exact Hv].
Qed.

Lemma reduceEntries_wellRead entries :
  forall acc fileMap,
    wellRead acc ->
    reduceEntries DIR CWD entries acc = Normal fileMap ->
    wellRead fileMap.
Proof.
  induction entries as [|[k v] entries IH]; intros acc fileMap Hacc; simpl.
  - intros [= <-]; exact Hacc.
  - destruct (resolveAll DIR CWD v) as [resolved|] eqn:E; [|discriminate].
    simpl; apply IH, obj_set_wellRead;
      [exact Hacc | eapply resolveAll_normalAbsolute; exact E].
Qed.

(** X10. Whatever the file holds, a registry read from it has each key
    once, no key [__proto__], and only absolute, normalized paths. *)
Theorem reader_gives_normal_paths :
  forall str fileMap,
    tsConfigPathsToFileMap DIR CWD str = Normal fileMap ->
    wf_object fileMap
    /\ forall k l, In (k, l) fileMap ->
         k <> proto_key /\ Forall (fun p => normalAbsolute p = true) l.
Proof.
  intros str fileMap; unfold tsConfigPathsToFileMap.
  destruct (JSON_parse str) as [json|]; cbn [bind]; [|discriminate].
  destruct (getMember (Some json) (js "compilerOptions")) as [co|];
    cbn [bind]; [|discriminate].
  destruct (getMember co (js "paths")) as [pathsObj|];
    cbn [bind]; [|discriminate].
  destruct (entries_of_value pathsObj) as [entries|];
    cbn [bind]; [|discriminate].
  apply reduceEntries_wellRead.
  split; [constructor | intros k l []].
Qed.

End ReaderOutput.

Lemma reader_gives_normal_paths_witness :
  exists fileMap,
    tsConfigPathsToFileMap Sample.dir Sample.cwd
      (js "{" ++ quoted (js "compilerOptions") ++ js ":{"
       ++ quoted (js "paths") ++ js ":{"
       ++ quoted (js "__proto__") ++ js ":[],"
       ++ quoted (js "App") ++ js ":[" ++ quoted (js "lib//../src/./App.tsx")
       ++ js "]}}}")
    = Normal fileMap
    /\ fileMap = [(js "App", [Sample.app])]
    /\ wf_object fileMap.
Proof.
  eexists; split; [vm_compute; reflexivity|]; split; [reflexivity|].
  apply (reader_gives_normal_paths Sample.dir Sample.cwd
           (js "{" ++ quoted (js "compilerOptions") ++ js ":{"
            ++ quoted (js "paths") ++ js ":{"
            ++ quoted (js "__proto__") ++ js ":[],"
            ++ quoted (js "App") ++ js ":["
            ++ quoted (js "lib//../src/./App.tsx") ++ js "]}}}")).
  vm_compute; reflexivity.
Defined.

(* ================================================================== *)
(** ** A warm start on the text of a cold start *)

Lemma aliasMapOf_perm fileMap fileMap' :
  Permutation fileMap' fileMap ->
  Permutation (aliasMapOf fileMap') (aliasMapOf fileMap).
Proof.
  intros H; unfold aliasMapOf; apply Permutation_map.
  eapply perm_trans; [apply Object_entries_perm|].
  eapply perm_trans; [exact H|].
  apply Permutation_sym, Object_entries_perm.
Qed.

(** A warm start on the text written for a readable registry with a
    duplicate. *)
Lemma warm_start_on_written DIR CWD fileMap text events arr :
  forallb is_segment DIR = true ->
  Registry fileMap -> readable fileMap ->
  (exists k l, In (k, l) fileMap /\ 1 < List.length l) ->
  writeTsConfigPathsJSON DIR CWD fileMap = Normal text ->
  exists aliasMap,
    returned (createAliasMap DIR CWD true text events arr) = Fulfilled aliasMap
    /\ Permutation aliasMap (aliasMapOf fileMap)
    /\ unhandled (createAliasMap DIR CWD true text events arr) = []
    /\ watched (createAliasMap DIR CWD true text events arr) = None
    /\ written (createAliasMap DIR CWD true text events arr) = [].
Proof.
  intros HD HR Hread (k & l & Hin & Hlen) Hw.
  destruct (read_back DIR CWD HD fileMap HR Hread)
    as (text' & fileMap' & Hw' & Hr & Hperm).
  assert (text' = text) by congruence; subst text'.
  assert (Hdup : duplicatesOf fileMap' <> []).
  { apply (duplicatesOf_some _ k l); [|exact Hlen].
    apply (Permutation_in _ (Permutation_sym Hperm)); exact Hin. }
  destruct (createViteAliasMap_with_duplicates DIR CWD fileMap' Hdup)
    as [console Hc].
  exists (aliasMapOf fileMap').
  unfold createAliasMap; rewrite Hr, Hc; simpl.
  repeat split; apply aliasMapOf_perm; exact Hperm.
Qed.

(** X11. A cold start followed by a warm start. When the registry of the
    cold start is readable and has a key with several paths, the text it
    wrote last makes a warm start fulfil its promise with the same alias
    entries, up to their order, with no watcher and no write. *)
Theorem warm_start_after_cold_start :
  forall DIR CWD fileContents events arr events' arr',
    forallb is_segment DIR = true ->
    let cold := createAliasMap DIR CWD false fileContents events arr in
    readable (registry cold) ->
    (exists k l, In (k, l) (registry cold) /\ 1 < List.length l) ->
    exists texts text aliasMap,
      written cold = texts ++ [text]
      /\ returned cold = Fulfilled (aliasMapOf (registry cold))
      /\ let warm := createAliasMap DIR CWD true text events' arr' in
         returned warm = Fulfilled aliasMap
         /\ Permutation aliasMap (aliasMapOf (registry cold))
         /\ unhandled warm = []
         /\ watched warm = None
         /\ written warm = [].
Proof.
  intros DIR CWD fileContents events arr events' arr' HD cold Hread Hdup.
  destruct (cold_start_fulfilled DIR CWD fileContents events arr Hdup)
    as (Hret & _ & _ & (texts & text & Hwritten & Hw) & _).
  fold cold in Hret, Hwritten, Hw.
  assert (HR : Registry (registry cold)).
  { unfold cold; rewrite cold_registry.
    apply replay_Registry, Registry_empty. }
  destruct (warm_start_on_written DIR CWD (registry cold) text events' arr'
              HD HR Hread Hdup Hw) as (aliasMap & H).
  exists texts, text, aliasMap; repeat split; try assumption; apply H.
Qed.

Lemma warm_start_after_cold_start_witness :
  exists texts text aliasMap,
    written (createAliasMap Sample.dir Sample.cwd false [] Demo.scan
               Demo.relativeSources) = texts ++ [text]
    /\ returned (createAliasMap Sample.dir Sample.cwd true text []
                   Demo.relativeSources) = Fulfilled aliasMap
    /\ Permutation aliasMap
         [ {| find := js "App"; replacement := Some Sample.appA |} ].
Proof.
  destruct (warm_start_after_cold_start Sample.dir Sample.cwd [] Demo.scan
              Demo.relativeSources [] Demo.relativeSources)
    as (texts & text & aliasMap & Hw & _ & Hr & Hp & _).
  - reflexivity.
  - apply readableb_spec; vm_compute; reflexivity.
  - exists (js "App"), [Sample.appA; Sample.appB]; split;
      [vm_compute; left; reflexivity | simpl; lia].
  - exists texts, text, aliasMap; repeat split; assumption.
Defined.

(* ================================================================== *)
(** ** Escape codes and the frame *)

Lemma removeAnsiChars_plain s : ~ In ESC s -> removeAnsiChars s = s.
Proof.
  intros H; unfold removeAnsiChars.
  rewrite <- (app_nil_r s) at 1.
  rewrite removeAnsi_scan_prefix by exact H.
  apply app_nil_r.
Qed.

Lemma reaches_m_code params rest :
  ~ In 109%N params -> forallb (fun c => negb (is_line_terminator c)) params
                       = true ->
  reaches_m (params ++ 109%N :: rest) = true
  /\ removeAnsi_scan true (params ++ 109%N :: rest)
     = removeAnsi_scan false rest.
Proof.
  induction params as [|c params IH]; intros Hm Hlt; [split; reflexivity|].
  simpl in Hlt; apply andb_true_iff in Hlt as [Hc Hlt].
  apply negb_true_iff in Hc.
  assert (Hcm : (c =? 109)%N = false)
    by (apply N.eqb_neq; intros ->; apply Hm; left; reflexivity).
  destruct IH as [IH1 IH2]; [intros H; apply Hm; right; exact H | exact Hlt|].
  split; simpl; rewrite Hcm; [rewrite Hc; exact IH1 | exact IH2].
Qed.

(** X12. [removeAnsiChars] leaves a text without escape character as it is,
    and takes away a code made of the escape character, a bracket, any
    characters other than [m] and line terminators, and [m]. *)
Theorem removeAnsiChars_strips_codes :
  (forall s, ~ In ESC s -> removeAnsiChars s = s)
  /\ (forall params rest,
        ~ In 109%N params ->
        forallb (fun c => negb (is_line_terminator c)) params = true ->
        removeAnsiChars (ESC :: 91%N :: params ++ 109%N :: rest)
        = removeAnsiChars rest).
Proof.
  split; [exact removeAnsiChars_plain|].
  intros params rest Hm Hlt; unfold removeAnsiChars.
  destruct (reaches_m_code params rest Hm Hlt) as [H1 H2].
  change (removeAnsi_scan false (ESC :: 91%N :: params ++ 109%N :: rest))
    with (if (ESC =? ESC)%N && (91 =? 91)%N
             && reaches_m (params ++ 109%N :: rest)
          then removeAnsi_scan true (params ++ 109%N :: rest)
          else ESC :: removeAnsi_scan false
                        (91%N :: params ++ 109%N :: rest)).
  rewrite H1; exact H2.
Qed.

Lemma removeAnsiChars_strips_codes_witness :
  removeAnsiChars ([ESC] ++ js "[1m" ++ [ESC] ++ js "[36mhello" ++ [ESC]
                   ++ js "[39m" ++ [ESC] ++ js "[22m")
  = js "hello".
Proof.
  destruct removeAnsiChars_strips_codes as [Hplain Hcode].
  change ([ESC] ++ js "[1m" ++ [ESC] ++ js "[36mhello" ++ [ESC]
          ++ js "[39m" ++ [ESC] ++ js "[22m")
    with (ESC :: 91%N :: js "1" ++ 109%N
          :: (ESC :: 91%N :: js "36" ++ 109%N
              :: js "hello" ++ [ESC] ++ js "[39m" ++ [ESC] ++ js "[22m")).
  rewrite Hcode by (vm_compute; intuition discriminate || reflexivity).
  rewrite Hcode by (vm_compute; intuition discriminate || reflexivity).
  reflexivity.
Defined.

Lemma reaches_m_suffix s suf :
  ~ In 109%N suf -> reaches_m (s ++ suf) = reaches_m s.
Proof.
  intros Hsuf; induction s as [|c s IH]; simpl.
  - induction suf as [|c suf IH]; [reflexivity|].
    simpl; replace (c =? 109)%N with false
      by (symmetry; apply N.eqb_neq; intros ->; apply Hsuf; left; reflexivity).
    destruct (is_line_terminator c); [reflexivity|].
    apply IH; intros H; apply Hsuf; right; exact H.
  - destruct (c =? 109)%N; [reflexivity|].
    destruct (is_line_terminator c); [reflexivity | exact IH].
Qed.

Lemma removeAnsi_scan_untouched suf :
  ~ In 109%N suf -> removeAnsi_scan false suf = suf.
Proof.
  induction suf as [|c suf IH]; intros Hsuf; [reflexivity|].
  destruct suf as [|c2 r]; [reflexivity|].
  change (removeAnsi_scan false (c :: c2 :: r))
    with (if (c =? ESC)%N && (c2 =? 91)%N && reaches_m r
          then removeAnsi_scan true r
          else c :: removeAnsi_scan false (c2 :: r)).
  replace (reaches_m r) with false.
  - rewrite andb_false_r, IH; [reflexivity|].
    intros H; apply Hsuf; right; exact H.
  - symmetry; rewrite <- (app_nil_l r), reaches_m_suffix; [reflexivity|].
    intros H; apply Hsuf; right; right; exact H.
Qed.

(** What follows a text, and holds no [m], is left after the text. *)
Lemma removeAnsi_scan_suffix suf :
  ~ In 109%N suf ->
  forall n s inside,
    List.length s <= n ->
    (inside = true -> reaches_m s = true) ->
    removeAnsi_scan inside (s ++ suf) = removeAnsi_scan inside s ++ suf.
Proof.
  intros Hsuf; induction n as [|n IH]; intros s inside Hlen Hin.
  - destruct s; [|simpl in Hlen; lia].
    destruct inside; [discriminate (Hin eq_refl)|].
    apply removeAnsi_scan_untouched; exact Hsuf.
  - destruct s as [|c r].
    + destruct inside; [discriminate (Hin eq_refl)|].
      apply removeAnsi_scan_untouched; exact Hsuf.
    + simpl in Hlen; destruct inside.
      * specialize (Hin eq_refl); simpl in Hin; simpl.
        destruct (c =? 109)%N.
        -- apply IH; [lia | discriminate].
        -- destruct (is_line_terminator c); [discriminate|].
           apply IH; [lia | intros _; exact Hin].
      * destruct r as [|c2 r'].
        -- simpl app; destruct suf as [|c2 r']; [reflexivity|].
           change (removeAnsi_scan false (c :: c2 :: r'))
             with (if (c =? ESC)%N && (c2 =? 91)%N && reaches_m r'
                   then removeAnsi_scan true r'
                   else c :: removeAnsi_scan false (c2 :: r')).
           replace (reaches_m r') with false.
           ++ rewrite andb_false_r, removeAnsi_scan_untouched by exact Hsuf.
              reflexivity.
           ++ symmetry; rewrite <- (app_nil_l r'), reaches_m_suffix;
                [reflexivity|].
              intros H; apply Hsuf; right; exact H.
        -- change (removeAnsi_scan false ((c :: c2 :: r') ++ suf))
             with (if (c =? ESC)%N && (c2 =? 91)%N && reaches_m (r' ++ suf)
                   then removeAnsi_scan true (r' ++ suf)
                   else c :: removeAnsi_scan false ((c2 :: r') ++ suf)).
           change (removeAnsi_scan false (c :: c2 :: r'))
             with (if (c =? ESC)%N && (c2 =? 91)%N && reaches_m r'
                   then removeAnsi_scan true r'
                   else c :: removeAnsi_scan false (c2 :: r')).
           rewrite reaches_m_suffix by exact Hsuf.
           destruct ((c =? ESC)%N && (c2 =? 91)%N) eqn:E; cbn [andb].
           ++ destruct (reaches_m r') eqn:Er.
              ** apply IH; [simpl in Hlen; lia | intros _; exact Er].
              ** rewrite (IH (c2 :: r') false) by (simpl in *; lia || discriminate).
                 reflexivity.
           ++ rewrite (IH (c2 :: r') false) by (simpl in *; lia || discriminate).
              reflexivity.
Qed.

Lemma str_repeat_length c n : List.length (str_repeat [c] n) = n.
Proof. induction n as [|n IH]; simpl; [reflexivity | rewrite IH; reflexivity]. Qed.

Lemma str_repeat_in c n x : In x (str_repeat [c] n) -> x = c.
Proof.
  induction n as [|n IH]; simpl; [tauto|].
  intros [H|H]; [symmetry; exact H | exact (IH H)].
Qed.

Lemma frameText_lines textArr :
  frameText textArr
  = ([9581%N] ++ str_repeat [9472%N] (getMaxLengthNoAnsi textArr + 2)
     ++ [9582%N])
    :: map (framed (getMaxLengthNoAnsi textArr)) textArr
    ++ [[9584%N] ++ str_repeat [9472%N] (getMaxLengthNoAnsi textArr + 2)
        ++ [9583%N]].
Proof. reflexivity. Qed.

Lemma framed_width maxLength msg :
  List.length (removeAnsiChars msg) <= maxLength ->
  List.length (removeAnsiChars (framed maxLength msg)) = maxLength + 4.
Proof.
  intros Hle; unfold framed, removeAnsiChars.
  match goal with
  | |- context [msg ++ ?suf] =>
      assert (Hsuf : ~ In 109%N suf)
        by (intros H; apply in_app_or in H as [H|[H|[H|[]]]];
            [apply str_repeat_in in H|..]; discriminate H)
  end.
  change ([9474%N] ++ js " " ++ ?t) with ([9474%N; 32%N] ++ t).
  rewrite removeAnsi_scan_prefix
    by (intros [H|[H|[]]]; discriminate H).
  rewrite (removeAnsi_scan_suffix _ Hsuf (List.length msg) msg false
             (Nat.le_refl _) ltac:(discriminate)).
  rewrite !length_app, str_repeat_length; simpl.
  unfold removeAnsiChars in Hle; lia.
Qed.

(** X13. The frame is a rectangle: once the escape codes are taken away,
    every line of [frameText] is four characters wider than the widest
    message, the borders as well as the messages. *)
Theorem frame_is_rectangular :
  forall textArr line,
    In line (frameText textArr) ->
    List.length (removeAnsiChars line) = getMaxLengthNoAnsi textArr + 4.
Proof.
  intros textArr line; rewrite frameText_lines.
  assert (Hborder : forall a b,
             a <> ESC -> b <> ESC ->
             List.length
               (removeAnsiChars
                  ([a] ++ str_repeat [9472%N] (getMaxLengthNoAnsi textArr + 2)
                   ++ [b]))
             = getMaxLengthNoAnsi textArr + 4).
  { intros a b Ha Hb; rewrite removeAnsiChars_plain.
    - rewrite !length_app, str_repeat_length; simpl; lia.
    - intros H; simpl in H; destruct H as [H|H]; [congruence|].
      apply in_app_or in H; destruct H as [H|H].
      + apply str_repeat_in in H; discriminate H.
      + simpl in H; destruct H as [H|[]]; congruence. }
  intros [<-|H]; [apply Hborder; discriminate|].
  apply in_app_or in H as [H|[<-|[]]]; [|apply Hborder; discriminate].
  apply in_map_iff in H as (msg & <- & Hmsg).
  apply framed_width, getMaxLengthNoAnsi_ge; exact Hmsg.
Qed.

Lemma frame_is_rectangular_witness :
  List.length
    (removeAnsiChars (framed 5 ([ESC] ++ js "[36mabc" ++ [ESC] ++ js "[39m")))
  = 9.
Proof.
  apply (frame_is_rectangular
           [[ESC] ++ js "[36mabc" ++ [ESC] ++ js "[39m"; js "hello"]).
  vm_compute; right; left; reflexivity.
Defined.

(* ================================================================== *)
(** ** The report *)

Lemma in_mapi_from_later {A B} (f : A -> nat -> B) l x :
  In x l -> forall i, exists j, i <= j /\ In (f x j) (mapi_from i f l).
Proof.
  induction l as [|y l IH]; intros Hin i; [destruct Hin|].
  destruct Hin as [->|Hin].
  - exists i; split; [lia | left; reflexivity].
  - destruct (IH Hin (S i)) as (j & Hj & H).
    exists j; split; [lia | right; exact H].
Qed.

Section ReportLines.

Variables (DIR CWD : list jsstring).

(** The line of a path in the report, before it is framed. *)
Let pathLine (marked : bool) (p : jsstring) : jsstring :=
  js "  " ++ path_relative CWD (DIR_NAME DIR) p
  ++ (if marked then usingMark else []).

Lemma moduleLines_paths name first rest :
  In (pathLine true first) (moduleLines DIR CWD (name, first :: rest))
  /\ forall p, In p rest ->
       In (pathLine false p) (moduleLines DIR CWD (name, first :: rest)).
Proof.
  unfold moduleLines, pathLine, chalk; cbn [mapi_from]; split.
  - right; left; reflexivity.
  - intros p Hp; right; right; apply in_or_app; left.
    match goal with
    | |- In _ (mapi_from 1 ?f rest) =>
        destruct (in_mapi_from_later f rest p Hp 1) as (j & Hj & H)
    end.
    destruct j as [|j]; [lia | exact H].
Qed.

Lemma logMultipleModuleWarnings_console duplicates console :
  logMultipleModuleWarnings DIR CWD duplicates = (console, Normal tt) ->
  exists titleLine,
    console
    = [[]] ++ frameText ([[]; titleLine; []]
                         ++ flat_map (moduleLines DIR CWD) duplicates)
      ++ [[]].
Proof.
  unfold logMultipleModuleWarnings; cbv zeta.
  match goal with
  | |- match ?c with _ => _ end = _ -> _ => destruct c as [titleLine|e]
  end; [|discriminate].
  intros [= <-]; exists titleLine; reflexivity.
Qed.

(** The lines of a key in the report: its first path with the mark, its
    other paths without. *)
Lemma report_lines duplicates console name first rest :
  logMultipleModuleWarnings DIR CWD duplicates = (console, Normal tt) ->
  In (name, first :: rest) duplicates ->
  exists maxLength,
    In (framed maxLength (pathLine true first)) console
    /\ forall p, In p rest -> In (framed maxLength (pathLine false p)) console.
Proof.
  intros Hlog Hin.
  destruct (logMultipleModuleWarnings_console _ _ Hlog) as [titleLine ->].
  rewrite frameText_lines.
  set (textArr := [[]; titleLine; []]
                  ++ flat_map (moduleLines DIR CWD) duplicates).
  exists (getMaxLengthNoAnsi textArr).
  assert (Hline : forall line,
             In line (moduleLines DIR CWD (name, first :: rest)) ->
             In (framed (getMaxLengthNoAnsi textArr) line)
               ([[]] ++ (([9581%N] ++ str_repeat [9472%N]
                                        (getMaxLengthNoAnsi textArr + 2)
                          ++ [9582%N])
                         :: map (framed (getMaxLengthNoAnsi textArr)) textArr
                         ++ [[9584%N] ++ str_repeat [9472%N]
                                           (getMaxLengthNoAnsi textArr + 2)
                             ++ [9583%N]]) ++ [[]])).
  { intros line Hl; right; right.
    apply in_or_app; left; apply in_or_app; left.
    apply in_map; unfold textArr; apply in_or_app; right.
    apply in_flat_map; exists (name, first :: rest); split; assumption. }
  destruct (moduleLines_paths name first rest) as [H1 H2].
  split; [apply Hline, H1 | intros p Hp; apply Hline, H2, Hp].
Qed.

(** The projection and its report, for a key with several paths. *)
Lemma projection_and_report :
  forall fileMap k first second rest,
    In (k, first :: second :: rest) fileMap ->
    exists console maxLength,
      createViteAliasMap DIR CWD fileMap
      = (console, Normal (aliasMapOf fileMap))
      /\ In {| find := k; replacement := Some first |} (aliasMapOf fileMap)
      /\ In (framed maxLength
               (js "  " ++ path_relative CWD (DIR_NAME DIR) first
                ++ usingMark)) console
      /\ forall p, In p (second :: rest) ->
           In (framed maxLength
                 (js "  " ++ path_relative CWD (DIR_NAME DIR) p)) console.
Proof.
  intros fileMap k first second rest Hin.
  assert (Hdup : In (k, first :: second :: rest) (duplicatesOf fileMap))
    by (apply duplicatesOf_in; split; [exact Hin | simpl; lia]).
  assert (Hne : duplicatesOf fileMap <> [])
    by (intros E; rewrite E in Hdup; destruct Hdup).
  destruct (logMultipleModuleWarnings_returns DIR CWD _ Hne) as [console Hlog].
  destruct (report_lines _ _ _ _ _ Hlog Hdup) as (maxLength & H1 & H2).
  exists console, maxLength; split; [|split; [|split]].
  - unfold createViteAliasMap; cbv zeta; rewrite Hlog; reflexivity.
  - unfold aliasMapOf; apply in_map_iff.
    exists (k, first :: second :: rest); split; [reflexivity|].
    apply (Permutation_in _ (Permutation_sym (Object_entries_perm fileMap)));
      exact Hin.
  - exact H1.
  - intros p Hp; specialize (H2 p Hp); unfold pathLine in H2.
    rewrite app_nil_r in H2; exact H2.
Qed.

(** X14. The report and the alias list agree. For a key with several
    paths, the projection returns, the alias of the key has the first path
    as replacement, and the report holds a line for that path with the mark
    and a line without the mark for each of the other paths, all framed to
    one width. *)
Theorem report_marks_the_path_in_use :
  forall fileMap k first second rest,
    In (k, first :: second :: rest) fileMap ->
    exists console maxLength,
      createViteAliasMap DIR CWD fileMap
      = (console, Normal (aliasMapOf fileMap))
      /\ In {| find := k; replacement := Some first |} (aliasMapOf fileMap)
      /\ In (framed maxLength
               (js "  " ++ path_relative CWD (DIR_NAME DIR) first
                ++ usingMark)) console
      /\ forall p, In p (second :: rest) ->
           In (framed maxLength
                 (js "  " ++ path_relative CWD (DIR_NAME DIR) p)) console.
Proof. exact projection_and_report. Qed.

(** X15. Two files of one name. When the key is new and names no inherited
    member, after the two [add] events the key holds the two paths in the
    order of the events, the projection returns with the first file as the
    replacement of the key, and the report marks the first file and lists
    the second. *)
Theorem same_name_collision :
  forall aliasArray p1 p2 fileMap,
    mapKeyOf p2 aliasArray = mapKeyOf p1 aliasArray ->
    own_get fileMap (mapKeyOf p1 aliasArray) = None ->
    inheritedKey (mapKeyOf p1 aliasArray) = false ->
    let k := mapKeyOf p1 aliasArray in
    let fileMap' :=
      fst (processWatcherEvent DIR CWD add p2
             (fst (processWatcherEvent DIR CWD add p1 fileMap aliasArray))
             aliasArray) in
    own_get fileMap' k = Some [p1; p2]
    /\ exists console maxLength,
         createViteAliasMap DIR CWD fileMap'
         = (console, Normal (aliasMapOf fileMap'))
         /\ In {| find := k; replacement := Some p1 |} (aliasMapOf fileMap')
         /\ In (framed maxLength
                  (js "  " ++ path_relative CWD (DIR_NAME DIR) p1
                   ++ usingMark)) console
         /\ In (framed maxLength
                  (js "  " ++ path_relative CWD (DIR_NAME DIR) p2)) console.
Proof.
  intros aliasArray p1 p2 fileMap Hk Hnone Hinh; cbv zeta.
  rewrite !processWatcherEvent_registry.
  assert (H1 : after add p1 aliasArray fileMap
               = fileMap ++ [(mapKeyOf p1 aliasArray, [p1])]).
  { rewrite after_add; cbv zeta; unfold obj_get.
    unfold FileMapType in *; rewrite Hnone.
    unfold inheritedKey in Hinh; rewrite Hinh; reflexivity. }
  rewrite H1.
  assert (Hget1 : own_get (fileMap ++ [(mapKeyOf p1 aliasArray, [p1])])
                    (mapKeyOf p1 aliasArray) = Some [p1]).
  { rewrite own_get_app; unfold FileMapType in *; rewrite Hnone; simpl.
    rewrite str_eqb_refl; reflexivity. }
  assert (H2 : after add p2 aliasArray
                 (fileMap ++ [(mapKeyOf p1 aliasArray, [p1])])
               = own_update (fileMap ++ [(mapKeyOf p1 aliasArray, [p1])])
                   (mapKeyOf p1 aliasArray) [p1; p2]).
  { rewrite after_add; cbv zeta; rewrite Hk; unfold obj_get.
    unfold FileMapType in *; rewrite Hget1; reflexivity. }
  rewrite H2.
  assert (Hget2 : own_get
                    (own_update (fileMap ++ [(mapKeyOf p1 aliasArray, [p1])])
                       (mapKeyOf p1 aliasArray) [p1; p2])
                    (mapKeyOf p1 aliasArray) = Some [p1; p2])
    by (apply own_get_update_same; unfold has_own;
        unfold FileMapType in *; rewrite Hget1; reflexivity).
  split; [exact Hget2|].
  destruct (projection_and_report _ _ _ _ _ (own_get_in _ _ _ Hget2))
    as (console & maxLength & Ha & Hb & Hc & Hd).
  exists console, maxLength; repeat split; try assumption.
  apply Hd; left; reflexivity.
Qed.

End ReportLines.

Lemma report_marks_the_path_in_use_witness :
  exists console maxLength,
    createViteAliasMap Sample.dir Sample.cwd Sample.mixed
    = (console, Normal (aliasMapOf Sample.mixed))
    /\ In (framed maxLength (js "  src/a/App.tsx" ++ usingMark)) console
    /\ In (framed maxLength (js "  src/b/App.tsx")) console.
Proof.
  destruct (report_marks_the_path_in_use Sample.dir Sample.cwd Sample.mixed
              (js "App") Sample.appA Sample.appB [])
    as (console & maxLength & H1 & _ & H2 & H3);
    [left; reflexivity|].
  exists console, maxLength; split; [exact H1|]; split; [exact H2|].
  apply (H3 Sample.appB); left; reflexivity.
Defined.

Lemma same_name_collision_witness :
  own_get
    (fst (processWatcherEvent Sample.dir Sample.cwd add Sample.appB
            (fst (processWatcherEvent Sample.dir Sample.cwd add Sample.appA []
                    Sample.sources)) Sample.sources)) (js "App")
  = Some [Sample.appA; Sample.appB].
Proof.
  apply (same_name_collision Sample.dir Sample.cwd Sample.sources
           Sample.appA Sample.appB []); reflexivity.
Defined.

(* ================================================================== *)
(** ** The earlier projection *)

Lemma Earlier_report_returns name absolutePaths :
  exists console,
    Earlier.logMultipleModuleWarning name absolutePaths
    = (console, Normal tt).
Proof.
  unfold Earlier.logMultipleModuleWarning; cbv zeta.
  match goal with
  | |- context [getMaxLengthNoAnsi ?t] => set (textArr := t)
  end.
  assert (Hwide : List.length header < getMaxLengthNoAnsi textArr).
  { apply (Nat.lt_le_trans _
             (List.length (removeAnsiChars (chalk Earlier.lastLine))));
      [vm_compute; lia|].
    apply getMaxLengthNoAnsi_ge; unfold textArr.
    apply in_or_app; right; apply in_or_app; right; left; reflexivity. }
  set (room := (Z.of_nat (getMaxLengthNoAnsi textArr)
                - Z.of_nat (List.length header))%Z).
  assert (Hroom : (0 <= room)%Z) by (unfold room; lia).
  unfold spaces.
  replace (room / 2 <? 0)%Z with false
    by (symmetry; apply Z.ltb_ge, Z.div_pos; lia).
  replace (- (- room / 2) <? 0)%Z with false.
  - simpl; eauto.
  - symmetry; apply Z.ltb_ge.
    assert (- room / 2 <= 0)%Z; [|lia].
    apply Z.div_le_upper_bound; lia.
Qed.

Lemma Earlier_mapEntries_returns entries :
  snd (Earlier.mapEntries entries) = Normal (map aliasEntry entries).
Proof.
  induction entries as [|entry entries IH]; [reflexivity|].
  cbn [Earlier.mapEntries map].
  destruct (isDuplicate entry).
  - destruct (Earlier_report_returns (fst entry) (snd entry)) as [console ->].
    destruct (Earlier.mapEntries entries) as [console' mapped].
    simpl in IH; subst mapped; reflexivity.
  - destruct (Earlier.mapEntries entries) as [console' mapped].
    simpl in IH; subst mapped; reflexivity.
Qed.

Lemma Earlier_mapEntries_silent entries :
  filter isDuplicate entries = [] -> fst (Earlier.mapEntries entries) = [].
Proof.
  induction entries as [|entry entries IH]; [reflexivity|].
  cbn [Earlier.mapEntries filter].
  destruct (isDuplicate entry); [discriminate|].
  intros H; specialize (IH H).
  destruct (Earlier.mapEntries entries) as [console' mapped].
  simpl in IH; subst console'; reflexivity.
Qed.

(** X16. The earlier [createViteAliasMap], which reports key by key, returns
    the alias list for every registry, and logs nothing when no key has
    more than one path. *)
Theorem earlier_projection_returns :
  forall fileMap,
    snd (Earlier.createViteAliasMap fileMap) = Normal (aliasMapOf fileMap)
    /\ (duplicatesOf fileMap = [] ->
        fst (Earlier.createViteAliasMap fileMap) = []).
Proof.
  intros fileMap; split.
  - apply Earlier_mapEntries_returns.
  - apply Earlier_mapEntries_silent.
Qed.

Lemma earlier_projection_returns_witness :
  Earlier.createViteAliasMap Sample.oneModule
  = ([], Normal [ {| find := js "App"; replacement := Some Sample.app |} ]).
Proof.
  destruct (earlier_projection_returns Sample.oneModule) as [H1 H2].
  specialize (H2 eq_refl).
  destruct (Earlier.createViteAliasMap Sample.oneModule) as [console result].
  simpl in H1, H2; subst; reflexivity.
Defined.

(* ================================================================== *)
(** ** Keys and watch patterns *)

Section Tail.

Variable CWD : list jsstring.

(** [path.resolve] of a normalized absolute path followed by further
    segments. *)
Lemma path_resolve_absolute_tail base segs tail :
  forallb is_segment segs = true -> forallb is_segment tail = true ->
  path_resolve CWD [base; (SLASH :: join path_sep segs)
                          ++ SLASH :: join path_sep tail]
  = SLASH :: join path_sep (segs ++ tail).
Proof.
  intros Hs Ht; unfold path_resolve; simpl.
  rewrite <- app_assoc; simpl.
  rewrite !split_slash_app; unfold normalize_segments.
  change (fold_left normalize_step ([] :: ?l) [])
    with (fold_left normalize_step l []).
  rewrite !fold_left_app.
  rewrite !normalize_joined by (apply segments_plain; assumption).
  rewrite (normalize_segments_push segs []) by exact Hs.
  rewrite (normalize_segments_push tail) by exact Ht.
  simpl; unfold normalize_step; simpl.
  rewrite app_nil_r, rev_app_distr, !rev_involutive; reflexivity.
Qed.

End Tail.

Section Patterns.

Variables (DIR CWD : list jsstring).

Lemma join_plain sep l :
  existsb is_slash sep = false ->
  (forall x, In x l -> existsb is_slash x = false) ->
  existsb is_slash (join sep l) = false.
Proof.
  intros Hsep; induction l as [|x l IH]; intros H; [reflexivity|].
  destruct l as [|y l]; [apply H; left; reflexivity|].
  change (join sep (x :: y :: l)) with (x ++ sep ++ join sep (y :: l)).
  rewrite !existsb_app, Hsep, (H x (or_introl eq_refl)), IH;
    [reflexivity|].
  intros z Hz; apply H; right; exact Hz.
Qed.

Lemma watchPattern_resolved item :
  (forall ext, In ext (extensions item) -> existsb is_slash ext = false) ->
  watchPattern DIR CWD (absoluteSource DIR CWD item)
  = SLASH :: join path_sep (patternSegments DIR CWD item).
Proof.
  intros Hext; unfold watchPattern, absoluteSource, patternSegments.
  cbv zeta; cbn [sourcePath extensions].
  destruct (normalAbsolute_spec _
              (path_resolve_normalAbsolute DIR CWD (sourcePath item)))
    as (segs & -> & Hsegs).
  rewrite path_segments_joined by exact Hsegs.
  set (globs := join (js "|") (map (fun ext => js "*" ++ ext)
                                 (extensions item))).
  change ((SLASH :: join path_sep segs) ++ js "/**/(" ++ globs ++ js ")")
    with ((SLASH :: join path_sep segs)
          ++ SLASH :: join path_sep [js "**"; js "(" ++ globs ++ js ")"]).
  apply path_resolve_absolute_tail; [exact Hsegs|].
  assert (Hg : existsb is_slash globs = false).
  { apply join_plain; [reflexivity|].
    intros x Hx; apply in_map_iff in Hx as (ext & <- & He).
    simpl; apply Hext; exact He. }
  simpl; unfold is_segment.
  change (js "(" ++ globs ++ js ")") with (40%N :: globs ++ js ")").
  simpl; rewrite existsb_app, Hg; reflexivity.
Qed.

(** X17. The patterns given to the watcher on a cold start. When no
    extension holds a separator, there is one pattern per source, in the
    order of the input: the resolved source directory, [**], and the
    alternatives [*ext] between brackets. *)
Theorem cold_start_watch_patterns :
  forall fileContents events arr,
    (forall item ext, In item arr -> In ext (extensions item) ->
                      existsb is_slash ext = false) ->
    watched (createAliasMap DIR CWD false fileContents events arr)
    = Some (map (fun item =>
                   SLASH :: join path_sep (patternSegments DIR CWD item))
              arr).
Proof.
  intros fileContents events arr Hext.
  assert (H : watched (createAliasMap DIR CWD false fileContents events arr)
              = Some (map (watchPattern DIR CWD)
                        (map (absoluteSource DIR CWD) arr))).
  { unfold createAliasMap; cbv zeta.
    destruct (deliver _ _ _ _ _) as [[fileMap texts] errors].
    destruct (createViteAliasMap DIR CWD fileMap) as [console [aliasMap|e]];
      [|reflexivity].
    destruct (writeTsConfigPathsJSON DIR CWD fileMap); reflexivity. }
  rewrite H, map_map; f_equal.
  apply map_ext_in; intros item Hitem.
  apply watchPattern_resolved; intros ext; apply Hext; exact Hitem.
Qed.

End Patterns.

Lemma cold_start_watch_patterns_witness :
  watched (createAliasMap Sample.dir Sample.cwd false [] Demo.scan
             Demo.relativeSources)
  = Some [js "/proj/src/**/(*.ts|*.tsx|*.js|*.jsx)"].
Proof.
  apply (cold_start_watch_patterns Sample.dir Sample.cwd [] Demo.scan
           Demo.relativeSources).
  intros item ext [<-|[]] Hext; simpl in Hext.
  repeat destruct Hext as [<-|Hext]; try reflexivity; destruct Hext.
Defined.

(** X18. Under one import prefix, two files have the same key exactly when
    they have the same name without extension: files that differ in
    directory or extension only share a key. *)
Theorem keys_collide_on_stem :
  forall parent1 stem1 ext1 parent2 stem2 ext2 aliasArray,
    stem1 <> [] -> ~ In SLASH stem1 ->
    ext1 <> [] -> ~ In SLASH ext1 -> ~ In DOT ext1 ->
    stem2 <> [] -> ~ In SLASH stem2 ->
    ext2 <> [] -> ~ In SLASH ext2 -> ~ In DOT ext2 ->
    let p1 := parent1 ++ [SLASH] ++ stem1 ++ [DOT] ++ ext1 in
    let p2 := parent2 ++ [SLASH] ++ stem2 ++ [DOT] ++ ext2 in
    getImportPrefix p1 aliasArray = getImportPrefix p2 aliasArray ->
    (mapKeyOf p1 aliasArray = mapKeyOf p2 aliasArray <-> stem1 = stem2).
Proof.
  intros parent1 stem1 ext1 parent2 stem2 ext2 aliasArray
    Ha1 Ha2 Ha3 Ha4 Ha5 Hb1 Hb2 Hb3 Hb4 Hb5; cbv zeta; intros Hp.
  unfold mapKeyOf; cbv zeta.
  rewrite !path_parse_name_file by assumption.
  rewrite Hp; clear Hp.
  generalize (getImportPrefix (parent2 ++ [SLASH] ++ stem2 ++ [DOT] ++ ext2)
                aliasArray).
  intros [[|c pre]|]; split; intros H;
    try (subst; reflexivity); try exact H.
  apply app_inv_head in H; apply app_inv_head in H; exact H.
Qed.

Lemma keys_collide_on_stem_witness :
  mapKeyOf Sample.appA Sample.sources = mapKeyOf Sample.appB Sample.sources.
Proof.
  apply (keys_collide_on_stem (js "/proj/src/a") (js "App") (js "tsx")
           (js "/proj/src/b") (js "App") (js "tsx") Sample.sources);
    try discriminate; try reflexivity;
    intros H; vm_compute in H; intuition discriminate.
Defined.
